(** * pslse/psl.c: the per-AFU session core of the PSL simulation engine

    A shallow embedding of [_attach], [_free], [_handle_afu],
    [_handle_client], the body of [_psl_loop] and [psl_init], followed by
    the properties of the session core that the design document states.

    Conventions.
    - C [int] and [uint8_t] values are [Z]; pointers into the records owned
      by the collaborating subsystems are handles ([ptr]) into finite maps.
    - A [struct client *] argument is the index of the slot in
      [psl->client], since every caller passes [&psl->client[i]].
    - Calls that leave the file (sockets, the job, MMIO and command
      subsystems, the AFU event transport, logging) are recorded, in program
      order, in the [trace] field of the session; what they return is read
      from an environment record supplied by the caller of the model. *)

From stdpp Require Import base numbers option list strings gmap.

Local Open Scope Z_scope.

(** ** Constants of the headers *)

(** The macros and enumerators that psl.c takes from psl.h, utils.h and
    psl_interface.h.  Their values are not fixed by psl.c, so they are
    parameters of the development. *)
Class Constants := {
  PSL_IDLE_CYCLES : Z;
  PSLSE_ATTACH : Z;
  PSLSE_DETACH : Z;
  PSLSE_MEM_FAILURE : Z;
  PSLSE_MEM_SUCCESS : Z;
  PSLSE_MMIO_MAP : Z;
  PSLSE_MMIO_WRITE64 : Z;
  PSLSE_MMIO_READ64 : Z;
  PSLSE_MMIO_WRITE32 : Z;
  PSLSE_MMIO_READ32 : Z;
  PSL_JOB_START : Z;
  PSL_RESPONSE_AERROR : Z;
  MEM_DONE : Z
}.

(** Modelled from the spec: the enumeration of session states is declared
    in a header that is not part of the sources at hand; the design
    document lists the lifecycle states RUNNING, IDLE and DONE.  psl.c only
    compares against [PSLSE_IDLE] and [PSLSE_DONE]. *)
Inductive pslse_state := PSLSE_IDLE | PSLSE_RUNNING | PSLSE_DONE.

Global Instance pslse_state_eq_dec : EqDecision pslse_state.
Proof. solve_decision. Defined.

Definition ptr := nat.

(** ** Records *)

(** [struct cmd_event], as far as [_free] touches it. *)
Module CmdEvent.
Record t := mk { state : Z; resp : Z }.
End CmdEvent.

(** The record behind [client->job], as far as [_free] touches it. *)
Module Job.
Record t := mk { state : pslse_state }.
End Job.

Module Client.
Record t := mk {
    fd : Z;
    ip : option string;
    valid : Z;
    idle_cycles : Z;
    mem_access : option ptr;
    mmio_access : option ptr;
    job : option ptr;
    context : Z
  }.

Definition set_idle_cycles (n : Z) (c : t) : t :=
    mk (fd c) (ip c) (valid c) n (mem_access c) (mmio_access c) (job c) (context c).
Definition set_valid (v : Z) (c : t) : t :=
    mk (fd c) (ip c) v (idle_cycles c) (mem_access c) (mmio_access c) (job c) (context c).
Definition set_mem_access (m : option ptr) (c : t) : t :=
    mk (fd c) (ip c) (valid c) (idle_cycles c) m (mmio_access c) (job c) (context c).
Definition set_mmio_access (m : option ptr) (c : t) : t :=
    mk (fd c) (ip c) (valid c) (idle_cycles c) (mem_access c) m (job c) (context c).
End Client.

(** Calls that leave psl.c, with the arguments psl.c passes. *)
Inductive event :=
  | Debug_context_remove (dbg_id context : Z)
  | Debug_afu_drop (dbg_id : Z)
  | Info_disconnect (context : Z)
  | Info_clocking
  | Info_stopping
  | Warn_no_wed
  | Mutex_lock
  | Mutex_unlock
  | Close (fd : Z)
  | Free_ip
  | Get_bytes (fd : Z) (size timeout : Z)
  | Put_bytes (fd : Z) (bytes : list Z)
  | Poll (fd : Z)
  | Add_job (code wed : Z)
  | Handle_mmio_done (context : Z)
  | Handle_aerror (cmd : option ptr)
  | Handle_mem_return (cmd : option ptr) (fd : Z)
  | Handle_mmio_map (context : Z)
  | Handle_mmio (context : Z) (rnw dw : Z)
  | Client_cmd (i : nat)
  | Psl_signal_afu_model
  | Psl_get_afu_events
  | Handle_aux2
  | Handle_mmio_ack
  | Handle_response
  | Handle_buffer_write
  | Handle_buffer_read
  | Handle_buffer_data
  | Handle_touch
  | Handle_cmd
  | Handle_interrupt
  | Send_job
  | Send_mmio
  | Ns_delay (ns : Z).

Global Instance event_eq_dec : EqDecision event.
Proof. solve_decision. Defined.

Module Psl.
Record t := mk {
    dbg_id : Z;
    state : pslse_state;
    idle_cycles : Z;
    (** [psl->cmd != NULL] *)
    cmd : bool;
    (** [psl->client[0 .. max_clients-1]] *)
    client : list Client.t;
    (** the [struct cmd_event]s that [client->mem_access] may point to *)
    cmd_events : gmap ptr CmdEvent.t;
    (** the records that [client->job] may point to *)
    jobs : gmap ptr Job.t;
    trace : list event
  }.

Definition max_clients (psl : t) : nat := length (client psl).

Definition set_state (s : pslse_state) (psl : t) : t :=
    mk (dbg_id psl) s (idle_cycles psl) (cmd psl) (client psl)
       (cmd_events psl) (jobs psl) (trace psl).
Definition set_idle_cycles (n : Z) (psl : t) : t :=
    mk (dbg_id psl) (state psl) n (cmd psl) (client psl)
       (cmd_events psl) (jobs psl) (trace psl).
Definition set_client (cs : list Client.t) (psl : t) : t :=
    mk (dbg_id psl) (state psl) (idle_cycles psl) (cmd psl) cs
       (cmd_events psl) (jobs psl) (trace psl).
Definition set_cmd_events (m : gmap ptr CmdEvent.t) (psl : t) : t :=
    mk (dbg_id psl) (state psl) (idle_cycles psl) (cmd psl) (client psl)
       m (jobs psl) (trace psl).
Definition set_jobs (m : gmap ptr Job.t) (psl : t) : t :=
    mk (dbg_id psl) (state psl) (idle_cycles psl) (cmd psl) (client psl)
       (cmd_events psl) m (trace psl).
Definition set_trace (tr : list event) (psl : t) : t :=
    mk (dbg_id psl) (state psl) (idle_cycles psl) (cmd psl) (client psl)
       (cmd_events psl) (jobs psl) tr.
End Psl.

(** Record the calls [es], in order. *)
Definition emit (es : list event) (psl : Psl.t) : Psl.t :=
  Psl.set_trace (Psl.trace psl ++ es) psl.

(** [psl->client[i] := f (psl->client[i])]; nothing happens outside the
    table, where the C code would never be given a pointer to. *)
Definition upd_client (i : nat) (f : Client.t → Client.t) (psl : Psl.t) : Psl.t :=
  match Psl.client psl !! i with
  | Some c => Psl.set_client (<[i := f c]> (Psl.client psl)) psl
  | None => psl
  end.

(** The client a slot holds; the default is never read inside the table. *)
Definition null_client : Client.t :=
  Client.mk (-1) None 0 0 None None None 0.

Definition client_at (i : nat) (psl : Psl.t) : Client.t :=
  default null_client (Psl.client psl !! i).

(** What the calls made for one client in one pass of the loop return. *)
Module ClientEnv.
Record t := mk {
    (** [handle_mmio_done(psl->mmio, client)] *)
    r_handle_mmio_done : option ptr;
    (** [poll(&pfd, 1, 1)] *)
    r_poll : Z;
    (** [get_bytes(client->fd, 1, 1)]: the byte read, or NULL *)
    r_get_byte : option Z;
    (** [get_bytes(client->fd, 8, 10000)]: the eight bytes read, or NULL *)
    r_get_wed : option (list Z);
    (** [add_job(psl->job, PSL_JOB_START, wed) != NULL] *)
    r_add_job : bool;
    (** [handle_mmio(psl->mmio, client, rnw, dw)] *)
    r_handle_mmio : option ptr;
    (** [client_cmd(psl->cmd, i)] *)
    r_client_cmd : Z
  }.
End ClientEnv.

(** What the calls of one iteration of [_psl_loop] return, and what the
    iteration reads from memory that other code writes. *)
Module LoopEnv.
Record t := mk {
  (** [psl->state] at the head of the iteration; the job and command
      subsystems write it through the [&psl->state] they were given *)
  r_state : pslse_state;
  (** [psl_get_afu_events(psl->afu_event)] *)
  r_event : Z;
  (** [psl->job->job == NULL], after [send_job] and [send_mmio] *)
  r_job_null : bool;
  (** [psl->mmio->list == NULL], after [send_job] and [send_mmio] *)
  r_mmio_null : bool;
  (** the calls made for slot [i] *)
  r_client : nat → ClientEnv.t
}.
End LoopEnv.

(** ** [_attach] *)

(** [le64toh] of the 64-bit word at the start of [buffer]: its first eight
    bytes, least significant first. *)
Definition le64toh (buffer : list Z) : Z :=
  foldr (λ b acc, Z.lor (Z.land b 255) (Z.shiftl acc 8)) 0 (take 8 buffer).

(** [n--] on an [int] countdown: one less; from the smallest [int] the
    compiled code wraps around to the largest. *)
Definition int_dec (n : Z) : Z :=
  if n =? -2147483648 then 2147483647 else n - 1.

Global Arguments int_dec : simpl never.

Section Core.
Context `{K : Constants}.

Definition _attach (env : ClientEnv.t) (i : nat) (psl : Psl.t) : Psl.t :=
  let fd := Client.fd (client_at i psl) in
  let ack := PSLSE_DETACH in
  let psl := emit [Get_bytes fd 8 10000] psl in
  match ClientEnv.r_get_wed env with
  | None =>
      let psl := emit [Warn_no_wed] psl in
      emit [Put_bytes fd [ack]] psl
  | Some buffer =>
      let wed := le64toh buffer in
      let psl := emit [Add_job PSL_JOB_START wed] psl in
      if ClientEnv.r_add_job env then
        let psl := Psl.set_idle_cycles PSL_IDLE_CYCLES psl in
        let ack := PSLSE_ATTACH in
        emit [Put_bytes fd [ack]] psl
      else
        emit [Put_bytes fd [ack]] psl
  end.

(** ** [_free] *)

(** [if (mem_access->state != MEM_DONE) { resp = AERROR; state = MEM_DONE; }] *)
Definition force_done (ev : CmdEvent.t) : CmdEvent.t :=
  if decide (CmdEvent.state ev ≠ MEM_DONE)
  then CmdEvent.mk MEM_DONE PSL_RESPONSE_AERROR
  else ev.

Definition _free (i : nat) (psl : Psl.t) : Psl.t :=
  let client := client_at i psl in
  let psl := emit [Debug_context_remove (Psl.dbg_id psl) (Client.context client);
                   Info_disconnect (Client.context client);
                   Mutex_lock;
                   Close (Client.fd client)] psl in
  let psl :=
    match Client.ip client with
    | Some _ => emit [Free_ip] psl
    | None => psl
    end in
  let psl :=
    match Client.mem_access client with
    | Some h => Psl.set_cmd_events (alter force_done h (Psl.cmd_events psl)) psl
    | None => psl
    end in
  let psl :=
    match Client.job client with
    | Some j => Psl.set_jobs (alter (λ _, Job.mk PSLSE_DONE) j (Psl.jobs psl)) psl
    | None => psl
    end in
  let psl :=
    upd_client i (λ c, Client.mk (-1) None 0 0 None None
                                 (Client.job c) (Client.context c)) psl in
  emit [Mutex_unlock] psl.

(** ** [_handle_afu] *)

Definition _handle_afu (psl : Psl.t) : Psl.t :=
  let psl := emit [Handle_aux2; Handle_mmio_ack] psl in
  if Psl.cmd psl then
    emit [Handle_response; Handle_buffer_write; Handle_buffer_read;
          Handle_buffer_data; Handle_touch; Handle_cmd; Handle_interrupt] psl
  else psl.

(** ** [_handle_client] *)

(** [if (c) body] *)
Definition when {A} (c : bool) (body : A → A) (a : A) : A :=
  if c then body a else a.

(** The four [handle_mmio] branches: the call is recorded and its result
    assigned to the local [mmio]. *)
Definition mmio_branch (env : ClientEnv.t) (i : nat) (rnw dw : Z)
    (s : Psl.t * option ptr) : Psl.t * option ptr :=
  (emit [Handle_mmio (Client.context (client_at i s.1)) rnw dw] s.1,
   ClientEnv.r_handle_mmio env).

Definition _handle_client (env : ClientEnv.t) (i : nat) (psl : Psl.t) : Psl.t :=
  (* Handle MMIO done *)
  let psl :=
    match Client.mmio_access (client_at i psl) with
    | Some _ =>
        let psl := upd_client i (Client.set_idle_cycles PSL_IDLE_CYCLES) psl in
        let psl := emit [Handle_mmio_done (Client.context (client_at i psl))] psl in
        upd_client i (Client.set_mmio_access (ClientEnv.r_handle_mmio_done env)) psl
    | None => psl
    end in
  (* Check for event from application *)
  let cmd := Client.mem_access (client_at i psl) in
  let fd := Client.fd (client_at i psl) in
  let psl := emit [Poll fd] psl in
  if 0 <? ClientEnv.r_poll env then
    let psl := emit [Get_bytes fd 1 1] psl in
    match ClientEnv.r_get_byte env with
    | None => _free i psl
    | Some b =>
        let psl :=
          when (b =? PSLSE_DETACH)
            (upd_client i (λ c, Client.set_valid (-1)
                                  (Client.set_idle_cycles PSL_IDLE_CYCLES c))) psl in
        let psl := when (b =? PSLSE_ATTACH) (_attach env i) psl in
        let psl :=
          when (b =? PSLSE_MEM_FAILURE)
            (λ psl, upd_client i (Client.set_mem_access None)
                      (emit [Handle_aerror cmd] psl)) psl in
        let psl :=
          when (b =? PSLSE_MEM_SUCCESS)
            (λ psl, upd_client i (Client.set_mem_access None)
                      (emit [Handle_mem_return cmd (Client.fd (client_at i psl))] psl))
            psl in
        let psl :=
          when (b =? PSLSE_MMIO_MAP)
            (λ psl, emit [Handle_mmio_map (Client.context (client_at i psl))] psl)
            psl in
        let s := (psl, None) in
        let s := when (b =? PSLSE_MMIO_WRITE64) (mmio_branch env i 0 1) s in
        let s := when (b =? PSLSE_MMIO_READ64) (mmio_branch env i 1 1) s in
        let s := when (b =? PSLSE_MMIO_WRITE32) (mmio_branch env i 0 0) s in
        let s := when (b =? PSLSE_MMIO_READ32) (mmio_branch env i 1 0) s in
        let '(psl, mmio) := s in
        let psl :=
          match mmio with
          | Some m => upd_client i (Client.set_mmio_access (Some m)) psl
          | None => psl
          end in
        upd_client i (Client.set_idle_cycles PSL_IDLE_CYCLES) psl
    end
  else psl.

(** ** [_psl_loop] *)

(** The session and the local [stopped]. *)
Definition loop_state : Type := Psl.t * bool.

(** Lines 186-192: any state but IDLE restarts the countdown. *)
Definition loop_head (s : loop_state) : loop_state :=
  let '(psl, stopped) := s in
  if decide (Psl.state psl ≠ PSLSE_IDLE) then
    let psl := Psl.set_idle_cycles PSL_IDLE_CYCLES psl in
    let psl := if stopped then emit [Info_clocking] psl else psl in
    (psl, false)
  else (psl, stopped).

(** Lines 194-223: clock the AFU, or sleep.  [inr] is the [break] on a
    transport error. *)
Definition clock_phase (env : LoopEnv.t) (s : loop_state) : loop_state + Psl.t :=
  let '(psl, stopped) := s in
  if decide (Psl.idle_cycles psl ≠ 0) then
    let psl := emit [Mutex_lock; Psl_signal_afu_model; Psl_get_afu_events;
                     Mutex_unlock] psl in
    let event := LoopEnv.r_event env in
    if event <? 0 then inr psl
    else
      let psl := when (0 <? event) _handle_afu psl in
      let psl := emit [Send_job; Send_mmio] psl in
      let psl :=
        when (LoopEnv.r_job_null env && LoopEnv.r_mmio_null env)
          (λ psl, Psl.set_idle_cycles (int_dec (Psl.idle_cycles psl)) psl) psl in
      inl (psl, stopped)
  else
    let psl := if stopped then psl else emit [Info_stopping] psl in
    let psl := emit [Ns_delay 1000000] psl in
    inl (psl, true).

(** Lines 227-241: the body of the loop over the client slots. *)
Definition client_slot (env : ClientEnv.t) (i : nat) (psl : Psl.t) : Psl.t :=
  if Client.valid (client_at i psl) =? 0 then psl
  else
    let psl := _handle_client env i psl in
    if (Client.valid (client_at i psl) <? 0)
       && (Client.idle_cycles (client_at i psl) =? 0) then
      let ack := PSLSE_DETACH in
      let psl := emit [Mutex_lock;
                       Put_bytes (Client.fd (client_at i psl)) [ack];
                       Mutex_unlock] psl in
      _free i psl
    else
      let psl :=
        when (negb (Client.idle_cycles (client_at i psl) =? 0))
          (upd_client i (λ c, Client.set_idle_cycles (int_dec (Client.idle_cycles c)) c))
          psl in
      let psl := emit [Client_cmd i] psl in
      when (negb (ClientEnv.r_client_cmd env =? 0))
        (upd_client i (Client.set_idle_cycles PSL_IDLE_CYCLES)) psl.

(** Lines 226-242: [for (i = 0; i < psl->max_clients; i++)]. *)
Definition client_phase (env : LoopEnv.t) (psl : Psl.t) : Psl.t :=
  foldl (λ psl i, client_slot (LoopEnv.r_client env i) i psl)
        psl (seq 0 (Psl.max_clients psl)).

(** How one evaluation of the [while] ends. *)
Inductive outcome :=
  | Continue (s : loop_state)    (* the body ran to its end *)
  | Break (psl : Psl.t)          (* transport error *)
  | Exit (psl : Psl.t).          (* [psl->state == PSLSE_DONE] *)

Definition iteration (env : LoopEnv.t) (s : loop_state) : outcome :=
  let s : loop_state := (Psl.set_state (LoopEnv.r_state env) s.1, s.2) in
  if decide (Psl.state s.1 = PSLSE_DONE) then Exit s.1
  else
    match clock_phase env (loop_head s) with
    | inr psl => Break psl
    | inl (psl, stopped) => Continue (client_phase env psl, stopped)
    end.

(** Consecutive iterations that all run to their end. *)
Fixpoint iterations (envs : list LoopEnv.t) (s : loop_state) : option loop_state :=
  match envs with
  | [] => Some s
  | env :: envs =>
      match iteration env s with
      | Continue s => iterations envs s
      | _ => None
      end
  end.

(** Lines 245-251: the sockets closed once the loop is left. *)
Definition disconnect_clients (psl : Psl.t) : Psl.t :=
  foldl (λ psl c, when (negb (Client.valid c =? 0)) (emit [Close (Client.fd c)]) psl)
        psl (Psl.client psl).

End Core.

(** ** [psl_init] *)

(** C strings: the characters before the first NUL, as character codes. *)
Fixpoint until_nul (cs : list Z) : list Z :=
  match cs with
  | [] => []
  | c :: cs => if c =? 0 then [] else c :: until_nul cs
  end.

Definition c_chars (s : string) : list Z :=
  until_nul ((λ a, Z.of_nat (Ascii.nat_of_ascii a)) <$> String.list_ascii_of_string s).

Definition strlen (s : string) : Z := Z.of_nat (length (c_chars s)).

(** [s[k]], for [k] up to [strlen s], where the terminating NUL is read. *)
Definition char_at (s : string) (k : nat) : Z := nth k (c_chars s) 0.

(** [strncmp(s1, s2, n) != 0] *)
Definition strncmp_ne (s1 s2 : string) (n : nat) : bool :=
  bool_decide (take n (c_chars s1) ≠ take n (c_chars s2)).

(** What [psl_init] owns while it runs: heap blocks and mutexes.  A
    subsystem record and its lock come into being in the subsystem's
    [*_init]; the teardown at the end of [_psl_loop] destroys that lock and
    frees that record. *)
Inductive resource :=
  | R_psl | R_name | R_host | R_afu_event | R_job | R_mmio | R_cmd
  | L_psl | L_job | L_mmio | L_cmd.

Global Instance resource_eq_dec : EqDecision resource.
Proof. solve_decision. Defined.

Inductive init_event :=
  | Malloc (r : resource)
  | Free (r : resource)
  | Mutex_init (l : resource)
  | Mutex_destroy (l : resource)
  | Error_msg_alloc (r : resource)
  | Warn_invalid_name
  | Warn_invalid_major
  | Warn_invalid_minor
  | Warn_unable_to_connect
  | Warn_unable_to_set_credits
  | Perror (what : string)
  | Psl_init_afu_event (host : string) (port : Z)
  | Debug_afu_connect (dbg_id : Z)
  | Job_init
  | Mmio_init
  | Cmd_init
  | Psl_aux1_change
  | Pthread_create.

Global Instance init_event_eq_dec : EqDecision init_event.
Proof. solve_decision. Defined.

(** What the calls of [psl_init] return. *)
Module InitEnv.
Record t := mk {
  (** [malloc(sizeof(struct psl))]: the address of the block, or NULL *)
  r_malloc_psl : option ptr;
  (** the other three [malloc]s [!= NULL] *)
  r_malloc_name : bool;
  r_malloc_host : bool;
  r_malloc_afu_event : bool;
  (** [psl_init_afu_event(...) == PSL_SUCCESS] *)
  r_psl_init_afu_event : bool;
  (** [job_init(...) != NULL], [mmio_init(...) != NULL], [cmd_init(...) != NULL] *)
  r_job_init : bool;
  r_mmio_init : bool;
  r_cmd_init : bool;
  (** [psl_aux1_change(...) == PSL_SUCCESS] *)
  r_psl_aux1_change : bool;
  (** [pthread_create(...)] *)
  r_pthread_create : Z
}.
End InitEnv.

(** A [struct psl] as the registry sees it: the fields [psl_init] fills in
    and the intrusive links. *)
Module Session.
Record t := mk {
  name : string;
  host : string;
  port : Z;
  dbg_id : Z;
  idle_cycles : Z;
  _prev : option ptr;
  _next : option ptr
}.

Definition set_prev (p : option ptr) (s : t) : t :=
  mk (name s) (host s) (port s) (dbg_id s) (idle_cycles s) p (_next s).
End Session.

(** The list behind [struct psl **head]. *)
Module Registry.
Record t := mk {
  head : option ptr;
  sessions : gmap ptr Session.t
}.
End Registry.

(** How a call of [psl_init] ends: it returns [v], or it makes a call whose
    behaviour C leaves undefined and does not return. *)
Inductive completion :=
  | Returns (v : Z)
  | Undefined.

Module InitResult.
Record t := mk {
  ret : completion;
  registry : Registry.t;
  log : list init_event
}.
End InitResult.

Section Init.
Context `{K : Constants}.

(** Lines 300-311; [true] when the name passes all three tests. *)
Definition valid_id (id : string) : bool :=
  negb ((negb (strlen id =? 6)) || strncmp_ne id "afu" 3
        || negb (char_at id 4 =? 46))
  && negb ((char_at id 3 <? 48) || (51 <? char_at id 3))
  && negb ((char_at id 5 <? 48) || (51 <? char_at id 5)).

(** Line 300: [true] when the first test lets the name pass. *)
Definition name_shape (id : string) : bool :=
  negb ((negb (strlen id =? 6)) || strncmp_ne id "afu" 3
        || negb (char_at id 4 =? 46)).

(** Lines 313-315. *)
Definition dbg_id_of (id : string) : Z :=
  Z.lor (Z.shiftl (char_at id 3 - 48) 4) (char_at id 5 - 48).

(** [init_fail]: the blocks in [held] are freed, in the order of lines
    398-404; [psl] is non-NULL here. *)
Definition init_fail (held : list resource) : list init_event :=
  (if bool_decide (R_afu_event ∈ held) then [Free R_afu_event] else [])
  ++ (if bool_decide (R_host ∈ held) then [Free R_host] else [])
  ++ (if bool_decide (R_name ∈ held) then [Free R_name] else [])
  ++ [Free R_psl].

(** [init_fail_lock] falls through to [init_fail]. *)
Definition init_fail_lock (held : list resource) : list init_event :=
  Mutex_destroy L_psl :: init_fail held.

Definition failed (reg : Registry.t) (log : list init_event) : InitResult.t :=
  InitResult.mk (Returns (-1)) reg log.

(** Lines 305 and 309: [warn_msg("Invalid afu major: %s", id[3])] hands a
    [char] to [%s].  The call has no defined behaviour; [log] ends with
    it, and nothing after it is run. *)
Definition undefined (reg : Registry.t) (log : list init_event) : InitResult.t :=
  InitResult.mk Undefined reg log.

Definition psl_init (env : InitEnv.t) (reg : Registry.t)
    (id host : string) (port : Z) : InitResult.t :=
  match InitEnv.r_malloc_psl env with
  | None => failed reg [Perror "malloc"; Error_msg_alloc R_psl]
  | Some psl =>
    let log := [Malloc R_psl] in
    if (negb (strlen id =? 6)) || strncmp_ne id "afu" 3
       || negb (char_at id 4 =? 46) then
      failed reg (log ++ [Warn_invalid_name] ++ init_fail [])
    else
    if (char_at id 3 <? 48) || (51 <? char_at id 3) then
      undefined reg (log ++ [Warn_invalid_major])
    else
    if (char_at id 5 <? 48) || (51 <? char_at id 5) then
      undefined reg (log ++ [Warn_invalid_minor])
    else
    let dbg_id := dbg_id_of id in
    if negb (InitEnv.r_malloc_name env) then
      failed reg (log ++ [Perror "malloc"; Error_msg_alloc R_name] ++ init_fail [])
    else
    let log := log ++ [Malloc R_name] in
    if negb (InitEnv.r_malloc_host env) then
      failed reg (log ++ [Perror "malloc"; Error_msg_alloc R_host]
                      ++ init_fail [R_name])
    else
    let log := log ++ [Malloc R_host; Mutex_init L_psl] in
    if negb (InitEnv.r_malloc_afu_event env) then
      failed reg (log ++ [Perror "malloc"] ++ init_fail_lock [R_name; R_host])
    else
    let held := [R_name; R_host; R_afu_event] in
    let log := log ++ [Malloc R_afu_event; Psl_init_afu_event host port] in
    if negb (InitEnv.r_psl_init_afu_event env) then
      failed reg (log ++ [Warn_unable_to_connect] ++ init_fail_lock held)
    else
    let log := log ++ [Debug_afu_connect dbg_id; Job_init] in
    if negb (InitEnv.r_job_init env) then
      failed reg (log ++ [Perror "job_init"] ++ init_fail_lock held)
    else
    let log := log ++ [Mmio_init] in
    if negb (InitEnv.r_mmio_init env) then
      failed reg (log ++ [Perror "mmio_init"] ++ init_fail_lock held)
    else
    let log := log ++ [Cmd_init] in
    if negb (InitEnv.r_cmd_init env) then
      failed reg (log ++ [Perror "cmd_init"] ++ init_fail_lock held)
    else
    let log := log ++ [Psl_aux1_change] in
    if negb (InitEnv.r_psl_aux1_change env) then
      failed reg (log ++ [Warn_unable_to_set_credits] ++ init_fail_lock held)
    else
    let log := log ++ [Pthread_create] in
    if negb (InitEnv.r_pthread_create env =? 0) then
      failed reg (log ++ [Perror "pthread_create"] ++ init_fail_lock held)
    else
    (* Add psl to list *)
    let new := Session.mk id host port dbg_id PSL_IDLE_CYCLES
                          None (Registry.head reg) in
    let sessions :=
      match Registry.head reg with
      | Some h => alter (Session.set_prev (Some psl)) h (Registry.sessions reg)
      | None => Registry.sessions reg
      end in
    InitResult.mk (Returns 0) (Registry.mk (Some psl) (<[psl := new]> sessions)) log
  end.

(** What a run of [psl_init] has brought into being, and what it has given
    back. *)
Definition acquires (e : init_event) (env : InitEnv.t) : list resource :=
  match e with
  | Malloc r => [r]
  | Mutex_init l => [l]
  | Job_init => if InitEnv.r_job_init env then [R_job; L_job] else []
  | Mmio_init => if InitEnv.r_mmio_init env then [R_mmio; L_mmio] else []
  | Cmd_init => if InitEnv.r_cmd_init env then [R_cmd; L_cmd] else []
  | _ => []
  end.

Definition releases (e : init_event) : list resource :=
  match e with
  | Free r => [r]
  | Mutex_destroy l => [l]
  | _ => []
  end.

(** The resources still held at the end of the log. *)
Definition live (env : InitEnv.t) (log : list init_event) : list resource :=
  foldl (λ held e,
           list_difference held (releases e) ++ acquires e env)
        [] log.

End Init.

(** ** Vocabulary of the statements *)

(** The calls recorded between two states of one run. *)
Definition new_events (psl psl' : Psl.t) : list event :=
  drop (length (Psl.trace psl)) (Psl.trace psl').

Definition is_put_bytes (e : event) : bool :=
  match e with Put_bytes _ _ => true | _ => false end.

(** The socket writes among [es]. *)
Definition puts (es : list event) : list event := filter (λ e, is_put_bytes e = true) es.

(** A command byte handed to the command or the MMIO subsystem. *)
Definition is_dispatch (e : event) : bool :=
  match e with
  | Handle_aerror _ | Handle_mem_return _ _ | Handle_mmio_map _
  | Handle_mmio _ _ _ => true
  | _ => false
  end.

Definition dispatches (es : list event) : list event :=
  filter (λ e, is_dispatch e = true) es.

(** The eight-byte read succeeds and the job subsystem accepts the start. *)
Definition attach_succeeds (env : ClientEnv.t) : bool :=
  match ClientEnv.r_get_wed env with
  | Some _ => ClientEnv.r_add_job env
  | None => false
  end.

(** Everything but the trace. *)
Definition forget_trace (psl : Psl.t) : Psl.t := Psl.set_trace [] psl.

(** The trace of [psl'] continues that of [psl] with calls that all
    satisfy [P]. *)
Definition extends (P : event → Prop) (psl psl' : Psl.t) : Prop :=
  ∃ es, Psl.trace psl' = Psl.trace psl ++ es ∧ Forall P es.

(** The shape in which [_free] leaves a slot, the countdown apart. *)
Definition already_invalid (c : Client.t) : Prop :=
  Client.valid c = 0 ∧ Client.fd c = -1 ∧ Client.ip c = None
  ∧ Client.mem_access c = None ∧ Client.mmio_access c = None.

(** No countdown below zero. *)
Definition countdowns_nonneg (psl : Psl.t) : Prop :=
  0 ≤ Psl.idle_cycles psl
  ∧ Forall (λ c, 0 ≤ Client.idle_cycles c) (Psl.client psl).

Section Vocabulary.
Context `{K : Constants}.

(** The calls of [_attach], in order. *)
Definition attach_events (env : ClientEnv.t) (fd : Z) : list event :=
  Get_bytes fd 8 10000 ::
  match ClientEnv.r_get_wed env with
  | None => [Warn_no_wed; Put_bytes fd [PSLSE_DETACH]]
  | Some buffer =>
      [Add_job PSL_JOB_START (le64toh buffer);
       Put_bytes fd [if ClientEnv.r_add_job env then PSLSE_ATTACH else PSLSE_DETACH]]
  end.

(** The calls of [_free] for the client [c], in order. *)
Definition free_events (dbg_id : Z) (c : Client.t) : list event :=
  [Debug_context_remove dbg_id (Client.context c);
   Info_disconnect (Client.context c);
   Mutex_lock;
   Close (Client.fd c)]
  ++ match Client.ip c with Some _ => [Free_ip] | None => [] end
  ++ [Mutex_unlock].

(** The slot [_free] leaves behind. *)
Definition freed (c : Client.t) : Client.t :=
  Client.mk (-1) None 0 0 None None (Client.job c) (Client.context c).

(** The session [p] with slot [i] holding [c], countdown [n] and the calls
    [es] added to its trace: the form every state of a pass over slot [i]
    takes until the slot is released. *)
Definition at_slot (i : nat) (p : Psl.t) (c : Client.t) (n : Z)
    (es : list event) : Psl.t :=
  Psl.mk (Psl.dbg_id p) (Psl.state p) n (Psl.cmd p)
         (<[i := c]> (Psl.client p)) (Psl.cmd_events p) (Psl.jobs p)
         (Psl.trace p ++ es).

(** What [_free] does outside the client table when it releases [c]. *)
Definition free_base (c : Client.t) (p : Psl.t) : Psl.t :=
  Psl.set_jobs
    (match Client.job c with
     | Some j => alter (λ _, Job.mk PSLSE_DONE) j (Psl.jobs p)
     | None => Psl.jobs p
     end)
    (Psl.set_cmd_events
       (match Client.mem_access c with
        | Some h => alter force_done h (Psl.cmd_events p)
        | None => Psl.cmd_events p
        end) p).

(** Lines 230-241: what follows the call of [_handle_client] in the body
    of the loop over the slots. *)
Definition detach_or_count (env : ClientEnv.t) (i : nat) (psl : Psl.t) : Psl.t :=
  if (Client.valid (client_at i psl) <? 0)
     && (Client.idle_cycles (client_at i psl) =? 0) then
    let ack := PSLSE_DETACH in
    let psl := emit [Mutex_lock;
                     Put_bytes (Client.fd (client_at i psl)) [ack];
                     Mutex_unlock] psl in
    _free i psl
  else
    let psl :=
      when (negb (Client.idle_cycles (client_at i psl) =? 0))
        (upd_client i (λ c, Client.set_idle_cycles (int_dec (Client.idle_cycles c)) c))
        psl in
    let psl := emit [Client_cmd i] psl in
    when (negb (ClientEnv.r_client_cmd env =? 0))
      (upd_client i (Client.set_idle_cycles PSL_IDLE_CYCLES)) psl.

(** Lines 238-241 on the client record. *)
Definition count_client (env : ClientEnv.t) (c : Client.t) : Client.t :=
  let c := when (negb (Client.idle_cycles c =? 0))
             (λ c, Client.set_idle_cycles (int_dec (Client.idle_cycles c)) c) c in
  when (negb (ClientEnv.r_client_cmd env =? 0))
    (Client.set_idle_cycles PSL_IDLE_CYCLES) c.

(** The calls of lines 232-235 for the client [c]. *)
Definition detach_events (dbg_id : Z) (c : Client.t) : list event :=
  [Mutex_lock; Put_bytes (Client.fd c) [PSLSE_DETACH]; Mutex_unlock]
  ++ free_events dbg_id c.

(** Lines 124-127 on the client record, and the call they make. *)
Definition mmio_done_client (env : ClientEnv.t) (c : Client.t) : Client.t :=
  match Client.mmio_access c with
  | Some _ =>
      Client.set_mmio_access (ClientEnv.r_handle_mmio_done env)
        (Client.set_idle_cycles PSL_IDLE_CYCLES c)
  | None => c
  end.

Definition mmio_done_events (c : Client.t) : list event :=
  match Client.mmio_access c with
  | Some _ => [Handle_mmio_done (Client.context c)]
  | None => []
  end.

(** The value of the local [mmio] at line 166 when the byte [b] was read. *)
Definition byte_mmio (env : ClientEnv.t) (b : Z) : option ptr :=
  let m := None in
  let m := if b =? PSLSE_MMIO_WRITE64 then ClientEnv.r_handle_mmio env else m in
  let m := if b =? PSLSE_MMIO_READ64 then ClientEnv.r_handle_mmio env else m in
  let m := if b =? PSLSE_MMIO_WRITE32 then ClientEnv.r_handle_mmio env else m in
  let m := if b =? PSLSE_MMIO_READ32 then ClientEnv.r_handle_mmio env else m in
  m.

(** Lines 140-169 on the client record when the byte [b] was read. *)
Definition byte_client (env : ClientEnv.t) (b : Z) (c : Client.t) : Client.t :=
  let c := when (b =? PSLSE_DETACH)
             (λ c, Client.set_valid (-1) (Client.set_idle_cycles PSL_IDLE_CYCLES c)) c in
  let c := when (b =? PSLSE_MEM_FAILURE) (Client.set_mem_access None) c in
  let c := when (b =? PSLSE_MEM_SUCCESS) (Client.set_mem_access None) c in
  let c := match byte_mmio env b with
           | Some m => Client.set_mmio_access (Some m) c
           | None => c
           end in
  Client.set_idle_cycles PSL_IDLE_CYCLES c.

(** Lines 140-164: the calls made when the byte [b] was read from the
    client [c]. *)
Definition byte_events (env : ClientEnv.t) (b : Z) (c : Client.t) : list event :=
  (if b =? PSLSE_ATTACH then attach_events env (Client.fd c) else [])
  ++ (if b =? PSLSE_MEM_FAILURE then [Handle_aerror (Client.mem_access c)] else [])
  ++ (if b =? PSLSE_MEM_SUCCESS
      then [Handle_mem_return (Client.mem_access c) (Client.fd c)] else [])
  ++ (if b =? PSLSE_MMIO_MAP then [Handle_mmio_map (Client.context c)] else [])
  ++ (if b =? PSLSE_MMIO_WRITE64 then [Handle_mmio (Client.context c) 0 1] else [])
  ++ (if b =? PSLSE_MMIO_READ64 then [Handle_mmio (Client.context c) 1 1] else [])
  ++ (if b =? PSLSE_MMIO_WRITE32 then [Handle_mmio (Client.context c) 0 0] else [])
  ++ (if b =? PSLSE_MMIO_READ32 then [Handle_mmio (Client.context c) 1 0] else []).

(** The session countdown after the byte [b] was handled. *)
Definition byte_idle_cycles (env : ClientEnv.t) (b : Z) (n : Z) : Z :=
  if (b =? PSLSE_ATTACH) && attach_succeeds env then PSL_IDLE_CYCLES else n.

(** The state lines 230-241 lead to from [at_slot i p c n es]. *)
Definition counted_or_released (env : ClientEnv.t) (i : nat) (p : Psl.t)
    (c : Client.t) (n : Z) (es : list event) : Psl.t :=
  if (Client.valid c <? 0) && (Client.idle_cycles c =? 0)
  then at_slot i (free_base c p) (freed c) n (es ++ detach_events (Psl.dbg_id p) c)
  else at_slot i p (count_client env c) n (es ++ [Client_cmd i]).



(** The pass over a slot runs a successful attach. *)
Definition attaches (env : ClientEnv.t) : bool :=
  (0 <? ClientEnv.r_poll env)
  && match ClientEnv.r_get_byte env with
     | Some b => b =? PSLSE_ATTACH
     | None => false
     end
  && attach_succeeds env.

(** An iteration that finds the session IDLE and both queues empty, and in
    which no client attaches. *)
Definition quiescent (env : LoopEnv.t) : Prop :=
  LoopEnv.r_state env = PSLSE_IDLE
  ∧ LoopEnv.r_job_null env = true
  ∧ LoopEnv.r_mmio_null env = true
  ∧ ∀ i, attaches (LoopEnv.r_client env i) = false.

(** The calls made on behalf of a client, as opposed to those of the
    clocking branch of the loop. *)
Definition client_side (e : event) : bool :=
  match e with
  | Debug_context_remove _ _ | Info_disconnect _ | Warn_no_wed
  | Mutex_lock | Mutex_unlock | Close _ | Free_ip
  | Get_bytes _ _ _ | Put_bytes _ _ | Poll _ | Add_job _ _
  | Handle_mmio_done _ | Handle_aerror _ | Handle_mem_return _ _
  | Handle_mmio_map _ | Handle_mmio _ _ _ | Client_cmd _ => true
  | _ => false
  end.

(** The states the worker thread passes through.  It starts from the
    countdown [psl_init] sets, with whatever clients the table holds; the
    job subsystem writes [psl->state]; the code that accepts connections,
    which is not in psl.c, fills a slot with a client whose countdown is
    not negative; everything else is a step of [_psl_loop]. *)
Inductive reachable : Psl.t → Prop :=
  | reach_start psl :
      Psl.idle_cycles psl = PSL_IDLE_CYCLES →
      Forall (λ c, 0 ≤ Client.idle_cycles c) (Psl.client psl) →
      reachable psl
  | reach_state st psl :
      reachable psl → reachable (Psl.set_state st psl)
  | reach_accept i c psl :
      reachable psl → 0 ≤ Client.idle_cycles c →
      reachable (upd_client i (λ _, c) psl)
  | reach_head psl stopped :
      reachable psl → reachable (loop_head (psl, stopped)).1
  | reach_clock env psl stopped s :
      reachable psl → clock_phase env (psl, stopped) = inl s → reachable s.1
  | reach_break env psl stopped psl' :
      reachable psl → clock_phase env (psl, stopped) = inr psl' → reachable psl'
  | reach_attach env i psl :
      reachable psl → reachable (_attach env i psl)
  | reach_free i psl :
      reachable psl → reachable (_free i psl)
  | reach_handle_client env i psl :
      reachable psl → reachable (_handle_client env i psl)
  | reach_client_slot env i psl :
      reachable psl → reachable (client_slot env i psl).

(** The calls of [_handle_afu]. *)
Definition afu_events (cmd : bool) : list event :=
  [Handle_aux2; Handle_mmio_ack]
  ++ if cmd then [Handle_response; Handle_buffer_write; Handle_buffer_read;
                  Handle_buffer_data; Handle_touch; Handle_cmd; Handle_interrupt]
     else [].

(** The calls of the clocking branch, lines 195-212, when the transport
    reports a count [n_events >= 0]. *)
Definition clocking_events (cmd : bool) (n_events : Z) : list event :=
  [Mutex_lock; Psl_signal_afu_model; Psl_get_afu_events; Mutex_unlock]
  ++ (if 0 <? n_events then afu_events cmd else [])
  ++ [Send_job; Send_mmio].

(** The command bytes the dispatcher compares against. *)
Definition known_bytes : list Z :=
  [PSLSE_DETACH; PSLSE_ATTACH; PSLSE_MEM_FAILURE; PSLSE_MEM_SUCCESS;
   PSLSE_MMIO_MAP; PSLSE_MMIO_WRITE64; PSLSE_MMIO_READ64;
   PSLSE_MMIO_WRITE32; PSLSE_MMIO_READ32].

End Vocabulary.

(** One assignment of the constants, for closed examples: distinct command
    bytes and a countdown of twenty iterations. *)
Definition K0 : Constants := {|
  PSL_IDLE_CYCLES := 20;
  PSLSE_ATTACH := 5;
  PSLSE_DETACH := 6;
  PSLSE_MEM_FAILURE := 11;
  PSLSE_MEM_SUCCESS := 10;
  PSLSE_MMIO_MAP := 12;
  PSLSE_MMIO_WRITE64 := 14;
  PSLSE_MMIO_READ64 := 13;
  PSLSE_MMIO_WRITE32 := 16;
  PSLSE_MMIO_READ32 := 15;
  PSL_JOB_START := 144;
  PSL_RESPONSE_AERROR := 1;
  MEM_DONE := 7
|}.

(** A session with one client in slot 0. *)
Definition session_of (st : pslse_state) (idle : Z) (c : Client.t) : Psl.t :=
  Psl.mk 0 st idle true [c] ∅ ∅ [].

(** A client on descriptor 5 with the given validity and countdown. *)
Definition client_of (valid idle : Z) (mem : option ptr) : Client.t :=
  Client.mk 5 (Some "10.0.0.1"%string) valid idle mem None None 0.

(** Nothing to read on the socket, no command activity. *)
Definition silent : ClientEnv.t :=
  ClientEnv.mk None 0 None None false None 0.

(** One byte [b] is read. *)
Definition sends (b : Z) : ClientEnv.t :=
  ClientEnv.mk None 1 (Some b) None false None 0.

(** The socket is readable but the read fails. *)
Definition hangs_up (client_cmd : Z) : ClientEnv.t :=
  ClientEnv.mk None 1 None None false None client_cmd.


(** A running session whose only client is attached, with three
    iterations left on its countdown. *)
Definition one_attached : Psl.t := session_of PSLSE_RUNNING 20 (client_of 1 3 None).

(** The same session after a pass over slot 0 in which the read of the
    command byte fails while the command subsystem still reports activity
    for the slot. *)
Definition after_hang_up : Psl.t :=
  client_slot (K := K0) (hangs_up 1) 0 one_attached.

(** A client in the DETACHING state with five iterations left on its
    countdown and a memory access in flight. *)
Definition one_detaching : Psl.t :=
  session_of PSLSE_RUNNING 20 (client_of (-1) 5 (Some 7%nat)).

(** An attached client with nothing in flight whose countdown is zero. *)
Definition one_idle_client : Psl.t :=
  session_of PSLSE_RUNNING 20 (client_of 1 0 None).

(** An iteration in which the session is IDLE, the transport reports no
    event, both queues are empty and every client sends the byte [b]. *)
Definition idle_iteration (b : Z) : LoopEnv.t :=
  LoopEnv.mk PSLSE_IDLE 0 true true (λ _, sends b).

(** An idle session with one iteration left before the clock stops. *)
Definition last_clocked : loop_state :=
  (session_of PSLSE_IDLE 1 (client_of 1 0 None), false).

(** Everything [psl_init] calls succeeds, the session record is placed at
    address 1. *)
Definition all_succeed : InitEnv.t :=
  InitEnv.mk (Some 1%nat) true true true true true true true true 0.

(** As [all_succeed], but [mmio_init] returns NULL. *)
Definition mmio_init_fails : InitEnv.t :=
  InitEnv.mk (Some 1%nat) true true true true true false true true 0.

(** As [all_succeed], but [pthread_create] fails. *)
Definition pthread_create_fails : InitEnv.t :=
  InitEnv.mk (Some 1%nat) true true true true true true true true 11.

Definition empty_registry : Registry.t := Registry.mk None ∅.

(** A client with a memory access in flight (state 2, not yet done) and a
    job context (still running). *)
Definition busy_client : Client.t :=
  Client.mk 5 (Some "10.0.0.1"%string) 1 3 (Some 7%nat) None (Some 3%nat) 0.

Definition one_busy : Psl.t :=
  Psl.mk 0 PSLSE_RUNNING 20 true [busy_client]
         {[7%nat := CmdEvent.mk 2 0]} {[3%nat := Job.mk PSLSE_RUNNING]} [].

(** A DETACHING client whose countdown has run out. *)
Definition one_drained : Psl.t :=
  session_of PSLSE_RUNNING 20 (client_of (-1) 0 None).

(** ** Vocabulary of the further properties *)

Definition is_close (e : event) : bool :=
  match e with Close _ => true | _ => false end.

(** The descriptors closed among [es]. *)
Definition closes (es : list event) : list event :=
  filter (λ e, is_close e = true) es.

(** The clock edges among [es]. *)
Definition clock_edges (es : list event) : nat :=
  length (filter (λ e, e = Psl_signal_afu_model) es).

Section MoreVocabulary.
Context `{K : Constants}.

(** An iteration that finds the session IDLE and can clock: the transport
    reports no error and no client attaches. *)
Definition clockable (env : LoopEnv.t) : Prop :=
  LoopEnv.r_state env = PSLSE_IDLE
  ∧ 0 ≤ LoopEnv.r_event env
  ∧ ∀ i, attaches (LoopEnv.r_client env i) = false.

(** Work is outstanding at line 214. *)
Definition outstanding (env : LoopEnv.t) : Prop :=
  LoopEnv.r_job_null env && LoopEnv.r_mmio_null env = false.

(** Lines 181-251: the loop, left by [PSLSE_DONE] or by a transport error,
    and the closing of the sockets that follows.  [None]: the loop is still
    running when the iterations described by [envs] are used up. *)
Fixpoint _psl_loop (envs : list LoopEnv.t) (s : loop_state) : option Psl.t :=
  match envs with
  | [] => None
  | env :: envs =>
      match iteration env s with
      | Continue s => _psl_loop envs s
      | Break psl => Some (disconnect_clients psl)
      | Exit psl => Some (disconnect_clients psl)
      end
  end.

(** The session countdown and the number of clock edges after the
    iterations [envs] of an IDLE session, from the countdown [c]. *)
Fixpoint countdown_after (envs : list LoopEnv.t) (c : Z) : Z :=
  match envs with
  | [] => c
  | env :: envs =>
      countdown_after envs
        (if bool_decide (c = 0) then 0
         else if LoopEnv.r_job_null env && LoopEnv.r_mmio_null env
              then int_dec c else c)
  end.

Fixpoint edges_after (envs : list LoopEnv.t) (c : Z) : nat :=
  match envs with
  | [] => 0
  | env :: envs =>
      if bool_decide (c = 0) then 0%nat
      else S (edges_after envs
                (if LoopEnv.r_job_null env && LoopEnv.r_mmio_null env
                 then int_dec c else c))
  end.

(** Every countdown is between zero and the configured maximum. *)
Definition countdowns_within (psl : Psl.t) : Prop :=
  0 ≤ Psl.idle_cycles psl ≤ PSL_IDLE_CYCLES
  ∧ Forall (λ c, 0 ≤ Client.idle_cycles c ≤ PSL_IDLE_CYCLES) (Psl.client psl).

End MoreVocabulary.

(** The log of [psl_init] frees and destroys only what is held at that
    point, and acquires only what is not. *)
Fixpoint balanced (env : InitEnv.t) (held : list resource)
    (log : list init_event) : bool :=
  match log with
  | [] => true
  | e :: log =>
      forallb (λ r, bool_decide (r ∈ held)) (releases e)
      && forallb (λ r, bool_decide (r ∉ held)) (acquires e env)
      && balanced env (list_difference held (releases e) ++ acquires e env) log
  end.

(** ** The end of the worker thread *)

(** Which of the pointers tested in lines 259-282 are non-NULL when the
    worker leaves its loop, and whether [psl->head] points to the head of
    the registry or is NULL. *)
Module Owned.
Record t := mk {
  client : bool;
  cmd : bool;
  job : bool;
  mmio : bool;
  host : bool;
  afu_event : bool;
  name : bool;
  head : bool
}.
End Owned.

(** What lines 253-285 call and give back. *)
Inductive teardown_event :=
  | T_debug_afu_drop (dbg_id : Z)
  | T_info_disconnected
  | T_mutex_destroy (l : resource)
  | T_free_client_table
  | T_free (r : resource)
  | T_pthread_exit.

Definition set_next (n : option ptr) (s : Session.t) : Session.t :=
  Session.mk (Session.name s) (Session.host s) (Session.port s)
             (Session.dbg_id s) (Session.idle_cycles s) (Session._prev s) n.

(** Lines 261-264: the neighbours of the session [s] are linked to each
    other. *)
Definition unlink (s : Session.t) (sessions : gmap ptr Session.t)
    : gmap ptr Session.t :=
  let sessions :=
    match Session._prev s with
    | Some q => alter (set_next (Session._next s)) q sessions
    | None => sessions
    end in
  match Session._next s with
  | Some q => alter (Session.set_prev (Session._prev s)) q sessions
  | None => sessions
  end.

(** Lines 253-285 for the session at address [self].  [None]: [self] is
    not the address of a session record, or [psl->head] is NULL where line
    283 dereferences it. *)
Definition teardown (o : Owned.t) (self : ptr) (reg : Registry.t)
    : option (Registry.t * list teardown_event) :=
  match Registry.sessions reg !! self with
  | None => None
  | Some s =>
      let log :=
        [T_debug_afu_drop (Session.dbg_id s); T_info_disconnected;
         T_mutex_destroy L_psl]
        ++ (if Owned.client o then [T_free_client_table] else [])
        ++ (if Owned.cmd o then [T_mutex_destroy L_cmd; T_free R_cmd] else [])
        ++ (if Owned.job o then [T_mutex_destroy L_job; T_free R_job] else [])
        ++ (if Owned.mmio o then [T_mutex_destroy L_mmio; T_free R_mmio] else [])
        ++ (if Owned.host o then [T_free R_host] else [])
        ++ (if Owned.afu_event o then [T_free R_afu_event] else [])
        ++ (if Owned.name o then [T_free R_name] else []) in
      let sessions := unlink s (Registry.sessions reg) in
      if Owned.head o then
        let head :=
          if decide (Registry.head reg = Some self) then Session._next s
          else Registry.head reg in
        Some (Registry.mk head sessions, log ++ [T_pthread_exit])
      else None
  end.

(** What the log of the teardown gives back. *)
Definition given_back (log : list teardown_event) : list resource :=
  log ≫= λ e, match e with
              | T_mutex_destroy l => [l]
              | T_free r => [r]
              | _ => []
              end.

(** The pointers of a session that [psl_init] created: everything it
    allocated is still there; the client table, which other code
    allocates, may or may not be. *)
Definition owned_after_init (client_table head : bool) : Owned.t :=
  Owned.mk client_table true true true true true true head.

(** The sessions [l], in this order, are linked from [first] by [_next],
    each pointing back by [_prev], the first of them to [prev]. *)
Fixpoint chain (sessions : gmap ptr Session.t) (prev first : option ptr)
    (l : list ptr) : Prop :=
  match l with
  | [] => first = None
  | x :: l =>
      first = Some x
      ∧ ∃ s, sessions !! x = Some s
             ∧ Session._prev s = prev
             ∧ chain sessions (Some x) (Session._next s) l
  end.

(** The registry is the doubly linked list of the sessions [l]. *)
Definition registry_list (reg : Registry.t) (l : list ptr) : Prop :=
  NoDup l ∧ chain (Registry.sessions reg) None (Registry.head reg) l.


(** ** Orderings of the calls *)

(** Reading the calls [es] with a two-state automaton from the state [b]:
    the state it ends in, or [None] when it refuses one of the calls. *)
Fixpoint walk (step : bool → event → option bool) (b : bool)
    (es : list event) : option bool :=
  match es with
  | [] => Some b
  | e :: es =>
      match step b e with
      | Some b' => walk step b' es
      | None => None
      end
  end.

(** The calls made from [psl] to [psl'] take the automaton from [b] to
    [b']. *)
Definition walks (step : bool → event → option bool)
    (b : bool) (psl : Psl.t) (b' : bool) (psl' : Psl.t) : Prop :=
  ∃ es, Psl.trace psl' = Psl.trace psl ++ es ∧ walk step b es = Some b'.

(** The session lock, by whether the worker holds it: it is locked only
    when not held and unlocked only when held.  Only the calls of psl.c
    are in the trace; what [handle_mem_return], which is handed the lock,
    does with it is not. *)
Definition lock_step (held : bool) (e : event) : option bool :=
  match e with
  | Mutex_lock => if held then None else Some true
  | Mutex_unlock => if held then Some false else None
  | _ => Some held
  end.

(** The two messages about the clock, by the value of [stopped]:
    "Clocking" is logged only when the clock was stopped, "Stopping clocks"
    only when it was running. *)
Definition clock_message_step (stopped : bool) (e : event) : option bool :=
  match e with
  | Info_clocking => if stopped then Some false else None
  | Info_stopping => if stopped then None else Some true
  | _ => Some stopped
  end.

(** ** Concrete sessions for the further properties *)

(** An attached client in slot 0 and a busy one in slot 1. *)
Definition two_clients : Psl.t :=
  Psl.mk 0 PSLSE_RUNNING 20 true [client_of 1 0 None; busy_client] ∅ ∅ [].

(** A table whose only slot is INVALID. *)
Definition no_client : Psl.t := session_of PSLSE_RUNNING 20 (client_of 0 0 None).

(** An iteration of an IDLE session with a job still queued and silent
    clients. *)
Definition busy_iteration : LoopEnv.t :=
  LoopEnv.mk PSLSE_IDLE 0 false true (λ _, silent).

(** An iteration in which the transport reports an error. *)
Definition transport_fails (st : pslse_state) : LoopEnv.t :=
  LoopEnv.mk st (-1) true true (λ _, silent).

(** A client that sends ATTACH and then the eight bytes 01 02 00 .. 00. *)
Definition wed_bytes : ClientEnv.t :=
  ClientEnv.mk None 1 (Some 5) (Some [1; 2; 0; 0; 0; 0; 0; 0]) true None 0.

(** As [all_succeed], with the session record placed at address 2. *)
Definition second_block : InitEnv.t :=
  InitEnv.mk (Some 2%nat) true true true true true true true true 0.

(** The registry with the one session afu0.0 at address 1. *)
Definition one_session : Registry.t :=
  Registry.mk (Some 1%nat)
    {[1%nat := Session.mk "afu0.0" "localhost" 12345 0 20 None None]}.

(** The registry with afu0.1 at address 2 in front of afu0.0 at address 1. *)
Definition two_sessions : Registry.t :=
  Registry.mk (Some 2%nat)
    (<[2%nat := Session.mk "afu0.1" "localhost" 12345 1 20 None (Some 1%nat)]>
       {[1%nat := Session.mk "afu0.0" "localhost" 12345 0 20 (Some 2%nat) None]}).



(** An IDLE session whose clock has stopped. *)
Definition stopped_session : Psl.t :=
  session_of PSLSE_IDLE 0 (client_of 1 0 None).


(** ** Basic facts about the state operations *)

Section Facts.
Context `{K : Constants}.

Lemma int_dec_eq n : n ≠ -2147483648 → int_dec n = n - 1.
Proof. intros H. unfold int_dec. by rewrite (proj2 (Z.eqb_neq _ _) H). Qed.

Lemma extends_refl P psl : extends P psl psl.
Proof. exists []. by rewrite app_nil_r. Qed.

Lemma extends_trans P a b c : extends P a b → extends P b c → extends P a c.
Proof.
  intros (es1 & H1 & F1) (es2 & H2 & F2). exists (es1 ++ es2).
  rewrite H2, H1, app_assoc. split; [done | apply Forall_app; by split].
Qed.

Lemma extends_emit P es psl : Forall P es → extends P psl (emit es psl).
Proof. intros. by exists es. Qed.

Lemma extends_same_trace P psl psl' :
  Psl.trace psl' = Psl.trace psl → extends P psl psl'.
Proof. intros E. exists []. by rewrite E, app_nil_r. Qed.

Lemma extends_new_events P psl psl' :
  extends P psl psl' →
  Psl.trace psl' = Psl.trace psl ++ new_events psl psl'
  ∧ Forall P (new_events psl psl').
Proof.
  intros (es & E & F). unfold new_events.
  by rewrite E, drop_app_length.
Qed.

Lemma new_events_app psl psl' es :
  Psl.trace psl' = Psl.trace psl ++ es → new_events psl psl' = es.
Proof. intros E. unfold new_events. by rewrite E, drop_app_length. Qed.

Lemma upd_client_trace i f psl : Psl.trace (upd_client i f psl) = Psl.trace psl.
Proof. unfold upd_client. by destruct (_ !! _). Qed.

Lemma upd_client_idle_cycles i f psl :
  Psl.idle_cycles (upd_client i f psl) = Psl.idle_cycles psl.
Proof. unfold upd_client. by destruct (_ !! _). Qed.

Lemma upd_client_cmd_events i f psl :
  Psl.cmd_events (upd_client i f psl) = Psl.cmd_events psl.
Proof. unfold upd_client. by destruct (_ !! _). Qed.

Lemma upd_client_dbg_id i f psl : Psl.dbg_id (upd_client i f psl) = Psl.dbg_id psl.
Proof. unfold upd_client. by destruct (_ !! _). Qed.

Lemma upd_client_state i f psl : Psl.state (upd_client i f psl) = Psl.state psl.
Proof. unfold upd_client. by destruct (_ !! _). Qed.

Lemma upd_client_cmd i f psl : Psl.cmd (upd_client i f psl) = Psl.cmd psl.
Proof. unfold upd_client. by destruct (_ !! _). Qed.

Lemma psl_eq (a b : Psl.t) :
  Psl.dbg_id a = Psl.dbg_id b → Psl.state a = Psl.state b →
  Psl.idle_cycles a = Psl.idle_cycles b → Psl.cmd a = Psl.cmd b →
  Psl.client a = Psl.client b → Psl.cmd_events a = Psl.cmd_events b →
  Psl.jobs a = Psl.jobs b → Psl.trace a = Psl.trace b → a = b.
Proof. destruct a, b. simpl. by intros -> -> -> -> -> -> -> ->. Qed.

Lemma forget_trace_eq (a b : Psl.t) :
  Psl.dbg_id a = Psl.dbg_id b → Psl.state a = Psl.state b →
  Psl.idle_cycles a = Psl.idle_cycles b → Psl.cmd a = Psl.cmd b →
  Psl.client a = Psl.client b → Psl.cmd_events a = Psl.cmd_events b →
  Psl.jobs a = Psl.jobs b → forget_trace a = forget_trace b.
Proof. destruct a, b. simpl. by intros -> -> -> -> -> -> ->. Qed.

Lemma upd_client_jobs i f psl : Psl.jobs (upd_client i f psl) = Psl.jobs psl.
Proof. unfold upd_client. by destruct (_ !! _). Qed.

Lemma upd_client_length i f psl :
  length (Psl.client (upd_client i f psl)) = length (Psl.client psl).
Proof.
  unfold upd_client. destruct (_ !! _); [|done]. simpl. apply length_insert.
Qed.

Lemma upd_client_lookup i f psl c :
  Psl.client psl !! i = Some c →
  Psl.client (upd_client i f psl) !! i = Some (f c).
Proof.
  intros E. unfold upd_client. rewrite E. simpl.
  apply list_lookup_insert_eq. by eapply lookup_lt_Some.
Qed.

Lemma upd_client_lookup_ne i j f psl :
  i ≠ j → Psl.client (upd_client i f psl) !! j = Psl.client psl !! j.
Proof.
  intros. unfold upd_client. destruct (_ !! i); [|done]. simpl.
  by apply list_lookup_insert_ne.
Qed.

Lemma upd_client_client_eq i f psl psl' :
  Psl.client psl = Psl.client psl' →
  Psl.client (upd_client i f psl) = Psl.client (upd_client i f psl').
Proof. intros E. unfold upd_client. rewrite E. by destruct (_ !! _). Qed.

Lemma client_at_lookup i psl c :
  Psl.client psl !! i = Some c → client_at i psl = c.
Proof. unfold client_at. by intros ->. Qed.

(** A field that [f] leaves alone reads the same after the update, in
    every slot. *)
Lemma upd_client_proj {A} (proj : Client.t → A) i j f psl :
  (∀ c, proj (f c) = proj c) →
  proj (client_at i (upd_client j f psl)) = proj (client_at i psl).
Proof.
  intros Hf. unfold client_at. destruct (decide (j = i)) as [->|Hne].
  - destruct (Psl.client psl !! i) as [c|] eqn:E.
    + rewrite (upd_client_lookup _ _ _ _ E). simpl. apply Hf.
    + unfold upd_client. rewrite E. simpl. by rewrite E.
  - by rewrite upd_client_lookup_ne.
Qed.

Lemma upd_client_Forall (P : Client.t → Prop) i f psl :
  (∀ c, P c → P (f c)) →
  Forall P (Psl.client psl) → Forall P (Psl.client (upd_client i f psl)).
Proof.
  intros Hf HP. unfold upd_client.
  destruct (Psl.client psl !! i) as [c|] eqn:E; [|done]. simpl.
  apply Forall_insert; [done|]. apply Hf.
  by eapply Forall_lookup_1.
Qed.

End Facts.

(** ** The attach procedure *)

Section Attach.
Context `{K : Constants}.

Lemma attach_client env i psl : Psl.client (_attach env i psl) = Psl.client psl.
Proof. unfold _attach. by repeat case_match. Qed.

Lemma attach_cmd_events env i psl :
  Psl.cmd_events (_attach env i psl) = Psl.cmd_events psl.
Proof. unfold _attach. by repeat case_match. Qed.

Lemma attach_jobs env i psl : Psl.jobs (_attach env i psl) = Psl.jobs psl.
Proof. unfold _attach. by repeat case_match. Qed.

Lemma attach_idle_cycles env i psl :
  Psl.idle_cycles (_attach env i psl)
  = if attach_succeeds env then PSL_IDLE_CYCLES else Psl.idle_cycles psl.
Proof. unfold _attach, attach_succeeds. by repeat case_match. Qed.

Lemma attach_trace env i psl :
  Psl.trace (_attach env i psl)
  = Psl.trace psl ++ attach_events env (Client.fd (client_at i psl)).
Proof.
  unfold _attach, attach_events.
  repeat case_match; simpl; by rewrite <- ?app_assoc.
Qed.

Lemma attach_extends (P : event → Prop) env i psl :
  (∀ fd n t, P (Get_bytes fd n t)) → P Warn_no_wed →
  (∀ fd bs, P (Put_bytes fd bs)) → (∀ c w, P (Add_job c w)) →
  extends P psl (_attach env i psl).
Proof.
  intros. eexists. split; [apply attach_trace|].
  unfold attach_events. case_match; repeat constructor; auto.
Qed.

(** C3. Every run of the attach procedure writes exactly one byte to the
    client: ATTACH when the eight-byte read succeeds and the job subsystem
    accepts the start, in which case the session countdown is set to
    PSL_IDLE_CYCLES and nothing else changes; DETACH otherwise, and then the
    session is left as it was. *)
Theorem attach_one_acknowledgement env i psl :
  let fd := Client.fd (client_at i psl) in
  let ack := if attach_succeeds env then PSLSE_ATTACH else PSLSE_DETACH in
  puts (new_events psl (_attach env i psl)) = [Put_bytes fd [ack]]
  ∧ forget_trace (_attach env i psl)
    = forget_trace (if attach_succeeds env
                    then Psl.set_idle_cycles PSL_IDLE_CYCLES psl else psl).
Proof.
  simpl. split.
  - rewrite (new_events_app _ _ _ (attach_trace env i psl)).
    unfold attach_events, attach_succeeds.
    destruct (ClientEnv.r_get_wed env); [destruct (ClientEnv.r_add_job env)|];
      reflexivity.
  - unfold _attach, attach_succeeds.
    destruct (ClientEnv.r_get_wed env); [destruct (ClientEnv.r_add_job env)|];
      reflexivity.
Qed.

End Attach.

(** ** Client release *)

Section Free.
Context `{K : Constants}.

Lemma free_idle_cycles i psl : Psl.idle_cycles (_free i psl) = Psl.idle_cycles psl.
Proof.
  unfold _free. simpl. rewrite upd_client_idle_cycles. by repeat case_match.
Qed.

Lemma free_trace i psl :
  Psl.trace (_free i psl)
  = Psl.trace psl ++ free_events (Psl.dbg_id psl) (client_at i psl).
Proof.
  unfold _free, free_events. simpl. rewrite upd_client_trace.
  repeat case_match; simpl; by rewrite <- ?app_assoc.
Qed.

Lemma free_cmd_events i psl :
  Psl.cmd_events (_free i psl)
  = match Client.mem_access (client_at i psl) with
    | Some h => alter force_done h (Psl.cmd_events psl)
    | None => Psl.cmd_events psl
    end.
Proof.
  unfold _free. simpl. rewrite upd_client_cmd_events. by repeat case_match.
Qed.

Lemma free_jobs i psl :
  Psl.jobs (_free i psl)
  = match Client.job (client_at i psl) with
    | Some j => alter (λ _, Job.mk PSLSE_DONE) j (Psl.jobs psl)
    | None => Psl.jobs psl
    end.
Proof.
  unfold _free. simpl. rewrite upd_client_jobs. by repeat case_match.
Qed.

Lemma free_client i psl :
  Psl.client (_free i psl) = Psl.client (upd_client i freed psl).
Proof.
  unfold _free. simpl. apply upd_client_client_eq.
  by repeat case_match.
Qed.

Lemma free_lookup i psl c :
  Psl.client psl !! i = Some c → Psl.client (_free i psl) !! i = Some (freed c).
Proof. intros. rewrite free_client. by apply upd_client_lookup. Qed.

Lemma free_lookup_ne i j psl :
  i ≠ j → Psl.client (_free i psl) !! j = Psl.client psl !! j.
Proof. intros. rewrite free_client. by apply upd_client_lookup_ne. Qed.

Lemma free_length i psl :
  length (Psl.client (_free i psl)) = length (Psl.client psl).
Proof. rewrite free_client. apply upd_client_length. Qed.

Lemma free_extends (P : event → Prop) i psl :
  (∀ d c, P (Debug_context_remove d c)) → (∀ c, P (Info_disconnect c)) →
  P Mutex_lock → P Mutex_unlock → (∀ fd, P (Close fd)) → P Free_ip →
  extends P psl (_free i psl).
Proof.
  intros. eexists. split; [apply free_trace|].
  unfold free_events. case_match; repeat constructor; auto.
Qed.

Lemma free_dbg_id i psl : Psl.dbg_id (_free i psl) = Psl.dbg_id psl.
Proof. unfold _free. simpl. rewrite upd_client_dbg_id. by repeat case_match. Qed.

Lemma free_state i psl : Psl.state (_free i psl) = Psl.state psl.
Proof. unfold _free. simpl. rewrite upd_client_state. by repeat case_match. Qed.

Lemma free_cmd i psl : Psl.cmd (_free i psl) = Psl.cmd psl.
Proof. unfold _free. simpl. rewrite upd_client_cmd. by repeat case_match. Qed.

Lemma free_client_at i psl c :
  Psl.client psl !! i = Some c → client_at i (_free i psl) = freed c.
Proof. intros. by apply client_at_lookup, free_lookup. Qed.

Lemma free_none i psl :
  Psl.client psl !! i = None → Psl.client (_free i psl) = Psl.client psl.
Proof. intros E. rewrite free_client. unfold upd_client. by rewrite E. Qed.

(** Releasing twice is releasing once. *)
Lemma free_idempotent i psl :
  forget_trace (_free i (_free i psl)) = forget_trace (_free i psl).
Proof.
  apply forget_trace_eq.
  - by rewrite !free_dbg_id.
  - by rewrite !free_state.
  - by rewrite !free_idle_cycles.
  - by rewrite !free_cmd.
  - rewrite (free_client i (_free i psl)), (free_client i psl).
    unfold upd_client.
    destruct (Psl.client psl !! i) as [c|] eqn:E.
    + rewrite (free_lookup _ _ _ E).
      change (Psl.client (Psl.set_client ?l _)) with l.
      rewrite free_client. unfold upd_client. rewrite E.
      change (Psl.client (Psl.set_client ?l _)) with l.
      by rewrite list_insert_insert_eq.
    + rewrite (free_none _ _ E), E. by apply free_none.
  - rewrite (free_cmd_events i (_free i psl)).
    destruct (Psl.client psl !! i) as [c|] eqn:E.
    + by rewrite (free_client_at _ _ _ E).
    + unfold client_at at 1. by rewrite (free_none _ _ E), E.
  - rewrite (free_jobs i (_free i psl)), (free_jobs i psl).
    destruct (Psl.client psl !! i) as [c|] eqn:E.
    + rewrite (free_client_at _ _ _ E), (client_at_lookup _ _ _ E). simpl.
      destruct (Client.job c); [|done].
      by rewrite alter_alter_eq.
    + unfold client_at. by rewrite (free_none _ _ E), E.
Qed.

(** C6, as amended.  Release is idempotent: a second release changes
    nothing but the trace.  On a client that is already INVALID (descriptor
    closed, no address string, no access in flight) it leaves the record as
    it is except for the idle countdown, which it sets to zero; so the
    record is unchanged whenever the countdown was zero.  On a client whose
    memory access in flight is not DONE it sets the response of that access
    to the address error and its state to DONE, and clears the reference. *)
Theorem free_idempotent_and_safe i psl c :
  Psl.client psl !! i = Some c →
  forget_trace (_free i (_free i psl)) = forget_trace (_free i psl)
  ∧ (already_invalid c →
       Psl.client (_free i psl) !! i = Some (Client.set_idle_cycles 0 c)
       ∧ Psl.cmd_events (_free i psl) = Psl.cmd_events psl
       ∧ (Client.idle_cycles c = 0 → Psl.client (_free i psl) = Psl.client psl))
  ∧ (∀ h ev,
       Client.mem_access c = Some h →
       Psl.cmd_events psl !! h = Some ev →
       CmdEvent.state ev ≠ MEM_DONE →
       Psl.cmd_events (_free i psl) !! h
         = Some (CmdEvent.mk MEM_DONE PSL_RESPONSE_AERROR)
       ∧ Client.mem_access (client_at i (_free i psl)) = None).
Proof.
  intros Hc. split; [apply free_idempotent|]. split.
  - intros (Hv & Hfd & Hip & Hmem & Hmmio).
    assert (freed c = Client.set_idle_cycles 0 c) as Hfreed.
    { destruct c; simpl in *; subst. reflexivity. }
    split; [|split].
    + by rewrite (free_lookup _ _ _ Hc), Hfreed.
    + by rewrite free_cmd_events, (client_at_lookup _ _ _ Hc), Hmem.
    + intros Hidle. rewrite free_client. unfold upd_client. rewrite Hc. simpl.
      apply list_insert_id. rewrite Hc, Hfreed. f_equal.
      destruct c; simpl in *; by subst.
  - intros h ev Hmem Hev Hne. split.
    + rewrite free_cmd_events, (client_at_lookup _ _ _ Hc), Hmem.
      rewrite lookup_alter_eq, Hev. simpl. unfold force_done.
      by rewrite decide_True.
    + by rewrite (free_client_at _ _ _ Hc).
Qed.

(** C6 as stated fails: after a failed read released slot 0 while the
    command subsystem still reported activity for it, the slot is INVALID
    with its descriptor closed, no address string and no access in flight,
    and yet release changes the record, whose countdown goes from 20 to 0. *)
Lemma free_changes_invalid_client :
  client_at 0 after_hang_up = Client.mk (-1) None 0 20 None None None 0
  ∧ client_at 0 (_free (K := K0) 0 after_hang_up)
    = Client.mk (-1) None 0 0 None None None 0.
Proof. split; reflexivity. Qed.

(** C10. When the client's back-reference to a job context is set, release
    puts that context into the DONE state. *)
Theorem free_ends_job i psl c j r :
  Psl.client psl !! i = Some c →
  Client.job c = Some j →
  Psl.jobs psl !! j = Some r →
  Job.state <$> Psl.jobs (_free i psl) !! j = Some PSLSE_DONE.
Proof.
  intros Hc Hj Hr. rewrite free_jobs, (client_at_lookup _ _ _ Hc), Hj.
  rewrite lookup_alter_eq, Hr. done.
Qed.

End Free.

(** ** The dispatcher, slot by slot *)

Section Dispatcher.
Context `{K : Constants}.

Lemma at_slot_init i psl c :
  Psl.client psl !! i = Some c →
  psl = at_slot i psl c (Psl.idle_cycles psl) [].
Proof.
  intros E. unfold at_slot. rewrite app_nil_r, list_insert_id by done.
  by destruct psl.
Qed.

Section Slot.
Variables (i : nat) (p : Psl.t).
Hypothesis in_range : (i < length (Psl.client p))%nat.

Lemma at_slot_lookup c n es : Psl.client (at_slot i p c n es) !! i = Some c.
Proof. simpl. by apply list_lookup_insert_eq. Qed.

Lemma at_slot_client_at c n es : client_at i (at_slot i p c n es) = c.
Proof. apply client_at_lookup, at_slot_lookup. Qed.

Lemma at_slot_emit c n es es' :
  emit es' (at_slot i p c n es) = at_slot i p c n (es ++ es').
Proof. unfold emit, at_slot. simpl. by rewrite app_assoc. Qed.

Lemma at_slot_upd f c n es :
  upd_client i f (at_slot i p c n es) = at_slot i p (f c) n es.
Proof.
  unfold upd_client. rewrite at_slot_lookup. unfold at_slot. simpl.
  by rewrite list_insert_insert_eq.
Qed.

Lemma at_slot_attach env c n es :
  _attach env i (at_slot i p c n es)
  = at_slot i p c (if attach_succeeds env then PSL_IDLE_CYCLES else n)
            (es ++ attach_events env (Client.fd c)).
Proof.
  unfold _attach, attach_succeeds, attach_events.
  rewrite at_slot_client_at.
  destruct (ClientEnv.r_get_wed env); [destruct (ClientEnv.r_add_job env)|];
    unfold emit, at_slot; simpl; by rewrite <- !app_assoc.
Qed.

Lemma at_slot_free c n es :
  _free i (at_slot i p c n es)
  = at_slot i (free_base c p) (freed c) n (es ++ free_events (Psl.dbg_id p) c).
Proof.
  apply psl_eq.
  - by rewrite free_dbg_id.
  - by rewrite free_state.
  - by rewrite free_idle_cycles.
  - by rewrite free_cmd.
  - rewrite free_client, at_slot_upd. done.
  - by rewrite free_cmd_events, at_slot_client_at.
  - by rewrite free_jobs, at_slot_client_at.
  - rewrite free_trace, at_slot_client_at. simpl. by rewrite app_assoc.
Qed.

(** The steps of lines 140-164, one [if] at a time. *)
Lemma when_upd t f c n es :
  when t (upd_client i f) (at_slot i p c n es) = at_slot i p (when t f c) n es.
Proof. destruct t; simpl; [apply at_slot_upd | done]. Qed.

Lemma when_attach t env c n es :
  when t (_attach env i) (at_slot i p c n es)
  = at_slot i p c (if t && attach_succeeds env then PSL_IDLE_CYCLES else n)
            (es ++ if t then attach_events env (Client.fd c) else []).
Proof. destruct t; simpl; [apply at_slot_attach | by rewrite app_nil_r]. Qed.

Lemma when_emit_upd t (e : Psl.t → event) f c n es :
  when t (λ psl, upd_client i f (emit [e psl] psl)) (at_slot i p c n es)
  = at_slot i p (when t f c) n
            (es ++ if t then [e (at_slot i p c n es)] else []).
Proof.
  destruct t; simpl; [|by rewrite app_nil_r].
  by rewrite at_slot_emit, at_slot_upd.
Qed.

Lemma when_emit t (e : Psl.t → event) c n es :
  when t (λ psl, emit [e psl] psl) (at_slot i p c n es)
  = at_slot i p c n (es ++ if t then [e (at_slot i p c n es)] else []).
Proof.
  destruct t; simpl; [|by rewrite app_nil_r]. by rewrite at_slot_emit.
Qed.

Lemma when_mmio t env rnw dw c n es m :
  when t (mmio_branch env i rnw dw) (at_slot i p c n es, m)
  = (at_slot i p c n
       (es ++ if t then [Handle_mmio (Client.context c) rnw dw] else []),
     if t then ClientEnv.r_handle_mmio env else m).
Proof.
  destruct t; simpl; [|by rewrite app_nil_r].
  unfold mmio_branch. simpl. by rewrite at_slot_client_at, at_slot_emit.
Qed.

Lemma when_proj {A} (proj : Client.t → A) t f c :
  (∀ c, proj (f c) = proj c) → proj (when t f c) = proj c.
Proof. intros. destruct t; simpl; auto. Qed.

Lemma mmio_done_client_fd env c : Client.fd (mmio_done_client env c) = Client.fd c.
Proof. unfold mmio_done_client. by destruct (Client.mmio_access c). Qed.

Lemma mmio_done_client_mem_access env c :
  Client.mem_access (mmio_done_client env c) = Client.mem_access c.
Proof. unfold mmio_done_client. by destruct (Client.mmio_access c). Qed.

Lemma mmio_done_client_context env c :
  Client.context (mmio_done_client env c) = Client.context c.
Proof. unfold mmio_done_client. by destruct (Client.mmio_access c). Qed.

(** Lines 124-127. *)
Lemma at_slot_mmio_done env c n es :
  match Client.mmio_access (client_at i (at_slot i p c n es)) with
  | Some _ =>
      let psl := upd_client i (Client.set_idle_cycles PSL_IDLE_CYCLES)
                   (at_slot i p c n es) in
      let psl := emit [Handle_mmio_done (Client.context (client_at i psl))] psl in
      upd_client i (Client.set_mmio_access (ClientEnv.r_handle_mmio_done env)) psl
  | None => at_slot i p c n es
  end = at_slot i p (mmio_done_client env c) n (es ++ mmio_done_events c).
Proof.
  rewrite at_slot_client_at. unfold mmio_done_client, mmio_done_events.
  destruct (Client.mmio_access c); [|by rewrite app_nil_r].
  cbv zeta. by rewrite !at_slot_upd, at_slot_client_at, at_slot_emit, at_slot_upd.
Qed.

(** [_handle_client] in closed form. *)
Lemma handle_client_at_slot env c n es :
  _handle_client env i (at_slot i p c n es)
  = let c1 := mmio_done_client env c in
    let es1 := es ++ mmio_done_events c ++ [Poll (Client.fd c)] in
    if 0 <? ClientEnv.r_poll env then
      match ClientEnv.r_get_byte env with
      | None => _free i (at_slot i p c1 n (es1 ++ [Get_bytes (Client.fd c) 1 1]))
      | Some b =>
          at_slot i p (byte_client env b c1) (byte_idle_cycles env b n)
                  (es1 ++ [Get_bytes (Client.fd c) 1 1] ++ byte_events env b c1)
      end
    else at_slot i p c1 n es1.
Proof.
  unfold _handle_client. rewrite at_slot_mmio_done.
  rewrite !at_slot_client_at, !at_slot_emit.
  cbv zeta. rewrite mmio_done_client_fd.
  destruct (0 <? ClientEnv.r_poll env); [|by rewrite <- app_assoc].
  destruct (ClientEnv.r_get_byte env) as [b|]; [|by rewrite <- !app_assoc].
  rewrite when_upd, when_attach, when_emit_upd.
  rewrite (when_emit_upd _ (λ psl, Handle_mem_return _ (Client.fd (client_at i psl)))).
  rewrite (when_emit _ (λ psl, Handle_mmio_map (Client.context (client_at i psl)))).
  rewrite !when_mmio, !at_slot_client_at.
  rewrite !(when_proj Client.fd), !(when_proj Client.context) by done.
  rewrite mmio_done_client_fd, mmio_done_client_context, mmio_done_client_mem_access.
  change (if b =? PSLSE_MMIO_READ32 then ClientEnv.r_handle_mmio env else _)
    with (byte_mmio env b).
  assert (∀ (c' : Client.t) n' es',
    upd_client i (Client.set_idle_cycles PSL_IDLE_CYCLES)
      match byte_mmio env b with
      | Some m => upd_client i (Client.set_mmio_access (Some m)) (at_slot i p c' n' es')
      | None => at_slot i p c' n' es'
      end
    = at_slot i p
        (Client.set_idle_cycles PSL_IDLE_CYCLES
           match byte_mmio env b with
           | Some m => Client.set_mmio_access (Some m) c'
           | None => c'
           end) n' es') as ->.
  { intros. destruct (byte_mmio env b); by rewrite !at_slot_upd. }
  unfold byte_client, byte_idle_cycles, byte_events.
  rewrite mmio_done_client_fd, mmio_done_client_context, mmio_done_client_mem_access.
  cbv zeta. f_equal. by rewrite <- !app_assoc.
Qed.

(** Lines 230-241 in closed form. *)
Lemma detach_or_count_at_slot env c n es :
  detach_or_count env i (at_slot i p c n es)
  = counted_or_released env i p c n es.
Proof.
  unfold detach_or_count, counted_or_released. rewrite at_slot_client_at.
  destruct (_ && _).
  - cbv zeta. rewrite at_slot_emit, ?at_slot_client_at, at_slot_free.
    unfold detach_events. by rewrite <- app_assoc.
  - cbv zeta. rewrite when_upd, at_slot_emit, when_upd. done.
Qed.

End Slot.

Lemma client_slot_unfold env i psl :
  client_slot env i psl
  = if Client.valid (client_at i psl) =? 0 then psl
    else detach_or_count env i (_handle_client env i psl).
Proof. reflexivity. Qed.

(** The body of the loop over the slots in closed form. *)
Lemma client_slot_at_slot env i p c n es :
  (i < length (Psl.client p))%nat →
  client_slot env i (at_slot i p c n es)
  = if Client.valid c =? 0 then at_slot i p c n es
    else
      let c1 := mmio_done_client env c in
      let es1 := es ++ mmio_done_events c ++ [Poll (Client.fd c)] in
      if 0 <? ClientEnv.r_poll env then
        match ClientEnv.r_get_byte env with
        | None =>
            at_slot i (free_base c1 p) (count_client env (freed c1)) n
                    (es1 ++ [Get_bytes (Client.fd c) 1 1]
                         ++ free_events (Psl.dbg_id p) c1 ++ [Client_cmd i])
        | Some b =>
            counted_or_released env i p (byte_client env b c1)
              (byte_idle_cycles env b n)
              (es1 ++ [Get_bytes (Client.fd c) 1 1] ++ byte_events env b c1)
        end
      else counted_or_released env i p c1 n es1.
Proof.
  intros Hlt. rewrite client_slot_unfold, at_slot_client_at by done.
  destruct (Client.valid c =? 0); [done|].
  rewrite handle_client_at_slot by done. cbv zeta.
  destruct (0 <? ClientEnv.r_poll env).
  - destruct (ClientEnv.r_get_byte env) as [b|].
    + by apply detach_or_count_at_slot.
    + rewrite at_slot_free by done.
      rewrite detach_or_count_at_slot by done.
      unfold counted_or_released. cbn [Client.valid freed Z.ltb Z.compare andb].
      f_equal. by rewrite <- !app_assoc.
  - by apply detach_or_count_at_slot.
Qed.

Lemma client_slot_lookup env i psl c :
  Psl.client psl !! i = Some c →
  client_slot env i psl
  = if Client.valid c =? 0 then psl
    else
      let c1 := mmio_done_client env c in
      let es1 := mmio_done_events c ++ [Poll (Client.fd c)] in
      if 0 <? ClientEnv.r_poll env then
        match ClientEnv.r_get_byte env with
        | None =>
            at_slot i (free_base c1 psl) (count_client env (freed c1))
                    (Psl.idle_cycles psl)
                    (es1 ++ [Get_bytes (Client.fd c) 1 1]
                         ++ free_events (Psl.dbg_id psl) c1 ++ [Client_cmd i])
        | Some b =>
            counted_or_released env i psl (byte_client env b c1)
              (byte_idle_cycles env b (Psl.idle_cycles psl))
              (es1 ++ [Get_bytes (Client.fd c) 1 1] ++ byte_events env b c1)
        end
      else counted_or_released env i psl c1 (Psl.idle_cycles psl) es1.
Proof.
  intros E.
  pose proof (client_slot_at_slot env i psl c (Psl.idle_cycles psl) []
                (lookup_lt_Some _ _ _ E)) as H.
  rewrite <- (at_slot_init _ _ _ E) in H. by rewrite H.
Qed.

End Dispatcher.

(** ** The dispatcher on a session *)

Section Pass.
Context `{K : Constants}.

Lemma handle_client_lookup env i psl c :
  Psl.client psl !! i = Some c →
  _handle_client env i psl
  = let c1 := mmio_done_client env c in
    let es1 := mmio_done_events c ++ [Poll (Client.fd c)] in
    if 0 <? ClientEnv.r_poll env then
      match ClientEnv.r_get_byte env with
      | None => _free i (at_slot i psl c1 (Psl.idle_cycles psl)
                                 (es1 ++ [Get_bytes (Client.fd c) 1 1]))
      | Some b =>
          at_slot i psl (byte_client env b c1)
                  (byte_idle_cycles env b (Psl.idle_cycles psl))
                  (es1 ++ [Get_bytes (Client.fd c) 1 1] ++ byte_events env b c1)
      end
    else at_slot i psl c1 (Psl.idle_cycles psl) es1.
Proof.
  intros E.
  pose proof (handle_client_at_slot i psl (lookup_lt_Some _ _ _ E) env c
                (Psl.idle_cycles psl) []) as H.
  by rewrite <- (at_slot_init _ _ _ E) in H.
Qed.

Lemma byte_client_idle_cycles env b c :
  Client.idle_cycles (byte_client env b c) = PSL_IDLE_CYCLES.
Proof. reflexivity. Qed.

Lemma unknown_byte b x : b ∉ known_bytes → x ∈ known_bytes → (b =? x) = false.
Proof. intros Hb Hx. apply Z.eqb_neq. by intros ->. Qed.

Lemma at_slot_new_events i p c n es :
  new_events p (at_slot i p c n es) = es.
Proof. by apply new_events_app. Qed.

(** C9, as amended.  Whenever the one-byte read succeeds the client's idle
    countdown is PSL_IDLE_CYCLES when the dispatcher returns, whatever the
    byte.  A byte that is none of the known commands is handed to no
    subsystem and answered with nothing; besides the bookkeeping of a
    pending MMIO access it changes the client's countdown only.  The
    session's own countdown, which alone decides whether the clock is
    signalled, is not touched by it. *)
Theorem read_resets_client_countdown env i psl c b :
  Psl.client psl !! i = Some c →
  0 < ClientEnv.r_poll env →
  ClientEnv.r_get_byte env = Some b →
  Client.idle_cycles (client_at i (_handle_client env i psl)) = PSL_IDLE_CYCLES
  ∧ (b ∉ known_bytes →
       new_events psl (_handle_client env i psl)
         = mmio_done_events c ++ [Poll (Client.fd c); Get_bytes (Client.fd c) 1 1]
       ∧ forget_trace (_handle_client env i psl)
         = forget_trace
             (upd_client i (λ c, Client.set_idle_cycles PSL_IDLE_CYCLES
                                   (mmio_done_client env c)) psl)
       ∧ Psl.idle_cycles (_handle_client env i psl) = Psl.idle_cycles psl).
Proof.
  intros E Hpoll Hbyte.
  pose proof (lookup_lt_Some _ _ _ E) as Hlt.
  rewrite (handle_client_lookup _ _ _ _ E). cbv zeta.
  rewrite (proj2 (Z.ltb_lt _ _) Hpoll), Hbyte.
  split; [by rewrite at_slot_client_at|].
  intros Hb.
  assert (byte_events env b (mmio_done_client env c) = []) as ->.
  { unfold byte_events.
    rewrite !(unknown_byte b) by (done || (unfold known_bytes; set_solver)).
    done. }
  assert (byte_client env b (mmio_done_client env c)
          = Client.set_idle_cycles PSL_IDLE_CYCLES (mmio_done_client env c)) as ->.
  { unfold byte_client, byte_mmio.
    rewrite !(unknown_byte b) by (done || (unfold known_bytes; set_solver)).
    done. }
  assert (byte_idle_cycles env b (Psl.idle_cycles psl) = Psl.idle_cycles psl) as ->.
  { unfold byte_idle_cycles.
    rewrite !(unknown_byte b) by (done || (unfold known_bytes; set_solver)).
    done. }
  split; [|split; [|done]].
  - rewrite at_slot_new_events, app_nil_r. by rewrite <- app_assoc.
  - unfold upd_client. rewrite E. reflexivity.
Qed.

(** C9 as stated fails in its last clause: a byte that matches no command
    does not keep the session clocking.  An idle session with one
    iteration left on its countdown signals the clock once more and then
    sleeps, although its client sends the unknown byte 255 in both
    iterations and has its own countdown restarted each time. *)
Lemma unknown_byte_does_not_keep_clocking :
  (λ s : loop_state,
     (Psl.trace s.1, Psl.idle_cycles s.1, Client.idle_cycles (client_at 0 s.1), s.2))
  <$> iterations (K := K0) [idle_iteration 255; idle_iteration 255] last_clocked
  = Some ([Mutex_lock; Psl_signal_afu_model; Psl_get_afu_events; Mutex_unlock;
           Send_job; Send_mmio;
           Poll 5; Get_bytes 5 1 1; Client_cmd 0;
           Info_stopping; Ns_delay 1000000;
           Poll 5; Get_bytes 5 1 1; Client_cmd 0],
          0, 19, true).
Proof. reflexivity. Qed.

Lemma at_slot_free_base_new_events i p c0 c n es :
  new_events p (at_slot i (free_base c0 p) c n es) = es.
Proof. by apply new_events_app. Qed.

End Pass.

(** ** Detaching *)

Section Detach.
Context `{K : Constants}.

Lemma puts_app es es' : puts (es ++ es') = puts es ++ puts es'.
Proof. apply filter_app. Qed.

Lemma puts_mmio_done_events c : puts (mmio_done_events c) = [].
Proof. unfold mmio_done_events. by destruct (Client.mmio_access c). Qed.

Lemma puts_free_events d c : puts (free_events d c) = [].
Proof. unfold free_events. by destruct (Client.ip c). Qed.

Lemma puts_detach_events d c :
  puts (detach_events d c) = [Put_bytes (Client.fd c) [PSLSE_DETACH]].
Proof. unfold detach_events, free_events. by destruct (Client.ip c). Qed.

Lemma mmio_done_client_valid env c :
  Client.valid (mmio_done_client env c) = Client.valid c.
Proof. unfold mmio_done_client. by destruct (Client.mmio_access c). Qed.

Lemma byte_client_valid env b c :
  Client.valid (byte_client env b c)
  = if b =? PSLSE_DETACH then -1 else Client.valid c.
Proof.
  unfold byte_client. cbv zeta. destruct (byte_mmio env b);
    destruct (b =? PSLSE_DETACH), (b =? PSLSE_MEM_FAILURE), (b =? PSLSE_MEM_SUCCESS);
    reflexivity.
Qed.

Lemma count_client_valid env c : Client.valid (count_client env c) = Client.valid c.
Proof.
  unfold count_client. cbv zeta.
  by destruct (negb (ClientEnv.r_client_cmd env =? 0)),
              (negb (Client.idle_cycles c =? 0)).
Qed.

Lemma byte_events_mmio_done env b c :
  byte_events env b (mmio_done_client env c) = byte_events env b c.
Proof.
  unfold byte_events.
  by rewrite mmio_done_client_fd, mmio_done_client_context,
             mmio_done_client_mem_access.
Qed.

(** A pending MMIO access keeps the countdown away from zero. *)
Lemma mmio_done_client_idle env c :
  PSL_IDLE_CYCLES ≠ 0 →
  Client.idle_cycles (mmio_done_client env c) = 0 →
  Client.mmio_access c = None ∧ Client.idle_cycles c = 0.
Proof.
  unfold mmio_done_client. destruct (Client.mmio_access c); simpl; [done|auto].
Qed.

(** C1, as amended.  The dispatcher does not look at the validity state: a
    MEM_FAILURE, MEM_SUCCESS, MMIO_MAP or MMIO read or write byte read from
    a DETACHING client is handed to the command or MMIO subsystem like
    that of any other client.  A DETACHING client is released with a DETACH
    acknowledgement only in an iteration that finds its countdown already
    at zero, no MMIO access pending and nothing to read; it is released
    without acknowledgement, whatever its countdown, in an iteration whose
    one-byte read fails. *)
Theorem detaching_client_is_still_served env i psl c :
  PSL_IDLE_CYCLES ≠ 0 →
  Psl.client psl !! i = Some c →
  Client.valid c < 0 →
  (∀ b, 0 < ClientEnv.r_poll env → ClientEnv.r_get_byte env = Some b →
     let seen := new_events psl (client_slot env i psl) in
     (∀ e, e ∈ byte_events env b c → e ∈ seen)
     ∧ (b = PSLSE_MEM_FAILURE → Handle_aerror (Client.mem_access c) ∈ seen)
     ∧ (b = PSLSE_MEM_SUCCESS →
          Handle_mem_return (Client.mem_access c) (Client.fd c) ∈ seen)
     ∧ (b = PSLSE_MMIO_MAP → Handle_mmio_map (Client.context c) ∈ seen)
     ∧ (b = PSLSE_MMIO_WRITE64 → Handle_mmio (Client.context c) 0 1 ∈ seen)
     ∧ (b = PSLSE_MMIO_READ64 → Handle_mmio (Client.context c) 1 1 ∈ seen)
     ∧ (b = PSLSE_MMIO_WRITE32 → Handle_mmio (Client.context c) 0 0 ∈ seen)
     ∧ (b = PSLSE_MMIO_READ32 → Handle_mmio (Client.context c) 1 0 ∈ seen))
  ∧ (Client.valid (client_at i (client_slot env i psl)) = 0 →
     let seen := new_events psl (client_slot env i psl) in
     (0 < ClientEnv.r_poll env ∧ ClientEnv.r_get_byte env = None ∧ puts seen = [])
     ∨ (Client.idle_cycles c = 0 ∧ Client.mmio_access c = None
        ∧ ClientEnv.r_poll env ≤ 0
        ∧ puts seen = [Put_bytes (Client.fd c) [PSLSE_DETACH]]))
  ∧ (0 < ClientEnv.r_poll env → ClientEnv.r_get_byte env = None →
     Client.valid (client_at i (client_slot env i psl)) = 0
     ∧ puts (new_events psl (client_slot env i psl)) = [])
  ∧ (ClientEnv.r_poll env ≤ 0 →
     Client.idle_cycles c = 0 → Client.mmio_access c = None →
     Client.valid (client_at i (client_slot env i psl)) = 0
     ∧ puts (new_events psl (client_slot env i psl))
       = [Put_bytes (Client.fd c) [PSLSE_DETACH]]).
Proof.
  intros HK E Hv.
  pose proof (lookup_lt_Some _ _ _ E) as Hlt.
  rewrite (client_slot_lookup _ _ _ _ E).
  rewrite (proj2 (Z.eqb_neq _ _)) by lia. cbv zeta.
  split; [|split; [|split]]; cycle 2.
  - intros Hpoll Hb. rewrite (proj2 (Z.ltb_lt _ _) Hpoll), Hb.
    rewrite at_slot_client_at, at_slot_free_base_new_events by done.
    rewrite count_client_valid. split; [done|].
    by rewrite !puts_app, puts_mmio_done_events, puts_free_events.
  - intros Hpoll Hidle Hm. rewrite (proj2 (Z.ltb_ge _ _) Hpoll).
    assert (mmio_done_client env c = c) as Hc
      by (unfold mmio_done_client; by rewrite Hm).
    unfold counted_or_released.
    rewrite Hc, Hidle, (proj2 (Z.ltb_lt _ _) Hv). cbn [andb Z.eqb].
    rewrite at_slot_client_at, at_slot_free_base_new_events by done.
    split; [done|].
    by rewrite !puts_app, puts_mmio_done_events, puts_detach_events.
  - intros b Hpoll Hb.
    rewrite (proj2 (Z.ltb_lt _ _) Hpoll), Hb.
    unfold counted_or_released.
    rewrite byte_client_idle_cycles, (proj2 (Z.eqb_neq _ _) HK), andb_false_r.
    rewrite at_slot_new_events, byte_events_mmio_done.
    assert (∀ e, e ∈ byte_events env b c →
                 e ∈ ((mmio_done_events c ++ [Poll (Client.fd c)])
                      ++ [Get_bytes (Client.fd c) 1 1] ++ byte_events env b c)
                     ++ [Client_cmd i]) as Hin.
    { intros e He. rewrite !elem_of_app. auto. }
    split; [exact Hin|].
    repeat split; intros ->; apply Hin; unfold byte_events;
      rewrite Z.eqb_refl, !elem_of_app, !list_elem_of_singleton; auto 12.
  - destruct (0 <? ClientEnv.r_poll env) eqn:Hpoll.
    + destruct (ClientEnv.r_get_byte env) as [b|].
      * unfold counted_or_released.
        rewrite byte_client_idle_cycles, (proj2 (Z.eqb_neq _ _) HK), andb_false_r.
        rewrite at_slot_client_at by done.
        rewrite count_client_valid, byte_client_valid, mmio_done_client_valid.
        destruct (b =? PSLSE_DETACH); lia.
      * intros _. left. apply Z.ltb_lt in Hpoll. split; [done|split; [done|]].
        rewrite at_slot_free_base_new_events.
        by rewrite !puts_app, puts_mmio_done_events, puts_free_events.
    + unfold counted_or_released.
      rewrite mmio_done_client_valid, (proj2 (Z.ltb_lt _ _) Hv). simpl.
      destruct (Client.idle_cycles (mmio_done_client env c) =? 0) eqn:Hidle.
      * intros _. right. apply Z.eqb_eq in Hidle.
        destruct (mmio_done_client_idle _ _ HK Hidle) as [Hm Hi].
        apply Z.ltb_ge in Hpoll. split; [done|split; [done|split; [done|]]].
        rewrite at_slot_free_base_new_events.
        rewrite !puts_app, puts_mmio_done_events, puts_detach_events.
        unfold mmio_done_client. by rewrite Hm.
      * rewrite at_slot_client_at by done.
        rewrite count_client_valid, mmio_done_client_valid. lia.
Qed.

(** C1 as stated fails twice over.  A DETACHING client with five
    iterations left sends MEM_FAILURE: the byte reaches the command
    subsystem as an address error for its access in flight.  The read from
    the same client fails: it is released at once, its countdown still at
    five. *)
Lemma detaching_client_counterexample :
  Client.valid (client_at 0 one_detaching) = -1
  ∧ Client.idle_cycles (client_at 0 one_detaching) = 5
  ∧ Psl.trace (client_slot (K := K0) (sends 11) 0 one_detaching)
    = [Poll 5; Get_bytes 5 1 1; Handle_aerror (Some 7%nat); Client_cmd 0]
  ∧ Client.valid (client_at 0 (client_slot (K := K0) (hangs_up 0) 0 one_detaching))
    = 0.
Proof. repeat split; reflexivity. Qed.









End Detach.

(** ** The scheduler loop *)

Section Loop.
Context `{K : Constants}.

Lemma counted_or_released_idle_cycles env i p c n es :
  Psl.idle_cycles (counted_or_released env i p c n es) = n.
Proof. unfold counted_or_released. by destruct (_ && _). Qed.

Lemma client_at_None i psl :
  Psl.client psl !! i = None → client_at i psl = null_client.
Proof. unfold client_at. by intros ->. Qed.

Lemma client_slot_None env i psl :
  Psl.client psl !! i = None → client_slot env i psl = psl.
Proof. intros E. by rewrite client_slot_unfold, (client_at_None _ _ E). Qed.

Lemma byte_idle_cycles_no_attach env b n :
  0 < ClientEnv.r_poll env → ClientEnv.r_get_byte env = Some b →
  attaches env = false → byte_idle_cycles env b n = n.
Proof.
  unfold attaches, byte_idle_cycles. intros Hp ->.
  rewrite (proj2 (Z.ltb_lt _ _) Hp). simpl. by intros ->.
Qed.

Lemma at_slot_lookup_ne i j p c n es :
  i ≠ j → Psl.client (at_slot i p c n es) !! j = Psl.client p !! j.
Proof. intros. simpl. by apply list_lookup_insert_ne. Qed.

Lemma at_slot_length i p c n es :
  length (Psl.client (at_slot i p c n es)) = length (Psl.client p).
Proof. simpl. apply length_insert. Qed.

Lemma counted_or_released_lookup_ne env i j p c n es :
  i ≠ j →
  Psl.client (counted_or_released env i p c n es) !! j = Psl.client p !! j.
Proof.
  intros. unfold counted_or_released.
  destruct (_ && _); by rewrite at_slot_lookup_ne.
Qed.

Lemma counted_or_released_length env i p c n es :
  length (Psl.client (counted_or_released env i p c n es))
  = length (Psl.client p).
Proof.
  unfold counted_or_released. destruct (_ && _); by rewrite at_slot_length.
Qed.


(** Without a successful attach a pass over a slot leaves the session
    countdown alone. *)
Lemma client_slot_idle_cycles env i psl :
  attaches env = false →
  Psl.idle_cycles (client_slot env i psl) = Psl.idle_cycles psl.
Proof.
  intros Ha. destruct (Psl.client psl !! i) as [c|] eqn:E;
    [|by rewrite client_slot_None].
  rewrite (client_slot_lookup _ _ _ _ E).
  destruct (Client.valid c =? 0); [done|]. cbv zeta.
  destruct (0 <? ClientEnv.r_poll env) eqn:Hp.
  - destruct (ClientEnv.r_get_byte env) as [b|] eqn:Hb; [|done].
    rewrite counted_or_released_idle_cycles.
    apply byte_idle_cycles_no_attach; [by apply Z.ltb_lt|done|done].
  - apply counted_or_released_idle_cycles.
Qed.

Lemma client_phase_fold_idle_cycles env idxs psl :
  (∀ i, attaches (LoopEnv.r_client env i) = false) →
  Psl.idle_cycles (foldl (λ psl i, client_slot (LoopEnv.r_client env i) i psl) psl idxs)
  = Psl.idle_cycles psl.
Proof.
  intros Ha. revert psl. induction idxs as [|i idxs IH]; intros psl; [done|].
  simpl. by rewrite IH, client_slot_idle_cycles.
Qed.

Lemma client_phase_idle_cycles env psl :
  (∀ i, attaches (LoopEnv.r_client env i) = false) →
  Psl.idle_cycles (client_phase env psl) = Psl.idle_cycles psl.
Proof. apply client_phase_fold_idle_cycles. Qed.






Lemma client_side_mmio_done_events c :
  Forall (λ e, client_side e = true) (mmio_done_events c).
Proof. unfold mmio_done_events. case_match; repeat constructor. Qed.

Lemma client_side_free_events d c :
  Forall (λ e, client_side e = true) (free_events d c).
Proof. unfold free_events. case_match; repeat constructor. Qed.

Lemma client_side_detach_events d c :
  Forall (λ e, client_side e = true) (detach_events d c).
Proof.
  unfold detach_events. apply Forall_app. split; [repeat constructor|].
  apply client_side_free_events.
Qed.

Lemma client_side_attach_events env fd :
  Forall (λ e, client_side e = true) (attach_events env fd).
Proof. unfold attach_events. case_match; repeat constructor. Qed.

Lemma client_side_byte_events env b c :
  Forall (λ e, client_side e = true) (byte_events env b c).
Proof.
  unfold byte_events. rewrite !Forall_app.
  repeat split; case_match;
    first [apply client_side_attach_events | repeat constructor].
Qed.

Lemma extends_at_slot P i p p' c n es :
  Psl.trace p' = Psl.trace p → Forall P es → extends P p (at_slot i p' c n es).
Proof. intros E F. exists es. simpl. by rewrite E. Qed.

Lemma counted_or_released_extends env i p c n es :
  Forall (λ e, client_side e = true) es →
  extends (λ e, client_side e = true) p (counted_or_released env i p c n es).
Proof.
  intros F. unfold counted_or_released. destruct (_ && _).
  - apply extends_at_slot; [done|]. apply Forall_app. split; [done|].
    apply client_side_detach_events.
  - apply extends_at_slot; [done|]. apply Forall_app. split; [done|].
    repeat constructor.
Qed.

(** A pass over a slot makes client-side calls only. *)
Lemma client_slot_extends env i psl :
  extends (λ e, client_side e = true) psl (client_slot env i psl).
Proof.
  destruct (Psl.client psl !! i) as [c|] eqn:E;
    [|rewrite client_slot_None by done; apply extends_refl].
  rewrite (client_slot_lookup _ _ _ _ E).
  destruct (Client.valid c =? 0); [apply extends_refl|]. cbv zeta.
  assert (Forall (λ e, client_side e = true)
                 (mmio_done_events c ++ [Poll (Client.fd c)])) as F1.
  { apply Forall_app. split; [apply client_side_mmio_done_events|].
    repeat constructor. }
  destruct (0 <? ClientEnv.r_poll env).
  - destruct (ClientEnv.r_get_byte env) as [b|].
    + apply counted_or_released_extends.
      rewrite !Forall_app. repeat split; [by apply Forall_app in F1 as [? ?]..| |].
      * repeat constructor.
      * apply client_side_byte_events.
    + apply extends_at_slot; [done|].
      rewrite !Forall_app. repeat split; [by apply Forall_app in F1 as [? ?]..| | |].
      * repeat constructor.
      * apply client_side_free_events.
      * repeat constructor.
  - by apply counted_or_released_extends.
Qed.

Lemma client_phase_fold_extends env idxs psl :
  extends (λ e, client_side e = true) psl
    (foldl (λ psl i, client_slot (LoopEnv.r_client env i) i psl) psl idxs).
Proof.
  revert psl. induction idxs as [|i idxs IH]; intros psl; [apply extends_refl|].
  simpl. eapply extends_trans; [apply client_slot_extends | apply IH].
Qed.

Lemma client_phase_extends env psl :
  extends (λ e, client_side e = true) psl (client_phase env psl).
Proof. apply client_phase_fold_extends. Qed.

Lemma handle_afu_trace psl :
  Psl.trace (_handle_afu psl) = Psl.trace psl ++ afu_events (Psl.cmd psl).
Proof.
  unfold _handle_afu, afu_events. simpl.
  destruct (Psl.cmd psl); simpl; by rewrite <- ?app_assoc, ?app_nil_r.
Qed.

Lemma handle_afu_idle_cycles psl :
  Psl.idle_cycles (_handle_afu psl) = Psl.idle_cycles psl.
Proof. unfold _handle_afu. simpl. by destruct (Psl.cmd psl). Qed.

Lemma handle_afu_client psl : Psl.client (_handle_afu psl) = Psl.client psl.
Proof. unfold _handle_afu. simpl. by destruct (Psl.cmd psl). Qed.

Lemma not_client_side_not_new e psl psl' :
  client_side e = false →
  extends (λ e, client_side e = true) psl psl' →
  e ∉ new_events psl psl'.
Proof.
  intros He Hx. apply extends_new_events in Hx as [_ F].
  intros Hin. rewrite Forall_forall in F. apply F in Hin. congruence.
Qed.

(** An iteration that finds the session IDLE with the countdown running:
    the clock is signalled and, both queues being empty, the countdown
    goes down by one. *)
Lemma quiescent_clocked env psl stopped :
  quiescent env → Psl.idle_cycles psl ≠ 0 → 0 ≤ LoopEnv.r_event env →
  ∃ psl',
    iteration env (psl, stopped) = Continue (psl', stopped)
    ∧ Psl.idle_cycles psl' = int_dec (Psl.idle_cycles psl)
    ∧ ∃ es, new_events psl psl'
            = clocking_events (Psl.cmd psl) (LoopEnv.r_event env) ++ es
            ∧ Forall (λ e, client_side e = true) es.
Proof.
  intros (Hst & Hj & Hm & Ha) Hidle Hev.
  unfold iteration, loop_head, clock_phase. simpl. rewrite Hst. simpl.
  destruct (decide (Psl.idle_cycles psl ≠ 0)) as [_|]; [|done].
  rewrite (proj2 (Z.ltb_ge _ _) Hev), Hj, Hm. simpl.
  eexists. split; [reflexivity|]. split.
  - rewrite client_phase_idle_cycles by done.
    destruct (0 <? LoopEnv.r_event env); simpl; by rewrite ?handle_afu_idle_cycles.
  - match goal with
    | |- context [client_phase env ?x] =>
        destruct (extends_new_events _ _ _ (client_phase_extends env x)) as [Htr F]
    end.
    eexists. split; [|exact F].
    apply new_events_app. rewrite Htr. simpl.
    unfold clocking_events.
    destruct (0 <? LoopEnv.r_event env); simpl.
    + rewrite handle_afu_trace. simpl. by rewrite <- !app_assoc.
    + by rewrite <- !app_assoc.
Qed.

(** An iteration that finds the session IDLE with the countdown at zero:
    the loop sleeps and the countdown stays at zero. *)
Lemma quiescent_gated env psl stopped :
  quiescent env → Psl.idle_cycles psl = 0 →
  ∃ psl',
    iteration env (psl, stopped) = Continue (psl', true)
    ∧ Psl.idle_cycles psl' = 0
    ∧ ∃ es, new_events psl psl'
            = (if stopped then [] else [Info_stopping]) ++ [Ns_delay 1000000] ++ es
            ∧ Forall (λ e, client_side e = true) es.
Proof.
  intros (Hst & Hj & Hm & Ha) Hidle.
  unfold iteration, loop_head, clock_phase. simpl. rewrite Hst. simpl.
  destruct (decide (Psl.idle_cycles psl ≠ 0)) as [|_]; [done|].
  eexists. split; [reflexivity|]. split.
  - rewrite client_phase_idle_cycles by done. by destruct stopped.
  - match goal with
    | |- context [client_phase env ?x] =>
        destruct (extends_new_events _ _ _ (client_phase_extends env x)) as [Htr F]
    end.
    eexists. split; [|exact F].
    apply new_events_app. rewrite Htr.
    destruct stopped; simpl; by rewrite <- ?app_assoc.
Qed.

(** An iteration that finds the session IDLE with the countdown at zero,
    whatever the queues hold and the clients do: the loop sleeps and turns
    to the clients without a call to the transport. *)
Lemma stopped_iteration env psl stopped :
  LoopEnv.r_state env = PSLSE_IDLE → Psl.idle_cycles psl = 0 →
  ∃ x es,
    iteration env (psl, stopped) = Continue (client_phase env x, true)
    ∧ Psl.idle_cycles x = 0 ∧ Psl.client x = Psl.client psl
    ∧ new_events psl (client_phase env x)
      = (if stopped then [] else [Info_stopping]) ++ [Ns_delay 1000000] ++ es
    ∧ Forall (λ e, client_side e = true) es.
Proof.
  intros Hst Hidle.
  unfold iteration, loop_head, clock_phase. simpl. rewrite Hst. simpl.
  destruct (decide (Psl.idle_cycles psl ≠ 0)) as [|_]; [done|].
  eexists _, _. split; [reflexivity|].
  split; [by destruct stopped|]. split; [by destruct stopped|].
  match goal with
  | |- context [client_phase env ?x] =>
      destruct (extends_new_events _ _ _ (client_phase_extends env x)) as [Htr F]
  end.
  split; [|exact F].
  apply new_events_app. rewrite Htr.
  destruct stopped; simpl; by rewrite <- ?app_assoc.
Qed.


(** Consecutive iterations of an idle session with empty queues count the
    session countdown down to zero, where it stays. *)
Lemma quiescent_iterations envs :
  Forall (λ env, quiescent env ∧ 0 ≤ LoopEnv.r_event env) envs →
  ∀ s, 0 ≤ Psl.idle_cycles s.1 →
  ∃ s', iterations envs s = Some s'
        ∧ Psl.idle_cycles s'.1
          = Z.max 0 (Psl.idle_cycles s.1 - Z.of_nat (length envs)).
Proof.
  induction 1 as [|env envs [Hq Hev] _ IH]; intros [psl stopped] Hpos.
  - exists (psl, stopped). simpl in *. split; [done|lia].
  - simpl in Hpos. destruct (decide (Psl.idle_cycles psl = 0)) as [Hz|Hnz].
    + destruct (quiescent_gated env psl stopped Hq Hz) as (psl' & Hit & Hidle & _).
      destruct (IH (psl', true)) as (s' & Hits & Hs'); [simpl; lia|].
      exists s'. simpl. rewrite Hit. split; [done|].
      rewrite Hs'. simpl. rewrite Hidle, Hz. lia.
    + destruct (quiescent_clocked env psl stopped Hq Hnz Hev)
        as (psl' & Hit & Hidle & _).
      rewrite int_dec_eq in Hidle by lia.
      destruct (IH (psl', stopped)) as (s' & Hits & Hs'); [simpl; lia|].
      exists s'. simpl. rewrite Hit. split; [done|].
      rewrite Hs'. simpl. rewrite Hidle. lia.
Qed.




End Loop.

(** ** The countdowns *)

Section Countdowns.
Context `{K : Constants}.
Hypothesis max_nonneg : 0 ≤ PSL_IDLE_CYCLES.

Lemma nonneg_emit es psl : countdowns_nonneg psl → countdowns_nonneg (emit es psl).
Proof. done. Qed.

Lemma nonneg_upd i f psl :
  (∀ c, 0 ≤ Client.idle_cycles c → 0 ≤ Client.idle_cycles (f c)) →
  countdowns_nonneg psl → countdowns_nonneg (upd_client i f psl).
Proof.
  intros Hf [Hs Hc]. split; [by rewrite upd_client_idle_cycles|].
  by apply (upd_client_Forall (λ c, 0 ≤ Client.idle_cycles c)).
Qed.

Lemma nonneg_when {A} (P : A → Prop) t f x :
  (∀ x, P x → P (f x)) → P x → P (when t f x).
Proof. destruct t; simpl; auto. Qed.

Lemma nonneg_attach env i psl :
  countdowns_nonneg psl → countdowns_nonneg (_attach env i psl).
Proof.
  intros [Hs Hc]. split.
  - rewrite attach_idle_cycles. by destruct (attach_succeeds env).
  - by rewrite attach_client.
Qed.

Lemma nonneg_free i psl :
  countdowns_nonneg psl → countdowns_nonneg (_free i psl).
Proof.
  intros [Hs Hc]. split; [by rewrite free_idle_cycles|].
  rewrite free_client.
  by apply (upd_client_Forall (λ c, 0 ≤ Client.idle_cycles c)).
Qed.

Lemma nonneg_mmio_branch t env i rnw dw (s : Psl.t * option ptr) :
  countdowns_nonneg s.1 →
  countdowns_nonneg (when t (mmio_branch env i rnw dw) s).1.
Proof. by destruct t. Qed.

Lemma nonneg_handle_client env i psl :
  countdowns_nonneg psl → countdowns_nonneg (_handle_client env i psl).
Proof.
  intros H. unfold _handle_client.
  set (psl1 := match Client.mmio_access (client_at i psl) with
               | Some _ => _
               | None => psl
               end).
  assert (countdowns_nonneg psl1) as H1.
  { unfold psl1. destruct (Client.mmio_access (client_at i psl)); [|done].
    cbv zeta. apply nonneg_upd; [done|]. apply nonneg_emit.
    by apply nonneg_upd. }
  clearbody psl1. cbv zeta.
  destruct (0 <? ClientEnv.r_poll env); [|by apply nonneg_emit].
  destruct (ClientEnv.r_get_byte env) as [b|]; [|by apply nonneg_free].
  match goal with
  | |- countdowns_nonneg (let '(psl, mmio) := ?s in _) =>
      assert (countdowns_nonneg s.1) as Hs; [|destruct s as [psl2 mmio]]
  end.
  { repeat apply nonneg_mmio_branch. simpl.
    repeat (apply (nonneg_when countdowns_nonneg); [intros ? ?|]);
      repeat first [ apply nonneg_upd; [done|]
                   | apply nonneg_emit
                   | apply nonneg_attach
                   | assumption ]. }
  simpl in Hs. apply nonneg_upd; [done|].
  destruct mmio; [by apply nonneg_upd|done].
Qed.

(** The countdown of a slot is taken down only when it is not zero. *)
Lemma nonneg_count_down i psl :
  countdowns_nonneg psl →
  countdowns_nonneg
    (when (negb (Client.idle_cycles (client_at i psl) =? 0))
       (upd_client i (λ c, Client.set_idle_cycles (int_dec (Client.idle_cycles c)) c))
       psl).
Proof.
  intros [Hs Hc]. destruct (Client.idle_cycles (client_at i psl) =? 0) eqn:Hz;
    [done|]. simpl. apply Z.eqb_neq in Hz.
  split; [by rewrite upd_client_idle_cycles|].
  unfold upd_client. destruct (Psl.client psl !! i) as [c|] eqn:E; [|done].
  simpl. apply Forall_insert; [done|]. simpl.
  rewrite (client_at_lookup _ _ _ E) in Hz.
  pose proof (Forall_lookup_1 _ _ _ _ Hc E) as Hpos. simpl in Hpos.
  rewrite int_dec_eq by lia. lia.
Qed.

Lemma nonneg_client_slot env i psl :
  countdowns_nonneg psl → countdowns_nonneg (client_slot env i psl).
Proof.
  intros H. rewrite client_slot_unfold.
  destruct (Client.valid (client_at i psl) =? 0); [done|].
  apply (nonneg_handle_client env i) in H. revert H.
  generalize (_handle_client env i psl). intros psl1 H1.
  unfold detach_or_count. destruct (_ && _).
  - by apply nonneg_free, nonneg_emit.
  - cbv zeta. apply (nonneg_when countdowns_nonneg).
    + intros x Hx. by apply nonneg_upd.
    + apply nonneg_emit. by apply nonneg_count_down.
Qed.

Lemma nonneg_loop_head s :
  countdowns_nonneg s.1 → countdowns_nonneg (loop_head s).1.
Proof.
  destruct s as [psl stopped]. simpl. intros [Hs Hc].
  destruct (decide (Psl.state psl ≠ PSLSE_IDLE)); [|done].
  by destruct stopped.
Qed.

Lemma nonneg_clock_phase env s :
  countdowns_nonneg s.1 →
  match clock_phase env s with
  | inl s' => countdowns_nonneg s'.1
  | inr psl' => countdowns_nonneg psl'
  end.
Proof.
  destruct s as [psl stopped]. simpl. intros [Hs Hc].
  destruct (decide (Psl.idle_cycles psl ≠ 0)) as [Hnz|].
  - destruct (LoopEnv.r_event env <? 0); [done|]. simpl.
    destruct (LoopEnv.r_job_null env && LoopEnv.r_mmio_null env); simpl.
    + destruct (0 <? LoopEnv.r_event env); simpl; split; simpl;
        rewrite ?handle_afu_idle_cycles, ?handle_afu_client; simpl;
        (done || (rewrite int_dec_eq by lia; lia)).
    + destruct (0 <? LoopEnv.r_event env); simpl; split; simpl;
        rewrite ?handle_afu_idle_cycles, ?handle_afu_client; simpl; (done || lia).
  - by destruct stopped.
Qed.

(** No countdown is negative in a state the worker thread reaches. *)
Lemma reachable_nonneg psl : reachable psl → countdowns_nonneg psl.
Proof.
  induction 1 as [psl Hs Hc|st psl _ IH|i c psl _ IH Hc|psl stopped _ IH
                 |env psl stopped s _ IH Hcl|env psl stopped psl' _ IH Hcl
                 |env i psl _ IH|i psl _ IH|env i psl _ IH|env i psl _ IH].
  - split; [by rewrite Hs|done].
  - done.
  - by apply nonneg_upd.
  - by apply (nonneg_loop_head (psl, stopped)).
  - pose proof (nonneg_clock_phase env (psl, stopped) IH) as H.
    by rewrite Hcl in H.
  - pose proof (nonneg_clock_phase env (psl, stopped) IH) as H.
    by rewrite Hcl in H.
  - by apply nonneg_attach.
  - by apply nonneg_free.
  - by apply nonneg_handle_client.
  - by apply nonneg_client_slot.
Qed.

Lemma client_phase_fold_reachable env idxs psl :
  reachable psl →
  reachable (foldl (λ psl i, client_slot (LoopEnv.r_client env i) i psl) psl idxs).
Proof.
  revert psl. induction idxs as [|i idxs IH]; intros psl H; [done|].
  simpl. by apply IH, reach_client_slot.
Qed.

(** The iterations of the loop stay within the reachable states. *)
Lemma iteration_reachable env s s' :
  reachable s.1 → iteration env s = Continue s' → reachable s'.1.
Proof.
  destruct s as [psl stopped]. unfold iteration. cbn [fst snd]. intros H.
  change (Psl.state (Psl.set_state (LoopEnv.r_state env) psl))
    with (LoopEnv.r_state env).
  destruct (decide (LoopEnv.r_state env = PSLSE_DONE)); [done|].
  pose proof (reach_head _ stopped (reach_state (LoopEnv.r_state env) _ H)) as Hh.
  destruct (loop_head (Psl.set_state (LoopEnv.r_state env) psl, stopped))
    as [psl1 stopped1] eqn:Eh.
  simpl in Hh.
  destruct (clock_phase env (psl1, stopped1)) as [[psl2 stopped2]|] eqn:Ec; [|done].
  intros [= <-]. simpl.
  apply client_phase_fold_reachable.
  by apply (reach_clock env psl1 stopped1 (psl2, stopped2)).
Qed.

Lemma iterations_reachable envs s s' :
  reachable s.1 → iterations envs s = Some s' → reachable s'.1.
Proof.
  revert s. induction envs as [|env envs IH]; intros s H; simpl.
  - by intros [= <-].
  - destruct (iteration env s) as [s1| |] eqn:E; [|done..].
    apply IH. by eapply iteration_reachable.
Qed.

End Countdowns.

Section CountdownResets.
Context `{K : Constants}.

(** C7. No countdown, of the session or of a client, is negative in a
    state the worker thread reaches, in particular after any number of
    iterations of the loop.  The session countdown is PSL_IDLE_CYCLES
    after a successful attach and after the head of an iteration that
    finds the session in a state other than IDLE.  The countdown of a
    client is PSL_IDLE_CYCLES when the dispatcher returns after reading a
    command byte from it, and when it returns after looking at a pending
    MMIO access of a client it did not release. *)
Theorem countdowns_never_negative :
  0 ≤ PSL_IDLE_CYCLES →
  (∀ psl, reachable psl → countdowns_nonneg psl)
  ∧ (∀ envs s s',
       Psl.idle_cycles s.1 = PSL_IDLE_CYCLES →
       Forall (λ c, 0 ≤ Client.idle_cycles c) (Psl.client s.1) →
       iterations envs s = Some s' → countdowns_nonneg s'.1)
  ∧ (∀ env i psl,
       attach_succeeds env = true →
       Psl.idle_cycles (_attach env i psl) = PSL_IDLE_CYCLES)
  ∧ (∀ psl stopped,
       Psl.state psl ≠ PSLSE_IDLE →
       Psl.idle_cycles (loop_head (psl, stopped)).1 = PSL_IDLE_CYCLES)
  ∧ (∀ env i psl c b,
       Psl.client psl !! i = Some c →
       0 < ClientEnv.r_poll env → ClientEnv.r_get_byte env = Some b →
       Client.idle_cycles (client_at i (_handle_client env i psl))
       = PSL_IDLE_CYCLES)
  ∧ (∀ env i psl c,
       Psl.client psl !! i = Some c →
       Client.mmio_access c ≠ None →
       ¬ (0 < ClientEnv.r_poll env ∧ ClientEnv.r_get_byte env = None) →
       Client.idle_cycles (client_at i (_handle_client env i psl))
       = PSL_IDLE_CYCLES).
Proof.
  intros max_nonneg. split; [|split; [|split; [|split; [|split]]]].
  - by apply reachable_nonneg.
  - intros envs s s' Hs Hc Hit. apply reachable_nonneg; [done|].
    eapply iterations_reachable; [|done]. by apply reach_start.
  - intros env i psl Ha. by rewrite attach_idle_cycles, Ha.
  - intros psl stopped Hst. simpl.
    destruct (decide (Psl.state psl ≠ PSLSE_IDLE)); [|done]. by destruct stopped.
  - intros env i psl c b E Hpoll Hb.
    pose proof (lookup_lt_Some _ _ _ E).
    rewrite (handle_client_lookup _ _ _ _ E). cbv zeta.
    rewrite (proj2 (Z.ltb_lt _ _) Hpoll), Hb. by rewrite at_slot_client_at.
  - intros env i psl c E Hm Hrel.
    pose proof (lookup_lt_Some _ _ _ E).
    rewrite (handle_client_lookup _ _ _ _ E). cbv zeta.
    destruct (0 <? ClientEnv.r_poll env) eqn:Hpoll.
    + destruct (ClientEnv.r_get_byte env) as [b|] eqn:Hb.
      * by rewrite at_slot_client_at.
      * exfalso. apply Hrel. split; [by apply Z.ltb_lt|done].
    + rewrite at_slot_client_at by done. unfold mmio_done_client.
      by destruct (Client.mmio_access c).
Qed.

End CountdownResets.

(** ** Session creation *)

Section Creation.
Context `{K : Constants}.

Lemma valid_id_chars (l : list Z) :
  (Z.of_nat (length l) =? 6) = true →
  ∃ a b c d e f, l = [a; b; c; d; e; f].
Proof.
  intros H%Z.eqb_eq.
  destruct l as [|a [|b [|c [|d [|e [|f [|g l]]]]]]]; simpl in H; try lia.
  by exists a, b, c, d, e, f.
Qed.

(** The three tests of lines 300-311 accept exactly the names
    afu<M>.<m> with both digits between 0 and 3. *)
Lemma valid_id_spec id :
  valid_id id = true
  ↔ ∃ M m, 0 ≤ M ≤ 3 ∧ 0 ≤ m ≤ 3
           ∧ c_chars id = [97; 102; 117; 48 + M; 46; 48 + m].
Proof.
  unfold valid_id, strlen, strncmp_ne, char_at.
  change (c_chars "afu") with [97; 102; 117].
  generalize (c_chars id). intros l. split.
  - rewrite !andb_true_iff, !negb_true_iff, !orb_false_iff, !negb_false_iff.
    intros [[[[Hlen Hpre] Hdot] [Hlo3 Hhi3]] [Hlo5 Hhi5]].
    destruct (valid_id_chars l Hlen) as (a & b & c & d & e & f & ->).
    simpl in *. apply bool_decide_eq_false in Hpre.
    apply dec_stable in Hpre. injection Hpre as -> -> ->.
    apply Z.eqb_eq in Hdot as ->.
    apply Z.ltb_ge in Hlo3, Hhi3, Hlo5, Hhi5.
    exists (d - 48), (f - 48). repeat split; try lia.
    by replace (48 + (d - 48)) with d by lia;
       replace (48 + (f - 48)) with f by lia.
  - intros (M & m & HM & Hm & ->). simpl.
    rewrite !andb_true_iff, !negb_true_iff, !orb_false_iff.
    repeat split; apply Z.ltb_ge; lia.
Qed.

Lemma valid_id_tests id :
  valid_id id = true →
  negb (strlen id =? 6) || strncmp_ne id "afu" 3 || negb (char_at id 4 =? 46)
  = false
  ∧ (char_at id 3 <? 48) || (51 <? char_at id 3) = false
  ∧ (char_at id 5 <? 48) || (51 <? char_at id 5) = false.
Proof. unfold valid_id. rewrite !andb_true_iff, !negb_true_iff. tauto. Qed.

(** C4.  The three tests of lines 300-311 let exactly the six-character
    names afu<M>.<m> with M and m in 0..3 pass.  A name that fails the
    first test (length, prefix or separator) is rejected as the claim
    says: creation returns -1 and leaves the registry as it was, and all
    it does once the session record is allocated is print the invalid-name
    warning and free the record again.  A name of the right shape with a
    digit out of range is not: the warning of line 305 or 309 hands the
    character [id[3]] to [%s], the call has no defined behaviour, and
    creation never reaches [init_fail], with the session record still
    allocated.  For a conforming name, with the four allocations
    succeeding, creation returns 0 exactly when the connection to the AFU,
    the three subsystem initialisations, the credit programming and the
    thread creation all succeed; the new session is then the head of the
    registry, linked in front of the old head; otherwise creation returns
    -1 and the registry is as it was. *)
Theorem psl_init_validates_identity env reg id host port :
  let r := psl_init env reg id host port in
  (valid_id id = true
   ↔ ∃ M m, 0 ≤ M ≤ 3 ∧ 0 ≤ m ≤ 3
            ∧ c_chars id = [97; 102; 117; 48 + M; 46; 48 + m])
  ∧ (InitEnv.r_malloc_psl env = None ∨ name_shape id = false →
       InitResult.ret r = Returns (-1)
       ∧ InitResult.registry r = reg
       ∧ (is_Some (InitEnv.r_malloc_psl env) →
            InitResult.log r = [Malloc R_psl; Warn_invalid_name; Free R_psl]
            ∧ live env (InitResult.log r) = []))
  ∧ (is_Some (InitEnv.r_malloc_psl env) →
     name_shape id = true → valid_id id = false →
       InitResult.ret r = Undefined
       ∧ InitResult.registry r = reg
       ∧ (InitResult.log r = [Malloc R_psl; Warn_invalid_major]
          ∨ InitResult.log r = [Malloc R_psl; Warn_invalid_minor])
       ∧ live env (InitResult.log r) = [R_psl])
  ∧ (∀ p,
     valid_id id = true →
     InitEnv.r_malloc_psl env = Some p →
     InitEnv.r_malloc_name env = true →
     InitEnv.r_malloc_host env = true →
     InitEnv.r_malloc_afu_event env = true →
     let ok := InitEnv.r_psl_init_afu_event env && InitEnv.r_job_init env
               && InitEnv.r_mmio_init env && InitEnv.r_cmd_init env
               && InitEnv.r_psl_aux1_change env
               && (InitEnv.r_pthread_create env =? 0) in
     (InitResult.ret r = Returns 0 ↔ ok = true)
     ∧ (ok = true →
          Registry.head (InitResult.registry r) = Some p
          ∧ Registry.sessions (InitResult.registry r) !! p
            = Some (Session.mk id host port (dbg_id_of id) PSL_IDLE_CYCLES
                               None (Registry.head reg))
          ∧ ∀ h, Registry.head reg = Some h → h ≠ p →
              Registry.sessions (InitResult.registry r) !! h
              = Session.set_prev (Some p) <$> Registry.sessions reg !! h)
     ∧ (ok = false →
          InitResult.ret r = Returns (-1) ∧ InitResult.registry r = reg)).
Proof.
  intros r. split; [apply valid_id_spec|]. split; [|split].
  - subst r. unfold psl_init, name_shape.
    destruct (InitEnv.r_malloc_psl env) as [p|].
    + intros [Hn|Hshape]; [done|]. apply negb_false_iff in Hshape.
      rewrite Hshape. by repeat split.
    + intros _. split; [done|]. split; [done|]. by intros [? ?].
  - subst r. unfold psl_init, valid_id, name_shape. intros [p ->] Hshape.
    apply negb_true_iff in Hshape. rewrite Hshape. simpl.
    destruct ((char_at id 3 <? 48) || (51 <? char_at id 3)); simpl;
      [intros _; split; [done|]; split; [done|]; split; [by left|done]|].
    destruct ((char_at id 5 <? 48) || (51 <? char_at id 5)); simpl; [|done].
    intros _. split; [done|]. split; [done|]. split; [by right|done].
  - intros p Hv Hp Hn Hh Ha ok. subst r ok. unfold psl_init.
    destruct (valid_id_tests id Hv) as (-> & -> & ->).
    rewrite Hp, Hn, Hh, Ha. simpl.
    destruct (InitEnv.r_psl_init_afu_event env); simpl; [|by repeat split].
    destruct (InitEnv.r_job_init env); simpl; [|by repeat split].
    destruct (InitEnv.r_mmio_init env); simpl; [|by repeat split].
    destruct (InitEnv.r_cmd_init env); simpl; [|by repeat split].
    destruct (InitEnv.r_psl_aux1_change env); simpl; [|by repeat split].
    destruct (InitEnv.r_pthread_create env =? 0); simpl; [|by repeat split].
    split; [done|]. split; [|done]. intros _.
    split; [done|]. split; [by rewrite lookup_insert_eq|].
    intros h Hh' Hne. rewrite lookup_insert_ne by done.
    by rewrite Hh', lookup_alter_eq.
Qed.

(** Whatever makes [psl_init] fail, the blocks and the lock of the session
    itself are given back; what can stay behind are the subsystem records
    and their locks. *)
Lemma psl_init_failure_live env reg id host port x :
  InitResult.ret (psl_init env reg id host port) = Returns (-1) →
  x ∈ live env (InitResult.log (psl_init env reg id host port)) →
  x ∈ [R_job; L_job; R_mmio; L_mmio; R_cmd; L_cmd].
Proof.
  unfold psl_init.
  destruct env as [[p|] mn mh ma co jo mm cm au pt]; simpl;
    [|intros _ H; by apply not_elem_of_nil in H].
  destruct (negb (strlen id =? 6) || strncmp_ne id "afu" 3
            || negb (char_at id 4 =? 46)); simpl;
    [intros _ H; by apply not_elem_of_nil in H|].
  destruct ((char_at id 3 <? 48) || (51 <? char_at id 3)); simpl; [done|].
  destruct ((char_at id 5 <? 48) || (51 <? char_at id 5)); simpl; [done|].
  destruct mn, mh, ma, co, jo, mm, cm, au, (pt =? 0); simpl;
    intros Hret H; try done;
    match type of H with
    | _ ∈ ?l => let l' := eval vm_compute in l in change l with l' in H
    end;
    try (by apply not_elem_of_nil in H);
    rewrite ?elem_of_cons in *; tauto.
Qed.

(** Once [job_init] has succeeded, every later failure leaves the job
    record and its lock allocated. *)
Lemma psl_init_failure_keeps_job env reg id host port :
  valid_id id = true →
  is_Some (InitEnv.r_malloc_psl env) →
  InitEnv.r_malloc_name env = true →
  InitEnv.r_malloc_host env = true →
  InitEnv.r_malloc_afu_event env = true →
  InitEnv.r_psl_init_afu_event env = true →
  InitEnv.r_job_init env = true →
  InitResult.ret (psl_init env reg id host port) = Returns (-1) →
  R_job ∈ live env (InitResult.log (psl_init env reg id host port))
  ∧ L_job ∈ live env (InitResult.log (psl_init env reg id host port)).
Proof.
  unfold psl_init. intros Hv [p Hp].
  destruct (valid_id_tests id Hv) as (-> & -> & ->).
  destruct env as [q mn mh ma co jo mm cm au pt]; simpl in *. subst q.
  intros -> -> -> -> ->. simpl.
  destruct mm, cm, au, (pt =? 0); simpl; intros Hret; try done;
    match goal with
    | |- _ ∈ ?l ∧ _ => let l' := eval vm_compute in l in change l with l'
    end;
    rewrite !elem_of_cons; tauto.
Qed.

(** C5: what [psl_init] still holds when it reports failure.  With a
    well-formed name and a reachable AFU, a failure of [mmio_init] leaves
    the job record and its lock behind, and a failure of [pthread_create]
    leaves all three subsystem records and their locks behind; the
    registry is untouched in both cases. *)
Theorem psl_init_failure_keeps_subsystems :
  InitResult.ret (psl_init mmio_init_fails empty_registry "afu0.0" "localhost" 12345)
  = Returns (-1)
  ∧ live mmio_init_fails
      (InitResult.log
         (psl_init mmio_init_fails empty_registry "afu0.0" "localhost" 12345))
    = [R_job; L_job]
  ∧ InitResult.ret
      (psl_init pthread_create_fails empty_registry "afu0.0" "localhost" 12345)
    = Returns (-1)
  ∧ live pthread_create_fails
      (InitResult.log
         (psl_init pthread_create_fails empty_registry "afu0.0" "localhost" 12345))
    = [R_job; L_job; R_mmio; L_mmio; R_cmd; L_cmd]
  ∧ live all_succeed
      (InitResult.log
         (psl_init all_succeed empty_registry "afu0.0" "localhost" 12345))
    = [R_psl; R_name; R_host; L_psl; R_afu_event;
       R_job; L_job; R_mmio; L_mmio; R_cmd; L_cmd].
Proof. repeat split; reflexivity. Qed.

End Creation.

(** ** The theorems at work on concrete sessions *)


Lemma K0_quiescent b :
  b ≠ 5 → quiescent (K := K0) (idle_iteration b).
Proof.
  intros Hb. repeat split. intros i. unfold attaches. simpl.
  rewrite (proj2 (Z.eqb_neq _ _) Hb). reflexivity.
Defined.

Lemma free_ends_job_witness :
  Psl.client one_busy !! 0%nat = Some busy_client
  ∧ Job.state <$> Psl.jobs (_free (K := K0) 0 one_busy) !! 3%nat = Some PSLSE_DONE.
Proof.
  split; [reflexivity|].
  apply (free_ends_job (K := K0) 0 one_busy busy_client 3%nat (Job.mk PSLSE_RUNNING));
    reflexivity.
Defined.

Lemma free_idempotent_and_safe_witness :
  Psl.cmd_events (_free (K := K0) 0 one_busy) !! 7%nat = Some (CmdEvent.mk 7 1)
  ∧ Psl.client (_free (K := K0) 0 after_hang_up) !! 0%nat
    = Some (Client.mk (-1) None 0 0 None None None 0).
Proof.
  pose proof (free_idempotent_and_safe (K := K0) 0 one_busy busy_client eq_refl)
    as (_ & _ & Hforce).
  pose proof (free_idempotent_and_safe (K := K0) 0 after_hang_up
                (Client.mk (-1) None 0 20 None None None 0) eq_refl)
    as (_ & Hinvalid & _).
  split.
  - apply (Hforce 7%nat (CmdEvent.mk 2 0)); [reflexivity | reflexivity | simpl; lia].
  - apply Hinvalid. repeat split.
Defined.

(** The scenario of the design document: the client sends ATTACH and the
    eight bytes 01 00 00 00 00 00 00 00, the job subsystem is healthy. *)
Example attach_scenario :
  le64toh [1; 0; 0; 0; 0; 0; 0; 0] = 1
  ∧ Psl.trace (_attach (K := K0)
                 (ClientEnv.mk None 1 (Some 5) (Some [1; 0; 0; 0; 0; 0; 0; 0])
                               true None 0)
                 0 (Psl.set_idle_cycles 0 one_idle_client))
    = [Get_bytes 5 8 10000; Add_job 144 1; Put_bytes 5 [5]]
  ∧ Psl.idle_cycles (_attach (K := K0)
                       (ClientEnv.mk None 1 (Some 5) (Some [1; 0; 0; 0; 0; 0; 0; 0])
                                     true None 0)
                       0 (Psl.set_idle_cycles 0 one_idle_client))
    = 20.
Proof. repeat split; reflexivity. Qed.

Lemma read_resets_client_countdown_witness :
  Client.idle_cycles
    (client_at 0 (_handle_client (K := K0) (sends 255) 0 one_idle_client)) = 20.
Proof.
  assert (0 < ClientEnv.r_poll (sends 255)) as Hpoll by (simpl; lia).
  pose proof (read_resets_client_countdown (K := K0) (sends 255) 0 one_idle_client
                (client_of 1 0 None) 255 eq_refl Hpoll eq_refl) as [Hreset _].
  exact Hreset.
Defined.

Lemma detaching_client_is_still_served_witness :
  Handle_aerror (Some 7%nat)
  ∈ new_events one_detaching (client_slot (K := K0) (sends 11) 0 one_detaching)
  ∧ Client.valid
      (client_at 0 (client_slot (K := K0) (hangs_up 0) 0 one_detaching)) = 0
  ∧ puts (new_events one_drained (client_slot (K := K0) silent 0 one_drained))
    = [Put_bytes 5 [6]].
Proof.
  assert (PSL_IDLE_CYCLES (Constants := K0) ≠ 0) as HK by (simpl; lia).
  assert (Client.valid (client_of (-1) 5 (Some 7%nat)) < 0) as Hv by (simpl; lia).
  assert (Client.valid (client_of (-1) 0 None) < 0) as Hv0 by (simpl; lia).
  assert (0 < ClientEnv.r_poll (sends 11)) as Hpoll by (simpl; lia).
  assert (0 < ClientEnv.r_poll (hangs_up 0)) as Hpoll' by (simpl; lia).
  assert (ClientEnv.r_poll silent ≤ 0) as Hquiet by (simpl; lia).
  pose proof (detaching_client_is_still_served (K := K0) (sends 11) 0 one_detaching
                (client_of (-1) 5 (Some 7%nat)) HK eq_refl Hv) as [Hserved _].
  pose proof (detaching_client_is_still_served (K := K0) (hangs_up 0) 0
                one_detaching (client_of (-1) 5 (Some 7%nat)) HK eq_refl Hv)
    as (_ & _ & Hfailed & _).
  pose proof (detaching_client_is_still_served (K := K0) silent 0 one_drained
                (client_of (-1) 0 None) HK eq_refl Hv0)
    as (_ & _ & _ & Hdrained).
  destruct (Hserved 11 Hpoll eq_refl) as (_ & Hfail & _).
  split; [by apply Hfail|].
  split; [by apply Hfailed|].
  by apply Hdrained.
Defined.




Lemma countdowns_never_negative_witness :
  0 ≤ PSL_IDLE_CYCLES (Constants := K0)
  ∧ countdowns_nonneg (client_slot (K := K0) (sends 6) 0 one_idle_client).
Proof.
  assert (0 ≤ PSL_IDLE_CYCLES (Constants := K0)) as H by (simpl; lia).
  split; [exact H|].
  pose proof (countdowns_never_negative (K := K0) H) as [Hinv _].
  apply Hinv.
  apply reach_client_slot, reach_start; [reflexivity|].
  repeat constructor. simpl. lia.
Defined.

Lemma psl_init_validates_identity_witness :
  InitResult.ret
    (psl_init (K := K0) all_succeed empty_registry "afu0.0" "localhost" 12345)
  = Returns 0
  ∧ Registry.head
      (InitResult.registry
         (psl_init (K := K0) all_succeed empty_registry "afu0.0" "localhost" 12345))
    = Some 1%nat
  ∧ InitResult.ret
      (psl_init (K := K0) all_succeed empty_registry "cpu0.0" "localhost" 12345)
    = Returns (-1)
  ∧ InitResult.ret
      (psl_init (K := K0) all_succeed empty_registry "afu9.0" "localhost" 12345)
    = Undefined.
Proof.
  pose proof (psl_init_validates_identity (K := K0) all_succeed empty_registry
                "afu0.0" "localhost" 12345) as (_ & _ & _ & Hok).
  specialize (Hok 1%nat eq_refl eq_refl eq_refl eq_refl eq_refl)
    as (Hret & Hhead & _).
  pose proof (psl_init_validates_identity (K := K0) all_succeed empty_registry
                "cpu0.0" "localhost" 12345) as (_ & Hshape & _).
  pose proof (psl_init_validates_identity (K := K0) all_succeed empty_registry
                "afu9.0" "localhost" 12345) as (_ & _ & Hdigit & _).
  split; [by apply Hret|]. split; [by apply Hhead|].
  split; [apply Hshape; by right|].
  apply Hdigit; [by eexists | reflexivity | reflexivity].
Defined.

(** * Further properties of the session core *)

(** ** One client at a time *)

Section Isolation.
Context `{K : Constants}.

(** A pass over slot [i] leaves every other slot and the size of the table
    as they were. *)
Theorem client_slot_other_slots env i j psl :
  i ≠ j →
  Psl.client (client_slot env i psl) !! j = Psl.client psl !! j
  ∧ length (Psl.client (client_slot env i psl)) = length (Psl.client psl).
Proof.
  intros Hne. destruct (Psl.client psl !! i) as [c|] eqn:E;
    [|by rewrite client_slot_None].
  rewrite (client_slot_lookup _ _ _ _ E).
  destruct (Client.valid c =? 0); [done|]. cbv zeta.
  destruct (0 <? ClientEnv.r_poll env).
  - destruct (ClientEnv.r_get_byte env) as [b|].
    + by rewrite counted_or_released_lookup_ne, counted_or_released_length.
    + by rewrite at_slot_lookup_ne, at_slot_length.
  - by rewrite counted_or_released_lookup_ne, counted_or_released_length.
Qed.

Lemma client_slot_length env i psl :
  length (Psl.client (client_slot env i psl)) = length (Psl.client psl).
Proof.
  destruct (Psl.client psl !! i) as [c|] eqn:E;
    [|by rewrite client_slot_None].
  rewrite (client_slot_lookup _ _ _ _ E).
  destruct (Client.valid c =? 0); [done|]. cbv zeta.
  destruct (0 <? ClientEnv.r_poll env).
  - destruct (ClientEnv.r_get_byte env) as [b|].
    + by rewrite counted_or_released_length.
    + by rewrite at_slot_length.
  - by rewrite counted_or_released_length.
Qed.

End Isolation.

(** ** The life of a slot *)

Section Validity.
Context `{K : Constants}.

Lemma counted_or_released_client_at env i p c n es :
  (i < length (Psl.client p))%nat →
  client_at i (counted_or_released env i p c n es)
  = if (Client.valid c <? 0) && (Client.idle_cycles c =? 0)
    then freed c else count_client env c.
Proof.
  intros Hlt. unfold counted_or_released.
  destruct (_ && _); by rewrite at_slot_client_at.
Qed.

(** The validity of a slot only moves forward: [_psl_loop] takes it from
    attached to DETACHING (on a DETACH byte only) and from either to
    INVALID, never back, and it does nothing at all on an INVALID slot. *)
Theorem validity_one_way env i psl c :
  Psl.client psl !! i = Some c →
  (Client.valid c = 0 → client_slot env i psl = psl)
  ∧ (Client.valid (client_at i (client_slot env i psl)) = Client.valid c
     ∨ Client.valid (client_at i (client_slot env i psl)) = 0
     ∨ (Client.valid (client_at i (client_slot env i psl)) = -1
        ∧ 0 < ClientEnv.r_poll env
        ∧ ClientEnv.r_get_byte env = Some PSLSE_DETACH)).
Proof.
  intros E. pose proof (lookup_lt_Some _ _ _ E) as Hlt.
  rewrite (client_slot_lookup _ _ _ _ E). split.
  - by intros ->.
  - destruct (Client.valid c =? 0) eqn:Hv.
    { left. by rewrite (client_at_lookup _ _ _ E). }
    cbv zeta. destruct (0 <? ClientEnv.r_poll env) eqn:Hpoll.
    + destruct (ClientEnv.r_get_byte env) as [b|].
      * rewrite counted_or_released_client_at by done.
        destruct (_ && _); [right; by left|].
        rewrite count_client_valid, byte_client_valid, mmio_done_client_valid.
        destruct (b =? PSLSE_DETACH) eqn:Hb; [|by left].
        right. right. apply Z.eqb_eq in Hb as ->.
        split; [done|]. split; [by apply Z.ltb_lt|done].
      * right. left. rewrite at_slot_client_at by done.
        by rewrite count_client_valid.
    + rewrite counted_or_released_client_at by done.
      destruct (_ && _); [right; by left|].
      left. by rewrite count_client_valid, mmio_done_client_valid.
Qed.

End Validity.

Section Descriptors.
Context `{K : Constants}.

Lemma closes_app es es' : closes (es ++ es') = closes es ++ closes es'.
Proof. apply filter_app. Qed.

Lemma closes_cons e es :
  closes (e :: es) = (if is_close e then [e] else []) ++ closes es.
Proof.
  unfold closes. rewrite filter_cons. by destruct (is_close e).
Qed.

Lemma closes_mmio_done_events c : closes (mmio_done_events c) = [].
Proof. unfold mmio_done_events. by destruct (Client.mmio_access c). Qed.

Lemma closes_attach_events env fd : closes (attach_events env fd) = [].
Proof. unfold attach_events. by destruct (ClientEnv.r_get_wed env). Qed.

Lemma closes_byte_events env b c : closes (byte_events env b c) = [].
Proof.
  unfold byte_events. rewrite !closes_app.
  destruct (b =? PSLSE_ATTACH), (b =? PSLSE_MEM_FAILURE), (b =? PSLSE_MEM_SUCCESS),
    (b =? PSLSE_MMIO_MAP), (b =? PSLSE_MMIO_WRITE64), (b =? PSLSE_MMIO_READ64),
    (b =? PSLSE_MMIO_WRITE32), (b =? PSLSE_MMIO_READ32);
    by rewrite ?closes_attach_events.
Qed.

Lemma closes_free_events d c : closes (free_events d c) = [Close (Client.fd c)].
Proof. unfold free_events. by destruct (Client.ip c). Qed.

Lemma closes_detach_events d c : closes (detach_events d c) = [Close (Client.fd c)].
Proof. unfold detach_events, free_events. by destruct (Client.ip c). Qed.

Lemma count_client_fd env c : Client.fd (count_client env c) = Client.fd c.
Proof.
  unfold count_client. cbv zeta.
  by destruct (negb (ClientEnv.r_client_cmd env =? 0)),
              (negb (Client.idle_cycles c =? 0)).
Qed.

Lemma byte_client_fd env b c : Client.fd (byte_client env b c) = Client.fd c.
Proof.
  unfold byte_client. cbv zeta. destruct (byte_mmio env b);
    destruct (b =? PSLSE_DETACH), (b =? PSLSE_MEM_FAILURE), (b =? PSLSE_MEM_SUCCESS);
    reflexivity.
Qed.

Lemma closes_nil : closes [] = [].
Proof. done. Qed.

Lemma puts_cons e es :
  puts (e :: es) = (if is_put_bytes e then [e] else []) ++ puts es.
Proof. unfold puts. rewrite filter_cons. by destruct (is_put_bytes e). Qed.

Lemma puts_nil : puts [] = [].
Proof. done. Qed.

Lemma count_client_mem_access env c :
  Client.mem_access (count_client env c) = Client.mem_access c.
Proof.
  unfold count_client. cbv zeta.
  by destruct (negb (ClientEnv.r_client_cmd env =? 0)),
              (negb (Client.idle_cycles c =? 0)).
Qed.

Lemma count_client_mmio_access env c :
  Client.mmio_access (count_client env c) = Client.mmio_access c.
Proof.
  unfold count_client. cbv zeta.
  by destruct (negb (ClientEnv.r_client_cmd env =? 0)),
              (negb (Client.idle_cycles c =? 0)).
Qed.

(** Take [closes] and [puts] through the pieces of a trace. *)
Ltac walk_trace :=
  repeat first
    [ rewrite closes_app | rewrite closes_cons | rewrite closes_nil
    | rewrite closes_mmio_done_events | rewrite closes_byte_events
    | rewrite closes_free_events | rewrite closes_detach_events
    | rewrite puts_app | rewrite puts_cons | rewrite puts_nil
    | rewrite puts_mmio_done_events
    | rewrite puts_free_events | rewrite puts_detach_events ];
  cbn [is_close is_put_bytes app].

(** An attached client is never dropped for being idle: as long as its
    reads do not fail and it does not send DETACH, a pass keeps it attached
    on its descriptor and closes nothing, whatever its countdown. *)
Theorem attached_client_stays env i psl c :
  Psl.client psl !! i = Some c →
  0 < Client.valid c →
  ¬ (0 < ClientEnv.r_poll env ∧ ClientEnv.r_get_byte env = None) →
  ¬ (0 < ClientEnv.r_poll env ∧ ClientEnv.r_get_byte env = Some PSLSE_DETACH) →
  Client.valid (client_at i (client_slot env i psl)) = Client.valid c
  ∧ Client.fd (client_at i (client_slot env i psl)) = Client.fd c
  ∧ closes (new_events psl (client_slot env i psl)) = [].
Proof.
  intros E Hv Hfail Hdetach. pose proof (lookup_lt_Some _ _ _ E) as Hlt.
  rewrite (client_slot_lookup _ _ _ _ E).
  rewrite (proj2 (Z.eqb_neq _ _)) by lia. cbv zeta.
  destruct (0 <? ClientEnv.r_poll env) eqn:Hpoll.
  - apply Z.ltb_lt in Hpoll.
    destruct (ClientEnv.r_get_byte env) as [b|]; [|by destruct Hfail].
    assert ((b =? PSLSE_DETACH) = false) as Hb.
    { apply Z.eqb_neq. intros ->. by apply Hdetach. }
    unfold counted_or_released.
    rewrite byte_client_valid, Hb, mmio_done_client_valid.
    rewrite (proj2 (Z.ltb_ge _ _)) by lia. simpl.
    rewrite at_slot_client_at, at_slot_new_events by done.
    rewrite count_client_valid, byte_client_valid, Hb, mmio_done_client_valid.
    rewrite count_client_fd, byte_client_fd, mmio_done_client_fd.
    repeat split. by walk_trace.
  - unfold counted_or_released. rewrite mmio_done_client_valid.
    rewrite (proj2 (Z.ltb_ge _ _)) by lia. simpl.
    rewrite at_slot_client_at, at_slot_new_events by done.
    rewrite count_client_valid, mmio_done_client_valid.
    rewrite count_client_fd, mmio_done_client_fd.
    repeat split. by walk_trace.
Qed.

(** A client whose read fails is released on the spot, without a byte
    being written to it: its descriptor is closed exactly once, the slot is
    INVALID with no descriptor and nothing in flight, and the session
    countdown is not touched. *)
Theorem failed_read_releases env i psl c :
  Psl.client psl !! i = Some c →
  Client.valid c ≠ 0 →
  0 < ClientEnv.r_poll env →
  ClientEnv.r_get_byte env = None →
  let c' := client_at i (client_slot env i psl) in
  Client.valid c' = 0 ∧ Client.fd c' = -1
  ∧ Client.mem_access c' = None ∧ Client.mmio_access c' = None
  ∧ puts (new_events psl (client_slot env i psl)) = []
  ∧ closes (new_events psl (client_slot env i psl)) = [Close (Client.fd c)]
  ∧ Psl.idle_cycles (client_slot env i psl) = Psl.idle_cycles psl.
Proof.
  intros E Hv Hpoll Hb. pose proof (lookup_lt_Some _ _ _ E) as Hlt.
  rewrite (client_slot_lookup _ _ _ _ E).
  rewrite (proj2 (Z.eqb_neq _ _) Hv). cbv zeta.
  rewrite (proj2 (Z.ltb_lt _ _) Hpoll), Hb.
  rewrite at_slot_client_at, at_slot_free_base_new_events by done.
  rewrite count_client_valid, count_client_fd, count_client_mem_access,
    count_client_mmio_access.
  repeat split; walk_trace; by rewrite ?mmio_done_client_fd.
Qed.

End Descriptors.

Section References.
Context `{K : Constants}.

Lemma byte_mmio_cases env b :
  byte_mmio env b
  = if (b =? PSLSE_MMIO_WRITE64) || (b =? PSLSE_MMIO_READ64)
       || (b =? PSLSE_MMIO_WRITE32) || (b =? PSLSE_MMIO_READ32)
    then ClientEnv.r_handle_mmio env else None.
Proof.
  unfold byte_mmio.
  by destruct (b =? PSLSE_MMIO_WRITE64), (b =? PSLSE_MMIO_READ64),
              (b =? PSLSE_MMIO_WRITE32), (b =? PSLSE_MMIO_READ32).
Qed.

(** What reading a command byte does to the references a client holds.
    MEM_FAILURE and MEM_SUCCESS clear the memory access and no other byte
    touches it.  An MMIO read or write byte stores the handle that
    [handle_mmio] returns; when that is NULL, and for every other byte, the
    MMIO handle is the one the done-check at the top of the dispatcher
    left.  The descriptor, the address string, the job context and the
    addressing context are never changed. *)
Theorem byte_updates_references env i psl c b :
  Psl.client psl !! i = Some c →
  0 < ClientEnv.r_poll env →
  ClientEnv.r_get_byte env = Some b →
  let c' := client_at i (_handle_client env i psl) in
  let mmio_byte := (b =? PSLSE_MMIO_WRITE64) || (b =? PSLSE_MMIO_READ64)
                   || (b =? PSLSE_MMIO_WRITE32) || (b =? PSLSE_MMIO_READ32) in
  let checked := match Client.mmio_access c with
                 | Some _ => ClientEnv.r_handle_mmio_done env
                 | None => None
                 end in
  Client.mem_access c'
  = (if (b =? PSLSE_MEM_FAILURE) || (b =? PSLSE_MEM_SUCCESS)
     then None else Client.mem_access c)
  ∧ Client.mmio_access c'
    = (if mmio_byte
       then match ClientEnv.r_handle_mmio env with
            | Some m => Some m
            | None => checked
            end
       else checked)
  ∧ Client.fd c' = Client.fd c ∧ Client.ip c' = Client.ip c
  ∧ Client.job c' = Client.job c ∧ Client.context c' = Client.context c.
Proof.
  intros E Hpoll Hb. pose proof (lookup_lt_Some _ _ _ E) as Hlt.
  rewrite (handle_client_lookup _ _ _ _ E). cbv zeta.
  rewrite (proj2 (Z.ltb_lt _ _) Hpoll), Hb.
  rewrite at_slot_client_at by done.
  unfold byte_client. rewrite byte_mmio_cases. cbv zeta.
  unfold mmio_done_client. clear E.
  destruct c as [fd ip v idle mem [mmio|] job ctx];
    destruct ((b =? PSLSE_MMIO_WRITE64) || (b =? PSLSE_MMIO_READ64)
              || (b =? PSLSE_MMIO_WRITE32) || (b =? PSLSE_MMIO_READ32)),
      (ClientEnv.r_handle_mmio env),
      (b =? PSLSE_DETACH), (b =? PSLSE_MEM_FAILURE), (b =? PSLSE_MEM_SUCCESS);
    repeat split.
Qed.

End References.

(** ** Clock edges *)

Section Edges.
Context `{K : Constants}.

Lemma clock_edges_app es es' :
  clock_edges (es ++ es') = (clock_edges es + clock_edges es')%nat.
Proof. unfold clock_edges. by rewrite filter_app, length_app. Qed.

Lemma clock_edges_client_side es :
  Forall (λ e, client_side e = true) es → clock_edges es = 0%nat.
Proof.
  unfold clock_edges. induction 1 as [|e es He _ IH]; [done|].
  rewrite filter_cons. case_decide as Heq; [by subst|done].
Qed.

Lemma clock_edges_clocking cmd n : clock_edges (clocking_events cmd n) = 1%nat.
Proof. unfold clocking_events, afu_events. by destruct (0 <? n), cmd. Qed.

Lemma new_events_trans P a b c :
  extends P a b → extends P b c →
  new_events a c = new_events a b ++ new_events b c.
Proof.
  intros Hab Hbc.
  destruct (extends_new_events _ _ _ Hab) as [Eab _].
  destruct (extends_new_events _ _ _ Hbc) as [Ebc _].
  apply new_events_app. by rewrite Ebc, Eab, app_assoc.
Qed.

(** One iteration of an IDLE session whose countdown runs: exactly one
    clock edge, and the countdown goes down only when both queues are
    empty. *)
Lemma clockable_clocked env psl stopped :
  clockable env → Psl.idle_cycles psl ≠ 0 →
  ∃ psl',
    iteration env (psl, stopped) = Continue (psl', stopped)
    ∧ Psl.idle_cycles psl'
      = (if LoopEnv.r_job_null env && LoopEnv.r_mmio_null env
         then int_dec (Psl.idle_cycles psl) else Psl.idle_cycles psl)
    ∧ Psl.trace psl' = Psl.trace psl ++ new_events psl psl'
    ∧ clock_edges (new_events psl psl') = 1%nat.
Proof.
  intros (Hst & Hev & Ha) Hidle.
  unfold iteration, loop_head, clock_phase. simpl. rewrite Hst. simpl.
  destruct (decide (Psl.idle_cycles psl ≠ 0)) as [_|]; [|done].
  rewrite (proj2 (Z.ltb_ge _ _) Hev).
  eexists. split; [reflexivity|].
  match goal with
  | |- context [client_phase env ?x] =>
      destruct (extends_new_events _ _ _ (client_phase_extends env x)) as [Htr F];
      pose proof (clock_edges_client_side _ F) as Hedges;
      revert Htr Hedges;
      generalize (new_events x (client_phase env x)); intros es Htr Hedges
  end.
  assert (Psl.trace (client_phase env
            (when (LoopEnv.r_job_null env && LoopEnv.r_mmio_null env)
               (λ psl, Psl.set_idle_cycles (int_dec (Psl.idle_cycles psl)) psl)
               (emit [Send_job; Send_mmio]
                  (when (0 <? LoopEnv.r_event env) _handle_afu
                     (emit [Mutex_lock; Psl_signal_afu_model;
                            Psl_get_afu_events; Mutex_unlock]
                        (Psl.set_state PSLSE_IDLE psl))))))
          = Psl.trace psl
            ++ clocking_events (Psl.cmd psl) (LoopEnv.r_event env) ++ es) as Hall.
  { rewrite Htr. unfold clocking_events.
    destruct (LoopEnv.r_job_null env && LoopEnv.r_mmio_null env),
      (0 <? LoopEnv.r_event env); simpl;
      rewrite ?handle_afu_trace; simpl; by rewrite <- ?app_assoc. }
  split; [|split].
  - rewrite client_phase_idle_cycles by done.
    destruct (LoopEnv.r_job_null env && LoopEnv.r_mmio_null env),
      (0 <? LoopEnv.r_event env); simpl; by rewrite ?handle_afu_idle_cycles.
  - by rewrite (new_events_app _ _ _ Hall).
  - rewrite (new_events_app _ _ _ Hall), clock_edges_app, clock_edges_clocking.
    by rewrite Hedges.
Qed.

(** One iteration of an IDLE session whose countdown is zero: no clock
    edge, whatever the transport would report. *)
Lemma idle_gated env psl stopped :
  LoopEnv.r_state env = PSLSE_IDLE →
  (∀ i, attaches (LoopEnv.r_client env i) = false) →
  Psl.idle_cycles psl = 0 →
  ∃ psl',
    iteration env (psl, stopped) = Continue (psl', true)
    ∧ Psl.idle_cycles psl' = 0
    ∧ Psl.trace psl' = Psl.trace psl ++ new_events psl psl'
    ∧ clock_edges (new_events psl psl') = 0%nat.
Proof.
  intros Hst Ha Hidle.
  unfold iteration, loop_head, clock_phase. simpl. rewrite Hst. simpl.
  destruct (decide (Psl.idle_cycles psl ≠ 0)) as [|_]; [done|].
  eexists. split; [reflexivity|].
  match goal with
  | |- context [client_phase env ?x] =>
      destruct (extends_new_events _ _ _ (client_phase_extends env x)) as [Htr F];
      pose proof (clock_edges_client_side _ F) as Hedges;
      revert Htr Hedges;
      generalize (new_events x (client_phase env x)); intros es Htr Hedges
  end.
  assert (Psl.trace (client_phase env
            (emit [Ns_delay 1000000]
               (if stopped then Psl.set_state PSLSE_IDLE psl
                else emit [Info_stopping] (Psl.set_state PSLSE_IDLE psl))))
          = Psl.trace psl
            ++ ((if stopped then [] else [Info_stopping]) ++ [Ns_delay 1000000])
            ++ es) as Hall.
  { rewrite Htr. destruct stopped; simpl; by rewrite <- ?app_assoc. }
  split; [|split].
  - rewrite client_phase_idle_cycles by done. by destruct stopped.
  - by rewrite (new_events_app _ _ _ Hall).
  - rewrite (new_events_app _ _ _ Hall), clock_edges_app, Hedges.
    by destruct stopped.
Qed.

(** The clocking part of the loop over any number of iterations of an IDLE
    session. *)
Lemma clockable_iterations envs :
  Forall clockable envs →
  ∀ s,
  ∃ s', iterations envs s = Some s'
        ∧ Psl.idle_cycles s'.1 = countdown_after envs (Psl.idle_cycles s.1)
        ∧ Psl.trace s'.1 = Psl.trace s.1 ++ new_events s.1 s'.1
        ∧ clock_edges (new_events s.1 s'.1)
          = edges_after envs (Psl.idle_cycles s.1).
Proof.
  induction 1 as [|env envs Hc _ IH]; intros [psl stopped].
  - exists (psl, stopped). simpl. unfold new_events.
    rewrite drop_all. by rewrite app_nil_r.
  - simpl. case_bool_decide as Hz.
    + destruct Hc as (Hst & _ & Ha).
      destruct (idle_gated env psl stopped Hst Ha Hz)
        as (psl1 & Hit & Hidle & Htr & Hedges).
      destruct (IH (psl1, true)) as (s' & Hits & Hidle' & Htr' & Hedges').
      simpl in *. exists s'. rewrite Hit. split; [done|].
      rewrite Hidle', Hidle. split; [done|].
      assert (Psl.trace s'.1
              = Psl.trace psl ++ new_events psl psl1 ++ new_events psl1 s'.1) as Hall.
      { by rewrite Htr', Htr at 1; rewrite <- app_assoc. }
      split; [by rewrite (new_events_app _ _ _ Hall)|].
      rewrite (new_events_app _ _ _ Hall), clock_edges_app, Hedges, Hedges', Hidle.
      simpl. by destruct envs; simpl; rewrite ?bool_decide_eq_true_2.
    + destruct (clockable_clocked env psl stopped Hc Hz)
        as (psl1 & Hit & Hidle & Htr & Hedges).
      destruct (IH (psl1, stopped)) as (s' & Hits & Hidle' & Htr' & Hedges').
      simpl in *. exists s'. rewrite Hit. split; [done|].
      rewrite Hidle', Hidle. split; [done|].
      assert (Psl.trace s'.1
              = Psl.trace psl ++ new_events psl psl1 ++ new_events psl1 s'.1) as Hall.
      { by rewrite Htr', Htr at 1; rewrite <- app_assoc. }
      split; [by rewrite (new_events_app _ _ _ Hall)|].
      by rewrite (new_events_app _ _ _ Hall), clock_edges_app, Hedges, Hedges', Hidle.
Qed.

Lemma outstanding_after envs c :
  Forall outstanding envs → c ≠ 0 →
  countdown_after envs c = c ∧ edges_after envs c = length envs.
Proof.
  induction 1 as [|env envs Ho _ IH]; intros Hc; [done|].
  simpl. unfold outstanding in Ho.
  rewrite bool_decide_eq_false_2, Ho by done.
  destruct (IH Hc) as [-> ->]. done.
Qed.

Lemma empty_after envs c :
  Forall (λ env, LoopEnv.r_job_null env && LoopEnv.r_mmio_null env = true) envs →
  0 ≤ c →
  countdown_after envs c = Z.max 0 (c - Z.of_nat (length envs))
  ∧ edges_after envs c = Nat.min (Z.to_nat c) (length envs).
Proof.
  intros H. revert c. induction H as [|env envs He _ IH]; intros c Hc.
  - simpl. split; lia.
  - simpl. rewrite He. case_bool_decide as Hz.
    + subst c. destruct (IH 0) as [-> _]; [lia|]. split; lia.
    + rewrite int_dec_eq by lia.
      destruct (IH (c - 1)) as [-> ->]; [lia|]. split; lia.
Qed.

(** While work is outstanding in the job or the MMIO queue, an IDLE
    session whose countdown runs keeps its countdown and signals one clock
    edge in every iteration, however many iterations that takes. *)
Theorem busy_session_keeps_clocking envs s :
  Forall (λ env, clockable env ∧ outstanding env) envs →
  Psl.idle_cycles s.1 ≠ 0 →
  ∃ s', iterations envs s = Some s'
        ∧ Psl.idle_cycles s'.1 = Psl.idle_cycles s.1
        ∧ clock_edges (new_events s.1 s'.1) = length envs.
Proof.
  intros H Hc.
  assert (Forall clockable envs) as Hcl.
  { eapply Forall_impl; [exact H|]. by intros env [? ?]. }
  assert (Forall outstanding envs) as Ho.
  { eapply Forall_impl; [exact H|]. by intros env [? ?]. }
  destruct (clockable_iterations envs Hcl s) as (s' & Hits & Hidle & _ & Hedges).
  destruct (outstanding_after envs _ Ho Hc) as [Hsame Hlen].
  exists s'. by rewrite Hidle, Hedges, Hsame, Hlen.
Qed.

(** Once the session is IDLE with both queues empty, the accelerator gets
    exactly as many further clock edges as the countdown holds, one per
    iteration, and none after that. *)
Theorem idle_session_clock_edges envs s :
  Forall (λ env, quiescent env ∧ 0 ≤ LoopEnv.r_event env) envs →
  0 ≤ Psl.idle_cycles s.1 →
  ∃ s', iterations envs s = Some s'
        ∧ clock_edges (new_events s.1 s'.1)
          = Nat.min (Z.to_nat (Psl.idle_cycles s.1)) (length envs).
Proof.
  intros H Hc.
  assert (Forall clockable envs) as Hcl.
  { eapply Forall_impl; [exact H|]. intros env [(Hst & _ & _ & Ha) Hev].
    by repeat split. }
  assert (Forall (λ env, LoopEnv.r_job_null env && LoopEnv.r_mmio_null env = true)
                 envs) as He.
  { eapply Forall_impl; [exact H|]. intros env [(_ & -> & -> & _) _]. done. }
  destruct (clockable_iterations envs Hcl s) as (s' & Hits & _ & _ & Hedges).
  destruct (empty_after envs _ He Hc) as [_ Hmin].
  exists s'. by rewrite Hedges, Hmin.
Qed.

End Edges.

(** ** Leaving the loop *)

Section Leaving.
Context `{K : Constants}.

(** A transport error ends the loop before any client is looked at and
    before the countdown is taken down; but only a session that clocks
    notices it: with the countdown at zero in the IDLE state the iteration
    sleeps and turns to the clients, makes no call to the transport, and
    runs to its end. *)
Theorem transport_error_leaves_loop env psl stopped :
  LoopEnv.r_event env < 0 →
  (LoopEnv.r_state env = PSLSE_RUNNING → PSL_IDLE_CYCLES ≠ 0 →
     iteration env (psl, stopped)
     = Break (emit ((if stopped then [Info_clocking] else [])
                    ++ [Mutex_lock; Psl_signal_afu_model; Psl_get_afu_events;
                        Mutex_unlock])
                (Psl.set_idle_cycles PSL_IDLE_CYCLES
                   (Psl.set_state PSLSE_RUNNING psl))))
  ∧ (LoopEnv.r_state env = PSLSE_IDLE → Psl.idle_cycles psl ≠ 0 →
       iteration env (psl, stopped)
       = Break (emit [Mutex_lock; Psl_signal_afu_model; Psl_get_afu_events;
                      Mutex_unlock]
                  (Psl.set_state PSLSE_IDLE psl)))
  ∧ (LoopEnv.r_state env = PSLSE_IDLE → Psl.idle_cycles psl = 0 →
       ∃ psl' es,
         iteration env (psl, stopped) = Continue (psl', true)
         ∧ new_events psl psl'
           = (if stopped then [] else [Info_stopping])
             ++ [Ns_delay 1000000] ++ es
         ∧ Forall (λ e, client_side e = true) es
         ∧ (Psl_get_afu_events ∉ new_events psl psl')
         ∧ (Psl_signal_afu_model ∉ new_events psl psl')).
Proof.
  intros Hev. apply Z.ltb_lt in Hev. repeat split.
  - intros Hst HK. unfold iteration, loop_head, clock_phase. simpl.
    rewrite Hst. simpl.
    destruct stopped; simpl;
      (destruct (decide (PSL_IDLE_CYCLES ≠ 0)) as [_|]; [|done]);
      rewrite Hev; f_equal; unfold emit; simpl;
      by rewrite <- ?app_assoc.
  - intros Hst Hidle. unfold iteration, loop_head, clock_phase. simpl.
    rewrite Hst. simpl.
    destruct (decide (Psl.idle_cycles psl ≠ 0)) as [_|]; [|done].
    by rewrite Hev.
  - intros Hst Hidle.
    destruct (stopped_iteration env psl stopped Hst Hidle)
      as (x & es & Hit & _ & _ & Hnew & F).
    exists (client_phase env x), es. split; [done|]. split; [done|].
    split; [done|].
    assert (∀ e, client_side e = false → e ≠ Info_stopping →
                 e ≠ Ns_delay 1000000 →
                 e ∉ new_events psl (client_phase env x)) as Hnot.
    { intros e He H1 H2. rewrite Hnew, !elem_of_app.
      intros [Hin|[Hin|Hin]].
      - destruct stopped; [by apply not_elem_of_nil in Hin|].
        by apply list_elem_of_singleton in Hin.
      - by apply list_elem_of_singleton in Hin.
      - rewrite Forall_forall in F. apply F in Hin. congruence. }
    split; by apply Hnot.
Qed.

Lemma disconnect_fold_trace cs psl :
  Psl.trace
    (foldl (λ psl c, when (negb (Client.valid c =? 0)) (emit [Close (Client.fd c)]) psl)
           psl cs)
  = Psl.trace psl
    ++ ((λ c, Close (Client.fd c)) <$> filter (λ c, Client.valid c ≠ 0) cs).
Proof.
  revert psl. induction cs as [|c cs IH]; intros psl; simpl.
  - by rewrite app_nil_r.
  - rewrite IH, filter_cons.
    destruct (Client.valid c =? 0) eqn:Hv; simpl.
    + apply Z.eqb_eq in Hv. by rewrite decide_False by (by intros ?).
    + apply Z.eqb_neq in Hv. rewrite decide_True by done. simpl.
      by rewrite <- app_assoc.
Qed.

Lemma disconnect_fold_forget cs psl :
  forget_trace
    (foldl (λ psl c, when (negb (Client.valid c =? 0)) (emit [Close (Client.fd c)]) psl)
           psl cs)
  = forget_trace psl.
Proof.
  revert psl. induction cs as [|c cs IH]; intros psl; simpl; [done|].
  rewrite IH. by destruct (Client.valid c =? 0).
Qed.

(** However the worker leaves its loop, it then closes the descriptor of
    every slot that is not INVALID, DETACHING ones included, in slot order,
    and does nothing else: no byte is written and the client records stay
    as they are. *)
Theorem leaving_closes_every_client envs s psl' :
  _psl_loop envs s = Some psl' →
  ∃ psl, forget_trace psl' = forget_trace psl
         ∧ Psl.trace psl'
           = Psl.trace psl
             ++ ((λ c, Close (Client.fd c))
                 <$> filter (λ c, Client.valid c ≠ 0) (Psl.client psl))
         ∧ ∃ env s0, iteration env s0 = Break psl ∨ iteration env s0 = Exit psl.
Proof.
  revert s. induction envs as [|env envs IH]; intros s; simpl; [done|].
  destruct (iteration env s) as [s1|psl|psl] eqn:E.
  - apply IH.
  - intros [= <-]. exists psl. split; [apply disconnect_fold_forget|].
    split; [apply disconnect_fold_trace|]. exists env, s. by left.
  - intros [= <-]. exists psl. split; [apply disconnect_fold_forget|].
    split; [apply disconnect_fold_trace|]. exists env, s. by right.
Qed.

End Leaving.

(** ** Slots without a client *)

Section NoClients.
Context `{K : Constants}.

Lemma client_slot_invalid env i psl :
  Forall (λ c, Client.valid c = 0) (Psl.client psl) →
  client_slot env i psl = psl.
Proof.
  intros H. rewrite client_slot_unfold. unfold client_at.
  destruct (Psl.client psl !! i) as [c|] eqn:E; simpl; [|done].
  by rewrite (Forall_lookup_1 _ _ _ _ H E).
Qed.

(** A session all of whose slots are INVALID makes no call on behalf of a
    client: the pass over the table changes nothing and records nothing. *)
Theorem no_clients_no_calls env psl :
  Forall (λ c, Client.valid c = 0) (Psl.client psl) →
  client_phase env psl = psl.
Proof.
  intros H. unfold client_phase.
  generalize (seq 0 (Psl.max_clients psl)). intros idxs.
  induction idxs as [|i idxs IH]; [done|].
  simpl. by rewrite client_slot_invalid.
Qed.

End NoClients.

(** ** The countdowns stay below the maximum *)

Section Bounded.
Context `{K : Constants}.
Hypothesis max_nonneg : 0 ≤ PSL_IDLE_CYCLES.

Lemma within_upd i f psl :
  (∀ c, 0 ≤ Client.idle_cycles c ≤ PSL_IDLE_CYCLES →
        0 ≤ Client.idle_cycles (f c) ≤ PSL_IDLE_CYCLES) →
  countdowns_within psl → countdowns_within (upd_client i f psl).
Proof.
  intros Hf [Hs Hc]. split; [by rewrite upd_client_idle_cycles|].
  by apply (upd_client_Forall (λ c, 0 ≤ Client.idle_cycles c ≤ PSL_IDLE_CYCLES)).
Qed.

Lemma within_attach env i psl :
  countdowns_within psl → countdowns_within (_attach env i psl).
Proof.
  intros [Hs Hc]. split.
  - rewrite attach_idle_cycles. destruct (attach_succeeds env); lia.
  - by rewrite attach_client.
Qed.

Lemma within_free i psl :
  countdowns_within psl → countdowns_within (_free i psl).
Proof.
  intros [Hs Hc]. split; [by rewrite free_idle_cycles|].
  rewrite free_client.
  apply (upd_client_Forall (λ c, 0 ≤ Client.idle_cycles c ≤ PSL_IDLE_CYCLES));
    [|done].
  intros c _. simpl. lia.
Qed.

Lemma within_mmio_branch t env i rnw dw (s : Psl.t * option ptr) :
  countdowns_within s.1 →
  countdowns_within (when t (mmio_branch env i rnw dw) s).1.
Proof. by destruct t. Qed.

Lemma within_reset i psl :
  countdowns_within psl →
  countdowns_within (upd_client i (Client.set_idle_cycles PSL_IDLE_CYCLES) psl).
Proof. apply within_upd. intros c _. simpl. lia. Qed.

Lemma within_handle_client env i psl :
  countdowns_within psl → countdowns_within (_handle_client env i psl).
Proof.
  intros H. unfold _handle_client.
  set (psl1 := match Client.mmio_access (client_at i psl) with
               | Some _ => _
               | None => psl
               end).
  assert (countdowns_within psl1) as H1.
  { unfold psl1. destruct (Client.mmio_access (client_at i psl)); [|done].
    cbv zeta. apply within_upd; [done|].
    change (countdowns_within
              (upd_client i (Client.set_idle_cycles PSL_IDLE_CYCLES) psl)).
    by apply within_reset. }
  clearbody psl1. cbv zeta.
  destruct (0 <? ClientEnv.r_poll env); [|done].
  destruct (ClientEnv.r_get_byte env) as [b|]; [|by apply within_free].
  match goal with
  | |- countdowns_within (let '(psl, mmio) := ?s in _) =>
      assert (countdowns_within s.1) as Hs; [|destruct s as [psl2 mmio]]
  end.
  { repeat apply within_mmio_branch. simpl.
    repeat (apply (nonneg_when countdowns_within); [intros ? ?|]);
      repeat first [ apply within_upd; [by (intros ? ?; simpl; lia) || done|]
                   | apply within_attach
                   | assumption ]. }
  simpl in Hs. apply within_reset.
  destruct mmio; [by apply within_upd|done].
Qed.

Lemma within_count_down i psl :
  countdowns_within psl →
  countdowns_within
    (when (negb (Client.idle_cycles (client_at i psl) =? 0))
       (upd_client i (λ c, Client.set_idle_cycles (int_dec (Client.idle_cycles c)) c))
       psl).
Proof.
  intros [Hs Hc]. destruct (Client.idle_cycles (client_at i psl) =? 0) eqn:Hz;
    [done|]. simpl. apply Z.eqb_neq in Hz.
  split; [by rewrite upd_client_idle_cycles|].
  unfold upd_client. destruct (Psl.client psl !! i) as [c|] eqn:E; [|done].
  simpl. apply Forall_insert; [done|]. simpl.
  rewrite (client_at_lookup _ _ _ E) in Hz.
  pose proof (Forall_lookup_1 _ _ _ _ Hc E) as Hpos. simpl in Hpos.
  rewrite int_dec_eq by lia. lia.
Qed.

Lemma within_client_slot env i psl :
  countdowns_within psl → countdowns_within (client_slot env i psl).
Proof.
  intros H. rewrite client_slot_unfold.
  destruct (Client.valid (client_at i psl) =? 0); [done|].
  apply (within_handle_client env i) in H. revert H.
  generalize (_handle_client env i psl). intros psl1 H1.
  unfold detach_or_count. destruct (_ && _).
  - by apply within_free.
  - cbv zeta. apply (nonneg_when countdowns_within).
    + intros x Hx. by apply within_reset.
    + change (countdowns_within
                (when (negb (Client.idle_cycles (client_at i psl1) =? 0))
                   (upd_client i
                      (λ c, Client.set_idle_cycles (int_dec (Client.idle_cycles c)) c))
                   psl1)).
      by apply within_count_down.
Qed.

Lemma within_client_phase env psl :
  countdowns_within psl → countdowns_within (client_phase env psl).
Proof.
  unfold client_phase. generalize (seq 0 (Psl.max_clients psl)). intros idxs.
  revert psl. induction idxs as [|i idxs IH]; intros psl H; [done|].
  simpl. by apply IH, within_client_slot.
Qed.

Lemma within_iteration env s s' :
  countdowns_within s.1 → iteration env s = Continue s' → countdowns_within s'.1.
Proof.
  destruct s as [psl stopped]. intros [Hs Hc]. simpl in Hs, Hc.
  unfold iteration, loop_head, clock_phase. simpl.
  destruct (decide (LoopEnv.r_state env = PSLSE_DONE)); [done|].
  destruct (decide (LoopEnv.r_state env ≠ PSLSE_IDLE)).
  - destruct stopped; simpl;
      (destruct (decide (PSL_IDLE_CYCLES ≠ 0)) as [Hnz|];
       [destruct (LoopEnv.r_event env <? 0); [done|]|]);
      intros [= <-]; simpl; apply within_client_phase;
      destruct (0 <? LoopEnv.r_event env),
        (LoopEnv.r_job_null env && LoopEnv.r_mmio_null env); simpl;
      split; simpl; rewrite ?handle_afu_idle_cycles, ?handle_afu_client; simpl;
      (done || (rewrite ?int_dec_eq by lia; lia)).
  - simpl. destruct (decide (Psl.idle_cycles psl ≠ 0)) as [Hnz|].
    + destruct (LoopEnv.r_event env <? 0); [done|].
      intros [= <-]. simpl. apply within_client_phase.
      destruct (0 <? LoopEnv.r_event env),
        (LoopEnv.r_job_null env && LoopEnv.r_mmio_null env); simpl;
        split; simpl; rewrite ?handle_afu_idle_cycles, ?handle_afu_client; simpl;
        (done || (rewrite ?int_dec_eq by lia; lia)).
    + intros [= <-]. simpl. apply within_client_phase. by destruct stopped.
Qed.

End Bounded.

Section BoundedRun.
Context `{K : Constants}.

(** No countdown ever exceeds PSL_IDLE_CYCLES: if the countdowns of the
    session and of its clients lie between zero and the maximum, they still
    do after any number of iterations of the loop. *)
Theorem countdowns_stay_within envs s s' :
  0 ≤ PSL_IDLE_CYCLES →
  countdowns_within s.1 →
  iterations envs s = Some s' →
  countdowns_within s'.1.
Proof.
  intros HK. revert s. induction envs as [|env envs IH]; intros s H; simpl.
  - by intros [= <-].
  - destruct (iteration env s) as [s1| |] eqn:E; [|done..].
    apply IH. by eapply within_iteration.
Qed.

End BoundedRun.

(** ** More on session creation *)

Section CreationPaths.
Context `{K : Constants}.

(** Follow [psl_init] down to the step that decides the path. *)
Ltac init_paths env id :=
  unfold psl_init; try unfold valid_id; try unfold name_shape;
  destruct env as [[p|] mn mh ma co jo mm cm au pt]; simpl;
  [destruct (negb (strlen id =? 6) || strncmp_ne id "afu" 3
             || negb (char_at id 4 =? 46)); simpl;
   [|destruct ((char_at id 3 <? 48) || (51 <? char_at id 3)); simpl;
     [|destruct ((char_at id 5 <? 48) || (51 <? char_at id 5)); simpl;
       [|destruct mn; simpl;
         [destruct mh; simpl;
          [destruct ma; simpl;
           [destruct co; simpl;
            [destruct jo; simpl;
             [destruct mm; simpl;
              [destruct cm; simpl;
               [destruct au; simpl;
                [destruct (pt =? 0); simpl|]|]|]|]|]|]|]|]]]]|].

(** On every path through [psl_init] the frees and destroys are balanced:
    no block is freed twice or before it was allocated, the lock of the
    session is destroyed only after it was initialised, and nothing is
    allocated twice. *)
Theorem psl_init_balanced env reg id host port :
  balanced env [] (InitResult.log (psl_init env reg id host port)) = true.
Proof. init_paths env id; reflexivity. Qed.

Example balanced_rejects_double_free :
  balanced all_succeed [] [Malloc R_psl; Free R_psl; Free R_psl] = false
  ∧ balanced all_succeed [] [Malloc R_psl; Mutex_destroy L_psl] = false.
Proof. split; reflexivity. Qed.

(** An event that is not in a log that is written out. *)
Ltac not_in_log H :=
  let H' := fresh in
  pose proof (bool_decide_eq_true_2 _ H) as H'; vm_compute in H'; discriminate H'.

(** [psl_init] ends in one of three ways: it returns 0, it returns -1,
    or it runs into the warning call that has no defined behaviour; the
    last happens exactly when the session record was allocated and the
    name has the right shape but a digit out of range.  Unless it returns
    0 the registry is as it was.  With 0 nothing was freed or destroyed.
    The AFU is contacted only for a well-formed name, no subsystem is
    initialised without a connection, and the thread is created only
    after the connection, the three subsystems and the credits are all in
    place. *)
Theorem psl_init_all_or_nothing env reg id host port :
  let r := psl_init env reg id host port in
  (InitResult.ret r = Returns 0 ∨ InitResult.ret r = Returns (-1)
   ∨ InitResult.ret r = Undefined)
  ∧ (InitResult.ret r = Undefined
     ↔ is_Some (InitEnv.r_malloc_psl env)
       ∧ name_shape id = true ∧ valid_id id = false)
  ∧ (InitResult.ret r ≠ Returns 0 → InitResult.registry r = reg)
  ∧ (InitResult.ret r = Returns 0 →
       ∀ e, e ∈ InitResult.log r → releases e = [])
  ∧ (Psl_init_afu_event host port ∈ InitResult.log r → valid_id id = true)
  ∧ (Job_init ∈ InitResult.log r → InitEnv.r_psl_init_afu_event env = true)
  ∧ (Pthread_create ∈ InitResult.log r →
       InitEnv.r_psl_init_afu_event env = true
       ∧ InitEnv.r_job_init env = true
       ∧ InitEnv.r_mmio_init env = true
       ∧ InitEnv.r_cmd_init env = true
       ∧ InitEnv.r_psl_aux1_change env = true).
Proof.
  init_paths env id.
  all: split; [first [by left | by right; left | by right; right]|].
  all: split;
    [split;
     [first [intros H; discriminate H
            | intros _; split; [by eexists|]; by split]
     |first [intros (_ & H & _); discriminate H
            | intros (_ & _ & H); discriminate H
            | intros ([? H] & _); discriminate H
            | reflexivity]]|].
  all: split; [first [reflexivity | intros H; by destruct H]|].
  all: split; [first [intros H; discriminate H
                     | intros _;
                       apply (proj1 (Forall_forall (λ e, releases e = []) _));
                       repeat constructor]|].
  all: split; [first [reflexivity | intros He; not_in_log He]|].
  all: split; [first [reflexivity | intros He; not_in_log He]|].
  all: first [intros _; repeat split; reflexivity | intros He; not_in_log He].
Qed.

End CreationPaths.

(** ** The debug identifier and the work element descriptor *)

Section Numbers.
Context `{K : Constants}.

Lemma dbg_id_digits M m :
  0 ≤ M ≤ 3 → 0 ≤ m ≤ 3 → Z.lor (Z.shiftl M 4) m = 16 * M + m.
Proof.
  intros HM Hm.
  assert (M = 0 ∨ M = 1 ∨ M = 2 ∨ M = 3) as HM' by lia.
  assert (m = 0 ∨ m = 1 ∨ m = 2 ∨ m = 3) as Hm' by lia.
  destruct HM' as [->|[->|[->| ->]]], Hm' as [->|[->|[->| ->]]]; reflexivity.
Qed.

(** The debug identifier of a session is sixteen times the major index
    plus the minor index of its name, hence at most 0x33, and two
    well-formed names with the same identifier are the same name. *)
Theorem dbg_id_of_name id :
  valid_id id = true →
  (∃ M m, 0 ≤ M ≤ 3 ∧ 0 ≤ m ≤ 3
          ∧ c_chars id = [97; 102; 117; 48 + M; 46; 48 + m]
          ∧ dbg_id_of id = 16 * M + m)
  ∧ 0 ≤ dbg_id_of id ≤ 51
  ∧ ∀ id', valid_id id' = true → dbg_id_of id' = dbg_id_of id →
           c_chars id' = c_chars id.
Proof.
  intros Hv.
  assert (∀ x, valid_id x = true →
            ∃ M m, 0 ≤ M ≤ 3 ∧ 0 ≤ m ≤ 3
                   ∧ c_chars x = [97; 102; 117; 48 + M; 46; 48 + m]
                   ∧ dbg_id_of x = 16 * M + m) as Hall.
  { intros x Hx. apply valid_id_spec in Hx as (M & m & HM & Hm & Hc).
    exists M, m. split; [done|]. split; [done|]. split; [done|].
    unfold dbg_id_of, char_at. rewrite Hc. simpl.
    replace (48 + M - 48) with M by lia. replace (48 + m - 48) with m by lia.
    by apply dbg_id_digits. }
  destruct (Hall id Hv) as (M & m & HM & Hm & Hc & Hd).
  split; [by exists M, m|]. split; [lia|].
  intros id' Hv' Heq.
  destruct (Hall id' Hv') as (M' & m' & HM' & Hm' & Hc' & Hd').
  rewrite Hc, Hc'. assert (M' = M ∧ m' = m) as [-> ->] by lia. done.
Qed.

Lemma le64_step b acc :
  0 ≤ acc → Z.lor (Z.land b 255) (Z.shiftl acc 8) = b `mod` 256 + 256 * acc.
Proof.
  intros Hacc.
  change 255 with (Z.ones 8). rewrite Z.land_ones by lia.
  change (2 ^ 8) with 256.
  assert (0 ≤ b `mod` 256 < 256) as Hb by (apply Z.mod_pos_bound; lia).
  rewrite Z.shiftl_mul_pow2 by lia. change (2 ^ 8) with 256.
  rewrite <- Z.lxor_lor, <- Z.add_nocarry_lxor; [lia| |].
  all: apply Z.bits_inj'; intros n Hn;
    rewrite Z.land_spec, Z.bits_0;
    destruct (decide (n < 8)) as [Hlt|Hge].
  all: try (replace (acc * 256) with (Z.shiftl acc 8)
              by (rewrite Z.shiftl_mul_pow2 by lia; reflexivity);
            rewrite (Z.shiftl_spec_low acc 8 n) by lia;
            by rewrite andb_false_r).
  all: assert (Z.testbit (b `mod` 256) n = false) as ->; [|done].
  all: destruct (decide (b `mod` 256 = 0)) as [->|Hnz]; [apply Z.bits_0|];
    apply Z.bits_above_log2; [lia|];
    assert (Z.log2 (b `mod` 256) < 8) by (apply Z.log2_lt_pow2; lia); lia.
Qed.

Lemma le64_fold_bound (l : list Z) :
  0 ≤ foldr (λ b acc, Z.lor (Z.land b 255) (Z.shiftl acc 8)) 0 l
    < 256 ^ Z.of_nat (length l).
Proof.
  induction l as [|b l IH]; simpl length; [simpl; lia|].
  simpl foldr. rewrite le64_step by lia.
  assert (0 ≤ b `mod` 256 < 256) as Hb by (apply Z.mod_pos_bound; lia).
  rewrite Nat2Z.inj_succ, Z.pow_succ_r by lia. lia.
Qed.

(** [le64toh] in closed form: the little-endian value of the first eight
    bytes, whatever follows them. *)
Lemma le64toh_value :
  (∀ buffer, 0 ≤ le64toh buffer < 2 ^ 64)
  ∧ (∀ b0 b1 b2 b3 b4 b5 b6 b7 rest,
       Forall (λ b, 0 ≤ b < 256) [b0; b1; b2; b3; b4; b5; b6; b7] →
       le64toh ([b0; b1; b2; b3; b4; b5; b6; b7] ++ rest)
       = b0 + 2 ^ 8 * b1 + 2 ^ 16 * b2 + 2 ^ 24 * b3 + 2 ^ 32 * b4
         + 2 ^ 40 * b5 + 2 ^ 48 * b6 + 2 ^ 56 * b7).
Proof.
  split.
  - intros buffer. unfold le64toh.
    pose proof (le64_fold_bound (take 8 buffer)) as H.
    assert (256 ^ Z.of_nat (length (take 8 buffer)) ≤ 2 ^ 64); [|lia].
    change (2 ^ 64) with (256 ^ 8).
    apply Z.pow_le_mono_r; [lia|]. rewrite length_take. lia.
  - intros b0 b1 b2 b3 b4 b5 b6 b7 rest H. unfold le64toh.
    change (take 8 ([b0; b1; b2; b3; b4; b5; b6; b7] ++ rest))
      with [b0; b1; b2; b3; b4; b5; b6; b7].
    repeat match goal with
           | H : Forall _ (_ :: _) |- _ => apply Forall_cons in H as [? H]
           end.
    cbn [foldr].
    change (Z.shiftl 0 8) with 0.
    assert (∀ b, 0 ≤ b < 256 → Z.lor (Z.land b 255) 0 = b) as Hlast.
    { intros b Hb. rewrite Z.lor_0_r. change 255 with (Z.ones 8).
      rewrite Z.land_ones by lia. apply Z.mod_small. by change (2 ^ 8) with 256. }
    rewrite Hlast by done.
    rewrite (le64_step b6), (Z.mod_small b6) by lia.
    rewrite (le64_step b5), (Z.mod_small b5) by lia.
    rewrite (le64_step b4), (Z.mod_small b4) by lia.
    rewrite (le64_step b3), (Z.mod_small b3) by lia.
    rewrite (le64_step b2), (Z.mod_small b2) by lia.
    rewrite (le64_step b1), (Z.mod_small b1) by lia.
    rewrite (le64_step b0), (Z.mod_small b0) by lia.
    repeat match goal with
           | |- context [2 ^ ?n] =>
               let v := eval vm_compute in (2 ^ n) in change (2 ^ n) with v
           end.
    lia.
Qed.

(** The work element descriptor that [_attach] hands to the job subsystem
    is the little-endian value of the eight bytes it read and fits an
    unsigned 64-bit word; the job is added once, after the read and before
    the one acknowledgement is written. *)
Theorem attach_wed_little_endian env i psl b0 b1 b2 b3 b4 b5 b6 b7 :
  ClientEnv.r_get_wed env = Some [b0; b1; b2; b3; b4; b5; b6; b7] →
  Forall (λ b, 0 ≤ b < 256) [b0; b1; b2; b3; b4; b5; b6; b7] →
  let wed := b0 + 2 ^ 8 * b1 + 2 ^ 16 * b2 + 2 ^ 24 * b3 + 2 ^ 32 * b4
             + 2 ^ 40 * b5 + 2 ^ 48 * b6 + 2 ^ 56 * b7 in
  let fd := Client.fd (client_at i psl) in
  0 ≤ wed < 2 ^ 64
  ∧ new_events psl (_attach env i psl)
    = [Get_bytes fd 8 10000; Add_job PSL_JOB_START wed;
       Put_bytes fd [if ClientEnv.r_add_job env
                     then PSLSE_ATTACH else PSLSE_DETACH]].
Proof.
  intros Hwed Hb. destruct le64toh_value as [Hbound Hval].
  specialize (Hval b0 b1 b2 b3 b4 b5 b6 b7 [] Hb). rewrite app_nil_r in Hval.
  cbv zeta. split.
  - rewrite <- Hval. apply Hbound.
  - rewrite (new_events_app _ _ _ (attach_trace env i psl)).
    unfold attach_events. by rewrite Hwed, Hval.
Qed.

End Numbers.

(** ** The end of a session *)

Section Teardown.
Context `{K : Constants}.

Lemma psl_init_success_live env reg id host port :
  InitResult.ret (psl_init env reg id host port) = Returns 0 →
  live env (InitResult.log (psl_init env reg id host port))
  = [R_psl; R_name; R_host; L_psl; R_afu_event;
     R_job; L_job; R_mmio; L_mmio; R_cmd; L_cmd].
Proof.
  unfold psl_init.
  destruct env as [[p|] mn mh ma co jo mm cm au pt]; simpl; [|done].
  destruct (negb (strlen id =? 6) || strncmp_ne id "afu" 3
            || negb (char_at id 4 =? 46)); simpl; [done|].
  destruct ((char_at id 3 <? 48) || (51 <? char_at id 3)); simpl; [done|].
  destruct ((char_at id 5 <? 48) || (51 <? char_at id 5)); simpl; [done|].
  destruct mn, mh, ma, co, jo, mm, cm, au, (pt =? 0); simpl; try done.
Qed.

(** The worker that ends a session created by [psl_init] gives back, once
    each, the lock, the strings, the event record and the three subsystem
    records with their locks; the session record itself is the one thing
    it never frees. *)
Theorem teardown_keeps_the_record env reg id host port ct self reg0 reg' tlog :
  InitResult.ret (psl_init env reg id host port) = Returns 0 →
  teardown (owned_after_init ct true) self reg0 = Some (reg', tlog) →
  NoDup (given_back tlog)
  ∧ (∀ r, r ∈ given_back tlog →
          r ∈ live env (InitResult.log (psl_init env reg id host port)))
  ∧ list_difference (live env (InitResult.log (psl_init env reg id host port)))
                    (given_back tlog)
    = [R_psl].
Proof.
  intros Hret Htd. rewrite (psl_init_success_live _ _ _ _ _ Hret).
  unfold teardown in Htd.
  destruct (Registry.sessions reg0 !! self) as [s0|]; [|done].
  simpl in Htd. injection Htd as _ Htl. symmetry in Htl.
  assert (given_back tlog = [L_psl; L_cmd; R_cmd; L_job; R_job; L_mmio; R_mmio;
            R_host; R_afu_event; R_name]) as ->.
  { subst tlog. by destruct ct. }
  split; [|split].
  - apply (bool_decide_unpack _). vm_compute. exact I.
  - apply (proj1 (Forall_forall _ _)).
    repeat (apply Forall_cons; split;
            [apply (bool_decide_unpack _); vm_compute; exact I|]).
    apply Forall_nil_2.
  - vm_compute. reflexivity.
Qed.

End Teardown.

(** ** The registry as a list *)

Section RegistryList.
Context `{K : Constants}.

Lemma chain_frame (S S' : gmap ptr Session.t) l :
  (∀ y, y ∈ l → S' !! y = S !! y) →
  ∀ prev first, chain S prev first l → chain S' prev first l.
Proof.
  induction l as [|x l IH]; intros Hsame prev first; simpl; [done|].
  intros (-> & s & Hs & Hp & Hc). split; [done|]. exists s.
  split; [rewrite Hsame; [done | by left]|]. split; [done|].
  apply IH; [|done]. intros y Hy. apply Hsame. by right.
Qed.

Lemma chain_lookup (S : gmap ptr Session.t) l x :
  ∀ prev first, chain S prev first l → x ∈ l → is_Some (S !! x).
Proof.
  induction l as [|y l IH]; intros prev first; simpl.
  - intros _ Hx. by apply elem_of_nil in Hx.
  - intros (-> & s & Hs & Hp & Hc) [->|Hx]%elem_of_cons; [by exists s|].
    by eapply IH.
Qed.

(** A successful [psl_init] that is handed a block not yet in the registry
    puts the new session in front of the sessions that were there, which
    stay linked as before. *)
Theorem psl_init_inserts_at_head env reg id host port p l :
  registry_list reg l →
  InitEnv.r_malloc_psl env = Some p →
  Registry.sessions reg !! p = None →
  InitResult.ret (psl_init env reg id host port) = Returns 0 →
  registry_list (InitResult.registry (psl_init env reg id host port)) (p :: l).
Proof.
  intros [Hnd Hch] Hp Hfresh.
  assert (p ∉ l) as Hpl.
  { intros Hin. destruct (chain_lookup _ _ _ _ _ Hch Hin) as [s Hs]. congruence. }
  unfold psl_init. rewrite Hp.
  destruct (negb (strlen id =? 6) || strncmp_ne id "afu" 3
            || negb (char_at id 4 =? 46)); [done|].
  destruct ((char_at id 3 <? 48) || (51 <? char_at id 3)); [done|].
  destruct ((char_at id 5 <? 48) || (51 <? char_at id 5)); [done|].
  destruct (negb (InitEnv.r_malloc_name env)); [done|].
  destruct (negb (InitEnv.r_malloc_host env)); [done|].
  destruct (negb (InitEnv.r_malloc_afu_event env)); [done|].
  destruct (negb (InitEnv.r_psl_init_afu_event env)); [done|].
  destruct (negb (InitEnv.r_job_init env)); [done|].
  destruct (negb (InitEnv.r_mmio_init env)); [done|].
  destruct (negb (InitEnv.r_cmd_init env)); [done|].
  destruct (negb (InitEnv.r_psl_aux1_change env)); [done|].
  destruct (negb (InitEnv.r_pthread_create env =? 0)); [done|].
  intros _. cbv zeta. split; [by apply NoDup_cons|].
  cbn [InitResult.registry Registry.head Registry.sessions chain].
  split; [done|]. eexists. split; [apply lookup_insert_eq|].
  cbn [Session._prev Session._next]. split; [done|].
  destruct l as [|h l]; simpl in Hch |- *; [done|].
  destruct Hch as (Hh & sh & Hsh & Hprev & Hch). rewrite Hh.
  split; [done|].
  assert (h ≠ p) as Hhp by (intros ->; congruence).
  exists (Session.set_prev (Some p) sh).
  split; [by rewrite lookup_insert_ne, lookup_alter_eq, Hsh|].
  split; [done|]. cbn [Session.set_prev Session._next].
  eapply chain_frame; [|exact Hch].
  intros y Hy.
  assert (y ≠ p) as Hyp.
  { intros ->. apply Hpl. right. done. }
  assert (y ≠ h) as Hyh.
  { intros ->. apply NoDup_cons in Hnd as [Hnd _]. done. }
  by rewrite lookup_insert_ne, lookup_alter_ne.
Qed.

Lemma chain_head (S : gmap ptr Session.t) prev first l :
  chain S prev first l → first = head l.
Proof. destruct l; simpl; [done|]. by intros [-> _]. Qed.

(** Where the session [x] sits in the list, its links say so. *)
Lemma chain_split (S : gmap ptr Session.t) x s l2 l1 :
  ∀ prev first,
    chain S prev first (l1 ++ x :: l2) → S !! x = Some s →
    Session._prev s = from_option Some prev (last l1)
    ∧ chain S (Some x) (Session._next s) l2.
Proof.
  induction l1 as [|y l1 IH]; intros prev first; simpl.
  - intros (_ & s' & Hs' & Hp & Hc) Hs. by simplify_eq.
  - intros (_ & sy & Hsy & Hp & Hc) Hs.
    destruct (IH _ _ Hc Hs) as [Hprev Hnext]. split; [|done].
    rewrite Hprev. destruct l1 as [|z l1]; [done|].
    change (last (y :: z :: l1)) with (last (z :: l1)).
    destruct (last (z :: l1)) as [w|] eqn:Hlast; [done|].
    by apply last_None in Hlast.
Qed.

Lemma unlink_lookup_other s (S : gmap ptr Session.t) y :
  Session._prev s ≠ Some y → Session._next s ≠ Some y →
  unlink s S !! y = S !! y.
Proof.
  intros Hp Hn. unfold unlink.
  destruct (Session._next s) as [q|], (Session._prev s) as [w|];
    rewrite ?lookup_alter_ne; (done || congruence).
Qed.

Lemma last_elem_of {A} (l : list A) x : last l = Some x → x ∈ l.
Proof.
  induction l as [|y [|z l] IH]; simpl; [done| |].
  - intros [= ->]. by left.
  - intros H. right. by apply IH.
Qed.

(** Taking [x] out of the list. *)
Lemma unlink_chain (S : gmap ptr Session.t) x s l2 :
  S !! x = Some s →
  ∀ l1 prev first,
    chain S prev first (l1 ++ x :: l2) →
    NoDup (l1 ++ x :: l2) →
    (∀ y, prev = Some y → y ∉ l1 ++ x :: l2) →
    chain (unlink s S) prev
          (match l1 with [] => Session._next s | _ => first end)
          (l1 ++ l2).
Proof.
  intros Hs. induction l1 as [|y l1 IH]; intros prev first Hch Hnd Hprev.
  - destruct (chain_split _ _ _ _ _ _ _ Hch Hs) as [Hp Hn]. simpl in Hp.
    simpl in Hnd. apply NoDup_cons in Hnd as [Hx Hnd].
    simpl app. pose proof (chain_head _ _ _ _ Hn) as Hhead.
    destruct l2 as [|q l2]; simpl in *; [done|].
    destruct Hn as (Hq & sq & Hsq & Hpq & Hn). split; [done|].
    assert (q ≠ x) as Hqx by (intros ->; apply Hx; by left).
    assert (unlink s S !! q = Some (Session.set_prev prev sq)) as Hlq.
    { unfold unlink. rewrite Hq, Hp. rewrite lookup_alter_eq.
      destruct prev as [w|]; [|by rewrite Hsq].
      rewrite lookup_alter_ne, Hsq; [done|].
      intros ->. apply (Hprev q eq_refl). right. by left. }
    exists (Session.set_prev prev sq). split; [done|]. split; [done|].
    cbn [Session.set_prev Session._next].
    eapply chain_frame; [|exact Hn].
    intros z Hz. apply unlink_lookup_other.
    + rewrite Hp. intros ->. apply (Hprev z eq_refl). right. by right.
    + rewrite Hq. intros [= ->]. apply NoDup_cons in Hnd as [Hnd _]. done.
  - simpl in Hch. destruct Hch as (Hfirst & sy & Hsy & Hpy & Hch).
    simpl in Hnd. apply NoDup_cons in Hnd as [Hy Hnd].
    destruct (chain_split _ _ _ _ _ _ _ Hch Hs) as [Hp Hn].
    pose proof (chain_head _ _ _ _ Hn) as Hhead.
    assert (chain (unlink s S) (Some y)
              (match l1 with [] => Session._next s | _ => Session._next sy end)
              (l1 ++ l2)) as Hrest.
    { apply IH; [done..|]. by intros z [= <-]. }
    assert (Session._next s ≠ Some y) as Hny.
    { rewrite Hhead. intros Hh. apply Hy. apply elem_of_app. right. right.
      destruct l2; simpl in Hh; [done|]. injection Hh as ->. by left. }
    simpl app. cbn [chain]. split; [done|].
    destruct l1 as [|z l1].
    + simpl in Hp.
      exists (set_next (Session._next s) sy).
      split; [|by split].
      unfold unlink. rewrite Hp.
      destruct (Session._next s) as [q|];
        [rewrite lookup_alter_ne by congruence|];
        by rewrite lookup_alter_eq, Hsy.
    + exists sy. split; [|by split].
      rewrite unlink_lookup_other; [done| |done].
      rewrite Hp. destruct (last (z :: l1)) as [w|] eqn:Hlast; simpl.
      * intros [= ->]. apply Hy. apply elem_of_app. left.
        by apply last_elem_of.
      * by apply last_None in Hlast.
Qed.

(** The worker of a session in the registry, with [psl->head] pointing at
    the head of the registry, takes exactly that session out of the list:
    the other sessions stay linked in their order, and the head moves on
    only if the session was the first.  The record of the session itself
    is left as it was. *)
Theorem teardown_unlinks o x reg l1 l2 :
  registry_list reg (l1 ++ x :: l2) →
  Owned.head o = true →
  ∃ reg' tlog,
    teardown o x reg = Some (reg', tlog)
    ∧ registry_list reg' (l1 ++ l2)
    ∧ Registry.sessions reg' !! x = Registry.sessions reg !! x
    ∧ (l1 ≠ [] → Registry.head reg' = Registry.head reg).
Proof.
  intros [Hnd Hch] Hhead.
  destruct (chain_lookup _ _ x _ _ Hch) as [s Hs].
  { apply elem_of_app. right. by left. }
  unfold teardown. rewrite Hs, Hhead. eexists _, _. split; [reflexivity|].
  pose proof (unlink_chain _ _ _ _ Hs l1 None _ Hch Hnd) as Hun.
  destruct (chain_split _ _ _ _ _ _ _ Hch Hs) as [Hp Hn].
  pose proof (chain_head _ _ _ _ Hn) as Hnh.
  pose proof (chain_head _ _ _ _ Hch) as Hfirst.
  assert ((x ∉ l1) ∧ (x ∉ l2)) as [Hx1 Hx2].
  { apply NoDup_app in Hnd as (_ & Hdisj & Hnd2).
    apply NoDup_cons in Hnd2 as [Hx2 _]. split; [|done].
    intros Hin. apply (Hdisj x Hin). by left. }
  split; [|split].
  - split.
    { apply NoDup_app in Hnd as (Hnd1 & Hdisj & Hnd2).
      apply NoDup_cons in Hnd2 as [_ Hnd2].
      apply NoDup_app. split; [done|]. split; [|done].
      intros y Hy Hy2. apply (Hdisj y Hy). by right. }
    cbn [Registry.head Registry.sessions].
    destruct l1 as [|y l1].
    + simpl in Hfirst. rewrite decide_True by done. by apply Hun.
    + simpl in Hfirst. rewrite decide_False.
      * by apply Hun.
      * rewrite Hfirst. intros [= ->]. apply Hx1. by left.
  - cbn [Registry.sessions]. rewrite <- Hs. apply unlink_lookup_other.
    + rewrite Hp. destruct (last l1) as [w|] eqn:Hlast; simpl; [|done].
      intros [= ->]. by apply Hx1, last_elem_of.
    + rewrite Hnh. destruct l2 as [|q l2]; simpl; [done|].
      intros [= ->]. apply Hx2. by left.
  - intros Hne. cbn [Registry.head]. rewrite decide_False; [done|].
    rewrite Hfirst. destruct l1 as [|y l1]; [done|]. simpl.
    intros [= ->]. apply Hx1. by left.
Qed.

End RegistryList.

(** ** Orderings of the calls *)

Section Orderings.
Context `{K : Constants}.

Lemma walk_app step b es es' :
  walk step b (es ++ es') = walk step b es ≫= λ b', walk step b' es'.
Proof.
  revert b. induction es as [|e es IH]; intros b; simpl; [done|].
  destruct (step b e); [apply IH | done].
Qed.

Lemma walk_skip step b b' es es' :
  walk step b es = Some b' → walk step b (es ++ es') = walk step b' es'.
Proof. intros H. by rewrite walk_app, H. Qed.

Lemma walk_neutral step (P : event → Prop) es :
  (∀ e, P e → ∀ b, step b e = Some b) →
  Forall P es → ∀ b, walk step b es = Some b.
Proof.
  intros Hn. induction 1 as [|e es He _ IH]; intros b; simpl; [done|].
  by rewrite (Hn e He b).
Qed.

Lemma walks_refl step b psl : walks step b psl b psl.
Proof. exists []. by rewrite app_nil_r. Qed.

Lemma walks_trans step b1 p1 b2 p2 b3 p3 :
  walks step b1 p1 b2 p2 → walks step b2 p2 b3 p3 → walks step b1 p1 b3 p3.
Proof.
  intros (es1 & H1 & W1) (es2 & H2 & W2). exists (es1 ++ es2).
  rewrite H2, H1, app_assoc. split; [done|]. by rewrite (walk_skip _ _ _ _ _ W1).
Qed.

Lemma walks_new_events step b psl b' psl' :
  walks step b psl b' psl' → walk step b (new_events psl psl') = Some b'.
Proof. intros (es & E & W). by rewrite (new_events_app _ _ _ E). Qed.

Lemma walks_extends step (P : event → Prop) b psl psl' :
  (∀ e, P e → ∀ b, step b e = Some b) →
  extends P psl psl' → walks step b psl b psl'.
Proof.
  intros Hn (es & E & F). exists es. split; [done|].
  by apply (walk_neutral step P).
Qed.

Lemma walks_trace step b psl b' psl' es :
  Psl.trace psl' = Psl.trace psl ++ es → walk step b es = Some b' →
  walks step b psl b' psl'.
Proof. intros. by exists es. Qed.

(** What one evaluation of the [while] adds to the trace before it turns
    to the clients. *)
Lemma iteration_shape env psl stopped :
  let moving := bool_decide (LoopEnv.r_state env ≠ PSLSE_IDLE) in
  let stopped1 := if moving then false else stopped in
  let idle1 := if moving then PSL_IDLE_CYCLES else Psl.idle_cycles psl in
  let es0 := if moving && stopped then [Info_clocking] else [] in
  match iteration env (psl, stopped) with
  | Exit psl' => Psl.trace psl' = Psl.trace psl
  | Break psl' =>
      Psl.trace psl'
      = Psl.trace psl
        ++ es0 ++ [Mutex_lock; Psl_signal_afu_model; Psl_get_afu_events;
                   Mutex_unlock]
  | Continue (psl', stopped') =>
      ∃ x, psl' = client_phase env x
           ∧ Psl.trace x
             = Psl.trace psl
               ++ es0
               ++ (if bool_decide (idle1 ≠ 0)
                   then clocking_events (Psl.cmd psl) (LoopEnv.r_event env)
                   else (if stopped1 then [] else [Info_stopping])
                        ++ [Ns_delay 1000000])
           ∧ stopped' = (if bool_decide (idle1 ≠ 0) then stopped1 else true)
  end.
Proof.
  unfold iteration, loop_head, clock_phase, clocking_events. simpl.
  destruct (LoopEnv.r_state env); simpl; [| |by rewrite ?app_nil_r].
  - destruct (decide (Psl.idle_cycles psl ≠ 0)) as [Hi|Hi].
    + rewrite (bool_decide_eq_true_2 _ Hi).
      destruct (LoopEnv.r_event env <? 0); [reflexivity|].
      eexists. split; [reflexivity|]. split; [|done].
      destruct (0 <? LoopEnv.r_event env),
        (LoopEnv.r_job_null env && LoopEnv.r_mmio_null env); simpl;
        rewrite ?handle_afu_trace; simpl; by rewrite <- ?app_assoc.
    + rewrite (bool_decide_eq_false_2 _ Hi).
      eexists. split; [reflexivity|]. split; [|done].
      destruct stopped; simpl; by rewrite <- ?app_assoc.
  - destruct (decide (PSL_IDLE_CYCLES ≠ 0)) as [Hi|Hi].
    + rewrite (bool_decide_eq_true_2 _ Hi).
      destruct stopped; simpl;
        (destruct (decide (PSL_IDLE_CYCLES ≠ 0)) as [_|]; [|done]);
        (destruct (LoopEnv.r_event env <? 0); [simpl; by rewrite <- ?app_assoc|]);
        (eexists; split; [reflexivity|]; split; [|done]);
        destruct (0 <? LoopEnv.r_event env),
          (LoopEnv.r_job_null env && LoopEnv.r_mmio_null env); simpl;
          rewrite ?handle_afu_trace; simpl; by rewrite <- ?app_assoc.
    + rewrite (bool_decide_eq_false_2 _ Hi).
      destruct stopped; simpl;
        (destruct (decide (PSL_IDLE_CYCLES ≠ 0)) as [|_]; [done|]);
        (eexists; split; [reflexivity|]; split; [|done]);
        simpl; by rewrite <- ?app_assoc.
Qed.

(** *** The session lock *)

Lemma lock_mmio_done_events h c : walk lock_step h (mmio_done_events c) = Some h.
Proof. unfold mmio_done_events. by destruct (Client.mmio_access c). Qed.

Lemma lock_attach_events h env fd :
  walk lock_step h (attach_events env fd) = Some h.
Proof. unfold attach_events. by destruct (ClientEnv.r_get_wed env). Qed.

Lemma lock_byte_events h env b c : walk lock_step h (byte_events env b c) = Some h.
Proof.
  unfold byte_events.
  rewrite (walk_skip _ _ h)
    by (destruct (b =? PSLSE_ATTACH); [apply lock_attach_events | done]).
  by destruct (b =? PSLSE_MEM_FAILURE), (b =? PSLSE_MEM_SUCCESS),
    (b =? PSLSE_MMIO_MAP), (b =? PSLSE_MMIO_WRITE64), (b =? PSLSE_MMIO_READ64),
    (b =? PSLSE_MMIO_WRITE32), (b =? PSLSE_MMIO_READ32).
Qed.

Lemma lock_free_events d c : walk lock_step false (free_events d c) = Some false.
Proof. unfold free_events. by destruct (Client.ip c). Qed.

Lemma lock_detach_events d c :
  walk lock_step false (detach_events d c) = Some false.
Proof. unfold detach_events, free_events. by destruct (Client.ip c). Qed.

Lemma lock_clocking_events cmd n :
  walk lock_step false (clocking_events cmd n) = Some false.
Proof. unfold clocking_events, afu_events. by destruct (0 <? n), cmd. Qed.

(** Take the lock automaton through the pieces of a trace. *)
Ltac lock_walk :=
  rewrite <- ?app_assoc;
  repeat first
    [ rewrite (walk_skip _ _ _ _ _ (lock_mmio_done_events _ _))
    | rewrite (walk_skip _ _ _ _ _ (lock_byte_events _ _ _ _))
    | rewrite (walk_skip _ _ _ _ _ (lock_free_events _ _))
    | rewrite (walk_skip _ _ _ _ _ (lock_detach_events _ _))
    | rewrite lock_mmio_done_events
    | rewrite lock_byte_events
    | rewrite lock_free_events
    | rewrite lock_detach_events
    | progress cbn [walk lock_step app] ].

Lemma client_slot_lock env i psl :
  walks lock_step false psl false (client_slot env i psl).
Proof.
  destruct (Psl.client psl !! i) as [c|] eqn:E;
    [|rewrite client_slot_None by done; apply walks_refl].
  rewrite (client_slot_lookup _ _ _ _ E).
  destruct (Client.valid c =? 0); [apply walks_refl|]. cbv zeta.
  destruct (0 <? ClientEnv.r_poll env);
    [destruct (ClientEnv.r_get_byte env) as [b|]|];
    unfold counted_or_released; try destruct (_ && _);
    (eapply walks_trace; [reflexivity|]); by lock_walk.
Qed.

Lemma client_phase_fold_lock env idxs psl :
  walks lock_step false psl false
    (foldl (λ psl i, client_slot (LoopEnv.r_client env i) i psl) psl idxs).
Proof.
  revert psl. induction idxs as [|i idxs IH]; intros psl; [apply walks_refl|].
  simpl. eapply walks_trans; [apply client_slot_lock | apply IH].
Qed.

Lemma iteration_lock env psl stopped :
  match iteration env (psl, stopped) with
  | Continue s' => walks lock_step false psl false s'.1
  | Break psl' | Exit psl' => walks lock_step false psl false psl'
  end.
Proof.
  pose proof (iteration_shape env psl stopped) as H. cbv zeta in H.
  destruct (iteration env (psl, stopped)) as [[psl' stopped']|psl'|psl'].
  - destruct H as (x & -> & Htr & _).
    eapply walks_trans; [|apply client_phase_fold_lock].
    eapply walks_trace; [exact Htr|].
    destruct (bool_decide (LoopEnv.r_state env ≠ PSLSE_IDLE)), stopped;
      cbn [andb app walk lock_step];
      case_bool_decide; cbn [app walk lock_step];
      by rewrite ?lock_clocking_events.
  - eapply walks_trace; [exact H|].
    by destruct (bool_decide (LoopEnv.r_state env ≠ PSLSE_IDLE)), stopped.
  - eapply walks_trace; [by rewrite app_nil_r|done].
Qed.

Lemma iterations_lock envs :
  ∀ s s', iterations envs s = Some s' → walks lock_step false s.1 false s'.1.
Proof.
  induction envs as [|env envs IH]; intros [psl stopped] s'; simpl.
  - intros [= <-]. apply walks_refl.
  - pose proof (iteration_lock env psl stopped) as H.
    destruct (iteration env (psl, stopped)) as [s1| |]; [|done..].
    intros Hits. eapply walks_trans; [exact H | by apply IH].
Qed.

Lemma disconnect_fold_lock h cs psl :
  walks lock_step h psl h
    (foldl (λ psl c, when (negb (Client.valid c =? 0)) (emit [Close (Client.fd c)]) psl)
           psl cs).
Proof.
  revert psl. induction cs as [|c cs IH]; intros psl; [apply walks_refl|].
  simpl. eapply walks_trans; [|apply IH].
  destruct (Client.valid c =? 0); simpl; [apply walks_refl|].
  by eapply walks_trace.
Qed.

Lemma psl_loop_lock envs :
  ∀ s psl', _psl_loop envs s = Some psl' → walks lock_step false s.1 false psl'.
Proof.
  induction envs as [|env envs IH]; intros [psl stopped] psl'; simpl; [done|].
  pose proof (iteration_lock env psl stopped) as H.
  destruct (iteration env (psl, stopped)) as [s1|p|p].
  - intros Hl. eapply walks_trans; [exact H | by apply IH].
  - intros [= <-]. eapply walks_trans; [exact H | apply disconnect_fold_lock].
  - intros [= <-]. eapply walks_trans; [exact H | apply disconnect_fold_lock].
Qed.

(** The lock and unlock calls that psl.c itself makes on the session lock
    alternate: the worker never locks while it holds the lock and never
    unlocks it unheld; where an iteration ends, where the loop is left by
    [break] or by PSLSE_DONE, and after the descriptors were closed, it
    does not hold the lock. *)
Theorem session_lock_discipline envs s :
  (∀ s', iterations envs s = Some s' →
         walk lock_step false (new_events s.1 s'.1) = Some false)
  ∧ (∀ psl', _psl_loop envs s = Some psl' →
             walk lock_step false (new_events s.1 psl') = Some false).
Proof.
  split.
  - intros s' H. by apply walks_new_events, (iterations_lock envs).
  - intros psl' H. by apply walks_new_events, (psl_loop_lock envs).
Qed.

(** *** The messages about the clock *)

Lemma message_clocking_events b cmd n :
  walk clock_message_step b (clocking_events cmd n) = Some b.
Proof. unfold clocking_events, afu_events. by destruct (0 <? n), cmd. Qed.

Lemma iteration_clock_message env psl stopped psl' stopped' :
  iteration env (psl, stopped) = Continue (psl', stopped') →
  walks clock_message_step stopped psl stopped' psl'.
Proof.
  intros E. pose proof (iteration_shape env psl stopped) as H.
  rewrite E in H. cbv zeta in H. destruct H as (x & -> & Htr & ->).
  eapply walks_trans;
    [eapply walks_trace; [exact Htr|]
    |eapply walks_extends; [|apply client_phase_extends]].
  - destruct (bool_decide (LoopEnv.r_state env ≠ PSLSE_IDLE)), stopped;
      cbn [andb app walk clock_message_step];
      case_bool_decide; cbn [app walk clock_message_step];
      by rewrite ?message_clocking_events.
  - intros e He b. by destruct e.
Qed.

(** The messages about the clock alternate: over any number of
    iterations "Clocking" is logged only while [stopped] is set and
    "Stopping clocks" only while it is not, so neither is ever logged twice
    in a row, and [stopped] tells which came last. *)
Theorem clock_messages_alternate envs :
  ∀ s s', iterations envs s = Some s' →
          walk clock_message_step s.2 (new_events s.1 s'.1) = Some s'.2.
Proof.
  intros s s' H. apply walks_new_events. revert s s' H.
  induction envs as [|env envs IH]; intros [psl stopped] s'; simpl.
  - intros [= <-]. apply walks_refl.
  - destruct (iteration env (psl, stopped)) as [[p1 st1]| |] eqn:E; [|done..].
    intros Hits. eapply walks_trans; [by apply (iteration_clock_message env)|].
    by apply (IH (p1, st1)).
Qed.

End Orderings.

(** ** The further properties at work on concrete sessions *)

Lemma client_slot_other_slots_witness :
  Psl.client (client_slot (K := K0) (sends 6) 0 two_clients) !! 1%nat
  = Some busy_client.
Proof.
  assert (0%nat ≠ 1%nat) as Hne by lia.
  pose proof (client_slot_other_slots (K := K0) (sends 6) 0 1 two_clients Hne)
    as [Hother _].
  rewrite Hother. reflexivity.
Defined.

Lemma validity_one_way_witness :
  client_slot (K := K0) (sends 5) 0 no_client = no_client.
Proof.
  pose proof (validity_one_way (K := K0) (sends 5) 0 no_client
                (client_of 0 0 None) eq_refl) as [Hnothing _].
  by apply Hnothing.
Defined.

Lemma attached_client_stays_witness :
  Client.valid (client_at 0 (client_slot (K := K0) (sends 255) 0 one_idle_client)) = 1
  ∧ closes (new_events one_idle_client
              (client_slot (K := K0) (sends 255) 0 one_idle_client)) = [].
Proof.
  assert (0 < Client.valid (client_of 1 0 None)) as Hv by (simpl; lia).
  assert (¬ (0 < ClientEnv.r_poll (sends 255)
             ∧ ClientEnv.r_get_byte (sends 255) = None)) as Hread
    by (intros [_ H]; discriminate H).
  assert (¬ (0 < ClientEnv.r_poll (sends 255)
             ∧ ClientEnv.r_get_byte (sends 255)
               = Some (PSLSE_DETACH (Constants := K0)))) as Hdetach
    by (intros [_ H]; discriminate H).
  pose proof (attached_client_stays (K := K0) (sends 255) 0 one_idle_client
                (client_of 1 0 None) eq_refl Hv Hread Hdetach)
    as (Hvalid & _ & Hcloses).
  split; [exact Hvalid | exact Hcloses].
Defined.

Lemma failed_read_releases_witness :
  closes (new_events one_attached
            (client_slot (K := K0) (hangs_up 0) 0 one_attached)) = [Close 5]
  ∧ puts (new_events one_attached
            (client_slot (K := K0) (hangs_up 0) 0 one_attached)) = [].
Proof.
  assert (Client.valid (client_of 1 3 None) ≠ 0) as Hv by (simpl; lia).
  assert (0 < ClientEnv.r_poll (hangs_up 0)) as Hpoll by (simpl; lia).
  pose proof (failed_read_releases (K := K0) (hangs_up 0) 0 one_attached
                (client_of 1 3 None) eq_refl Hv Hpoll eq_refl)
    as (_ & _ & _ & _ & Hputs & Hcloses & _).
  split; [exact Hcloses | exact Hputs].
Defined.

Lemma byte_updates_references_witness :
  Client.mem_access
    (client_at 0 (_handle_client (K := K0) (sends 11) 0 one_detaching)) = None.
Proof.
  assert (0 < ClientEnv.r_poll (sends 11)) as Hpoll by (simpl; lia).
  pose proof (byte_updates_references (K := K0) (sends 11) 0 one_detaching
                (client_of (-1) 5 (Some 7%nat)) 11 eq_refl Hpoll eq_refl)
    as (Hmem & _).
  exact Hmem.
Defined.

Lemma K0_busy_iteration :
  clockable (K := K0) busy_iteration ∧ outstanding busy_iteration.
Proof. split; [|reflexivity]. split; [reflexivity|]. split; [simpl; lia|done]. Defined.

Lemma busy_session_keeps_clocking_witness :
  ∃ s', iterations (K := K0) (replicate 3 busy_iteration) last_clocked = Some s'
        ∧ Psl.idle_cycles s'.1 = 1
        ∧ clock_edges (new_events last_clocked.1 s'.1) = 3%nat.
Proof.
  apply (busy_session_keeps_clocking (K := K0) (replicate 3 busy_iteration)
           last_clocked).
  - apply Forall_replicate, K0_busy_iteration.
  - simpl. lia.
Defined.

Lemma idle_session_clock_edges_witness :
  ∃ s', iterations (K := K0) (replicate 5 (idle_iteration 255))
          (session_of PSLSE_IDLE 2 (client_of 1 0 None), false) = Some s'
        ∧ clock_edges
            (new_events (session_of PSLSE_IDLE 2 (client_of 1 0 None)) s'.1)
          = 2%nat.
Proof.
  apply (idle_session_clock_edges (K := K0) (replicate 5 (idle_iteration 255))
           (session_of PSLSE_IDLE 2 (client_of 1 0 None), false)).
  - apply Forall_replicate. split; [apply K0_quiescent; lia | simpl; lia].
  - simpl. lia.
Defined.

Lemma transport_error_leaves_loop_witness :
  iteration (K := K0) (transport_fails PSLSE_IDLE) (one_detaching, false)
  = Break (emit [Mutex_lock; Psl_signal_afu_model; Psl_get_afu_events;
                 Mutex_unlock]
             (Psl.set_state PSLSE_IDLE one_detaching))
  ∧ ∃ psl' es,
      iteration (K := K0) (transport_fails PSLSE_IDLE) (stopped_session, false)
      = Continue (psl', true)
      ∧ new_events stopped_session psl'
        = [Info_stopping; Ns_delay 1000000] ++ es
      ∧ Psl_get_afu_events ∉ new_events stopped_session psl'.
Proof.
  assert (LoopEnv.r_event (transport_fails PSLSE_IDLE) < 0) as Hev
    by (simpl; lia).
  pose proof (transport_error_leaves_loop (K := K0) (transport_fails PSLSE_IDLE)
                one_detaching false Hev) as (_ & Hidle & _).
  pose proof (transport_error_leaves_loop (K := K0) (transport_fails PSLSE_IDLE)
                stopped_session false Hev) as (_ & _ & Hstopped).
  split; [apply Hidle; [reflexivity | simpl; lia]|].
  destruct (Hstopped eq_refl eq_refl) as (psl' & es & Hit & Hnew & _ & Hget & _).
  by exists psl', es.
Defined.

Lemma leaving_closes_every_client_witness :
  ∃ psl' psl,
    _psl_loop (K := K0) [transport_fails PSLSE_RUNNING] (one_detaching, false)
    = Some psl'
    ∧ Psl.trace psl'
      = Psl.trace psl
        ++ ((λ c, Close (Client.fd c))
            <$> filter (λ c, Client.valid c ≠ 0) (Psl.client psl)).
Proof.
  assert (∃ psl',
            _psl_loop (K := K0) [transport_fails PSLSE_RUNNING]
              (one_detaching, false) = Some psl') as [psl' E]
    by (eexists; reflexivity).
  destruct (leaving_closes_every_client (K := K0) _ _ _ E) as (psl & _ & Htr & _).
  exists psl', psl. split; [exact E | exact Htr].
Defined.

Lemma no_clients_no_calls_witness :
  client_phase (K := K0) (idle_iteration 5) no_client = no_client.
Proof.
  apply (no_clients_no_calls (K := K0)). repeat constructor.
Defined.

Lemma countdowns_stay_within_witness :
  ∃ s', iterations (K := K0) (replicate 3 (idle_iteration 6)) last_clocked = Some s'
        ∧ countdowns_within (K := K0) s'.1.
Proof.
  destruct (quiescent_iterations (K := K0) (replicate 3 (idle_iteration 6)))
    with (s := last_clocked) as (s' & E & _).
  { apply Forall_replicate. split; [apply K0_quiescent; lia | simpl; lia]. }
  { simpl. lia. }
  exists s'. split; [exact E|].
  apply (countdowns_stay_within (K := K0) (replicate 3 (idle_iteration 6))
           last_clocked s'); [simpl; lia | | exact E].
  split; [simpl; lia|]. repeat constructor; simpl; lia.
Defined.

Lemma psl_init_all_or_nothing_witness :
  InitResult.registry
    (psl_init (K := K0) pthread_create_fails one_session "afu0.1" "localhost" 12345)
  = one_session
  ∧ InitResult.ret
      (psl_init (K := K0) all_succeed one_session "afu0.7" "localhost" 12345)
    = Undefined.
Proof.
  pose proof (psl_init_all_or_nothing (K := K0) pthread_create_fails one_session
                "afu0.1" "localhost" 12345) as (_ & _ & Hsame & _).
  pose proof (psl_init_all_or_nothing (K := K0) all_succeed one_session
                "afu0.7" "localhost" 12345) as (_ & Hundefined & _).
  split.
  - apply Hsame. intros H. vm_compute in H. discriminate H.
  - apply Hundefined. split; [by eexists|]. by split.
Defined.

Lemma dbg_id_of_name_witness : 0 ≤ dbg_id_of "afu1.2" ≤ 51.
Proof.
  pose proof (dbg_id_of_name "afu1.2" eq_refl) as (_ & Hrange & _).
  exact Hrange.
Defined.

Lemma attach_wed_little_endian_witness :
  new_events one_idle_client (_attach (K := K0) wed_bytes 0 one_idle_client)
  = [Get_bytes 5 8 10000; Add_job 144 513; Put_bytes 5 [5]].
Proof.
  assert (Forall (λ b, 0 ≤ b < 256) [1; 2; 0; 0; 0; 0; 0; 0]) as Hb
    by (repeat constructor; lia).
  pose proof (attach_wed_little_endian (K := K0) wed_bytes 0 one_idle_client
                1 2 0 0 0 0 0 0 eq_refl Hb) as [_ Hnew].
  exact Hnew.
Defined.

Lemma teardown_keeps_the_record_witness :
  ∃ reg' tlog,
    teardown (owned_after_init true true) 1%nat one_session = Some (reg', tlog)
    ∧ list_difference
        (live all_succeed
           (InitResult.log
              (psl_init (K := K0) all_succeed empty_registry "afu0.0"
                 "localhost" 12345)))
        (given_back tlog)
      = [R_psl].
Proof.
  assert (∃ reg' tlog,
            teardown (owned_after_init true true) 1%nat one_session
            = Some (reg', tlog)) as (reg' & tlog & E)
    by (eexists _, _; reflexivity).
  exists reg', tlog. split; [exact E|].
  pose proof (teardown_keeps_the_record (K := K0) all_succeed empty_registry
                "afu0.0" "localhost" 12345 true 1%nat one_session reg' tlog
                eq_refl E) as (_ & _ & Hleft).
  exact Hleft.
Defined.

Lemma one_session_list : registry_list one_session [1%nat].
Proof.
  split; [apply NoDup_singleton|]. simpl. split; [reflexivity|].
  eexists. split; [apply lookup_singleton_eq|]. by split.
Defined.

Lemma psl_init_inserts_at_head_witness :
  registry_list
    (InitResult.registry
       (psl_init (K := K0) second_block one_session "afu0.1" "localhost" 12345))
    [2%nat; 1%nat].
Proof.
  apply (psl_init_inserts_at_head (K := K0) second_block one_session
           "afu0.1" "localhost" 12345 2%nat [1%nat]).
  - exact one_session_list.
  - reflexivity.
  - apply lookup_singleton_ne. lia.
  - reflexivity.
Defined.

Lemma two_sessions_list : registry_list two_sessions ([] ++ 2%nat :: [1%nat]).
Proof.
  split.
  - apply NoDup_cons. split; [|apply NoDup_singleton].
    rewrite not_elem_of_cons. split; [lia | apply not_elem_of_nil].
  - simpl. split; [reflexivity|]. eexists. split; [apply lookup_insert_eq|].
    split; [reflexivity|]. simpl. split; [reflexivity|]. eexists.
    split; [rewrite lookup_insert_ne by lia; apply lookup_singleton_eq|].
    by split.
Defined.

Lemma teardown_unlinks_witness :
  ∃ reg' tlog,
    teardown (owned_after_init true true) 2%nat two_sessions = Some (reg', tlog)
    ∧ registry_list reg' [1%nat].
Proof.
  destruct (teardown_unlinks (owned_after_init true true) 2%nat two_sessions
              [] [1%nat] two_sessions_list eq_refl)
    as (reg' & tlog & E & Hlist & _).
  exists reg', tlog. split; [exact E | exact Hlist].
Defined.

Lemma session_lock_discipline_witness :
  ∃ psl',
    _psl_loop (K := K0) [idle_iteration 6; transport_fails PSLSE_RUNNING]
      (one_drained, true) = Some psl'
    ∧ walk lock_step false (new_events one_drained psl') = Some false.
Proof.
  assert (∃ psl',
            _psl_loop (K := K0) [idle_iteration 6; transport_fails PSLSE_RUNNING]
              (one_drained, true) = Some psl') as [psl' E]
    by (eexists; reflexivity).
  exists psl'. split; [exact E|].
  pose proof (session_lock_discipline (K := K0)
                [idle_iteration 6; transport_fails PSLSE_RUNNING]
                (one_drained, true)) as [_ Hloop].
  by apply Hloop.
Defined.

Lemma clock_messages_alternate_witness :
  ∃ s', iterations (K := K0) (replicate 3 (idle_iteration 255)) last_clocked
        = Some s'
        ∧ walk clock_message_step false (new_events last_clocked.1 s'.1)
          = Some s'.2.
Proof.
  destruct (quiescent_iterations (K := K0) (replicate 3 (idle_iteration 255)))
    with (s := last_clocked) as (s' & E & _).
  { apply Forall_replicate. split; [apply K0_quiescent; lia | simpl; lia]. }
  { simpl. lia. }
  exists s'. split; [exact E|].
  by apply (clock_messages_alternate (K := K0)
              (replicate 3 (idle_iteration 255)) last_clocked s').
Defined.
